(** * Verification of the sound-effect core of [src/sdlsound.cpp]

    The development embeds the resolver ([sfx_map] and the [find_sfx],
    [find_closest_sfx], [emplace_sfx] templates), the resource table
    ([get_sfx_resource]), the per-buffer resampling callback
    ([sound_effect_handler::slowed_time_effect]), the voice set-up
    ([sound_effect_handler::make_audio]), the block-averaging pitch
    shifter ([do_pitch_shift]) and the ambient entry point
    ([sfx::play_ambient_variant_sound]) as Rocq functions, and proves the
    properties of the specification about them.  Module [Ordering] adds
    [sfx_args::operator<], and module [Soundpack] the loaders
    ([add_sfx_path], [sfx::load_sound_effects],
    [sfx::load_sound_effect_preload], [sfx::load_playlist],
    [load_soundset], [shutdown_sound]), the one-shot requests
    ([sfx::has_variant_sound], [sfx::play_variant_sound]) and the music
    ([play_music], [musicFinished], [stop_music], [play_music_file],
    [update_music_volume]), with the properties the code shows for
    them.

    Conventions.
    - C++ [int], [Uint32], [Sint16], ... are [Z]; conversions that wrap
      are written out.
    - [std::map] is stdpp's [gmap]; [std::vector] is [list].
    - A C++ exception is the [throw] constructor of [res].
    - [float] is IEEE-754 binary32 with round-to-nearest-even (module
      [F32]). *)

From Stdlib Require Import ZArith Lia List.
From Stdlib Require SpecFloat.
From stdpp Require Import gmap strings list fin_maps.

#[local] Open Scope Z_scope.

(** ** Exceptions *)

(** The only exception type raised in the modelled code is
    [std::invalid_argument]. *)
Inductive exn := invalid_argument.

Inductive res (A : Type) : Type :=
| ok (a : A)
| throw (e : exn).
Arguments ok {A} a.
Arguments throw {A} e.

#[global] Instance res_ret : MRet res := fun A a => ok a.
#[global] Instance res_bind : MBind res := fun A B f m =>
  match m with
  | ok a => f a
  | throw e => throw e
  end.

(** ** The resolver *)

Module Resolver.

(** [struct sfx_args] *)
Record sfx_args := mk_sfx_args {
  id : string;
  variant : string;
  season : string;
  indoors : option bool;
  night : option bool
}.

#[global] Instance sfx_args_eq_dec : EqDecision sfx_args.
Proof. solve_decision. Defined.

(** [struct sound_effect]: the resource id is the result of interning the
    path with [add_sfx_path] when the effect is constructed. *)
Record sound_effect := mk_sound_effect {
  volume : Z;
  resource_id : Z
}.

#[global] Instance sound_effect_eq_dec : EqDecision sound_effect.
Proof. solve_decision. Defined.

(** [enum class sfx_season]; the [COUNT] sentinel is not a value. *)
Inductive sfx_season := NONE | SPRING | SUMMER | AUTUMN | WINTER.

(** [enum class sfx_in_or_out] *)
Inductive sfx_in_or_out := EITHER | OUTDOORS | INDOORS.

(** [enum class sfx_time_of_day] *)
Inductive sfx_time_of_day := ANY | DAYTIME | NIGHTTIME.

#[global] Instance sfx_season_eq_dec : EqDecision sfx_season.
Proof. solve_decision. Defined.
#[global] Instance sfx_in_or_out_eq_dec : EqDecision sfx_in_or_out.
Proof. solve_decision. Defined.
#[global] Instance sfx_time_of_day_eq_dec : EqDecision sfx_time_of_day.
Proof. solve_decision. Defined.

(** The underlying [uint8_t] values order the [std::map] keys; for [gmap]
    they give the countable encoding. *)
Definition season_code (s : sfx_season) : nat :=
  match s with NONE => 0 | SPRING => 1 | SUMMER => 2 | AUTUMN => 3 | WINTER => 4 end%nat.
Definition season_of_code (n : nat) : option sfx_season :=
  match n with
  | 0 => Some NONE | 1 => Some SPRING | 2 => Some SUMMER
  | 3 => Some AUTUMN | 4 => Some WINTER | _ => None
  end%nat.
Definition in_or_out_code (s : sfx_in_or_out) : nat :=
  match s with EITHER => 0 | OUTDOORS => 1 | INDOORS => 2 end%nat.
Definition in_or_out_of_code (n : nat) : option sfx_in_or_out :=
  match n with
  | 0 => Some EITHER | 1 => Some OUTDOORS | 2 => Some INDOORS | _ => None
  end%nat.
Definition tod_code (s : sfx_time_of_day) : nat :=
  match s with ANY => 0 | DAYTIME => 1 | NIGHTTIME => 2 end%nat.
Definition tod_of_code (n : nat) : option sfx_time_of_day :=
  match n with
  | 0 => Some ANY | 1 => Some DAYTIME | 2 => Some NIGHTTIME | _ => None
  end%nat.

#[global] Program Instance sfx_season_countable : Countable sfx_season :=
  inj_countable season_code season_of_code _.
Next Obligation. by intros []. Qed.
#[global] Program Instance sfx_in_or_out_countable : Countable sfx_in_or_out :=
  inj_countable in_or_out_code in_or_out_of_code _.
Next Obligation. by intros []. Qed.
#[global] Program Instance sfx_time_of_day_countable : Countable sfx_time_of_day :=
  inj_countable tod_code tod_of_code _.
Next Obligation. by intros []. Qed.

(** [season_from_string] *)
Definition season_from_string (str : string) : res sfx_season :=
  if decide (str = EmptyString) then ok NONE
  else if decide (str = "spring"%string) then ok SPRING
  else if decide (str = "summer"%string) then ok SUMMER
  else if decide (str = "autumn"%string) then ok AUTUMN
  else if decide (str = "winter"%string) then ok WINTER
  else throw invalid_argument.

(** [in_or_out_from_int]: [COUNT] is 3. *)
Definition in_or_out_from_int (value : Z) : res sfx_in_or_out :=
  let adjusted := value + 1 in
  if decide (adjusted >= 3 \/ adjusted < 0) then throw invalid_argument
  else ok (if decide (adjusted = 0) then EITHER
           else if decide (adjusted = 1) then OUTDOORS else INDOORS).

(** [tod_from_int]: [COUNT] is 3. *)
Definition tod_from_int (value : Z) : res sfx_time_of_day :=
  let adjusted := value + 1 in
  if decide (adjusted >= 3 \/ adjusted < 0) then throw invalid_argument
  else ok (if decide (adjusted = 0) then ANY
           else if decide (adjusted = 1) then DAYTIME else NIGHTTIME).

(** [bool_or]: a [bool] converts to [int] as 0 or 1. *)
Definition bool_or (opt : option bool) (defl : Z) : Z :=
  match opt with
  | Some b => if b then 1 else 0
  | None => defl
  end.

Abbreviation bucket := (list sound_effect).
Abbreviation tod_level := (gmap sfx_time_of_day (list sound_effect)).
Abbreviation in_or_out_level := (gmap sfx_in_or_out (gmap sfx_time_of_day (list sound_effect))).
Abbreviation season_level :=
  (gmap sfx_season (gmap sfx_in_or_out (gmap sfx_time_of_day (list sound_effect)))).
Abbreviation variant_level :=
  (gmap string (gmap sfx_season (gmap sfx_in_or_out (gmap sfx_time_of_day (list sound_effect))))).
Abbreviation effects_t :=
  (gmap string (gmap string (gmap sfx_season (gmap sfx_in_or_out
     (gmap sfx_time_of_day (list sound_effect)))))).

(** *** The lookup templates

    Each template instance does its own level and hands [it->second] to
    the instance for the remaining keys; [rest] is that instance.  A null
    pointer is [None]. *)

Section Templates.
Context {K : Type} `{Countable K} {V B : Type}.

(** [find_sfx( c, k )] *)
Definition find_sfx_last (c : gmap K V) (k : K) : option V :=
  match c !! k with
  | None => None
  | Some second => Some second
  end.

(** [find_sfx( c, k, k2, keys... )] *)
Definition find_sfx_next (c : gmap K V) (k : K) (rest : V -> option B) : option B :=
  match c !! k with
  | None => None
  | Some second => rest second
  end.

(** The iterator of [find_closest_sfx]: [c.find( k )], and on a miss
    [c.find( d )]. *)
Definition closest_it (c : gmap K V) (k d : K) : option V :=
  let it := c !! k in
  match it with
  | None => c !! d
  | Some _ => it
  end.

(** [find_closest_sfx( c, k, d )] *)
Definition find_closest_sfx_last (c : gmap K V) (k d : K) : option V :=
  match closest_it c k d with
  | None => None
  | Some second => Some second
  end.

(** [find_closest_sfx( c, k, d1, k2, d2, kds... )] *)
Definition find_closest_sfx_next (c : gmap K V) (k d1 : K)
    (rest : V -> option B) : option B :=
  match closest_it c k d1 with
  | None => None
  | Some second => rest second
  end.

(** [c[k]] yields a reference to the entry, value-initialised when the
    key is new.  What the caller does through the reference is [upd];
    the result is the container afterwards. *)
Definition subscript (fresh : V) (c : gmap K V) (k : K) (upd : V -> V) : gmap K V :=
  <[k := upd (default fresh (c !! k))]> c.
End Templates.

(** [find_sfx] instantiated at the five keys of [sfx_map::effects]. *)
Definition find_sfx (c : effects_t) (k1 k2 : string) (k3 : sfx_season)
    (k4 : sfx_in_or_out) (k5 : sfx_time_of_day) : option bucket :=
  find_sfx_next c k1 (fun c1 =>
  find_sfx_next c1 k2 (fun c2 =>
  find_sfx_next c2 k3 (fun c3 =>
  find_sfx_next c3 k4 (fun c4 =>
  find_sfx_last c4 k5)))).

(** [find_closest_sfx] instantiated at the five key/default pairs. *)
Definition find_closest_sfx (c : effects_t)
    (k1 d1 k2 d2 : string) (k3 d3 : sfx_season)
    (k4 d4 : sfx_in_or_out) (k5 d5 : sfx_time_of_day) : option bucket :=
  find_closest_sfx_next c k1 d1 (fun c1 =>
  find_closest_sfx_next c1 k2 d2 (fun c2 =>
  find_closest_sfx_next c2 k3 d3 (fun c3 =>
  find_closest_sfx_next c3 k4 d4 (fun c4 =>
  find_closest_sfx_last c4 k5 d5)))).

(** [emplace_sfx] instantiated at the five keys; [upd] is what the caller
    does to the returned [std::vector<sound_effect> &]. *)
Definition emplace_sfx (c : effects_t) (k1 k2 : string) (k3 : sfx_season)
    (k4 : sfx_in_or_out) (k5 : sfx_time_of_day) (upd : bucket -> bucket) : effects_t :=
  subscript ∅ c k1 (fun c1 =>
  subscript ∅ c1 k2 (fun c2 =>
  subscript ∅ c2 k3 (fun c3 =>
  subscript ∅ c3 k4 (fun c4 =>
  subscript [] c4 k5 upd)))).

(** [struct sfx_map] *)
Record sfx_map := mk_sfx_map { effects : effects_t }.

(** [sfx_map::clear] *)
Definition clear (m : sfx_map) : sfx_map := mk_sfx_map ∅.

(** [sfx_map::operator[]].  The three conversions are evaluated before
    [emplace_sfx] is entered, so a throw leaves the map as it was. *)
Definition subscript_sfx_map (m : sfx_map) (key : sfx_args)
    (upd : bucket -> bucket) : res sfx_map :=
  s ← season_from_string (season key);
  io ← in_or_out_from_int (bool_or (indoors key) (-1));
  t ← tod_from_int (bool_or (night key) (-1));
  mret (mk_sfx_map (emplace_sfx (effects m) (id key) (variant key) s io t upd)).

(** [sfx_map::find( const sfx_args & )] *)
Definition find_exact (m : sfx_map) (key : sfx_args) : res (option bucket) :=
  s ← season_from_string (season key);
  io ← in_or_out_from_int (bool_or (indoors key) (-1));
  t ← tod_from_int (bool_or (night key) (-1));
  mret (find_sfx (effects m) (id key) (variant key) s io t).

(** [sfx_map::find( id, variant, season, is_indoors, is_night )] *)
Definition find (m : sfx_map) (id variant season : string)
    (is_indoors is_night : option bool) : res (option bucket) :=
  s ← season_from_string season;
  io ← in_or_out_from_int (bool_or is_indoors (-1));
  t ← tod_from_int (bool_or is_night (-1));
  mret (find_closest_sfx (effects m) id EmptyString variant "default"%string
          s NONE io EITHER t ANY).

(** One insertion, as [sfx::load_sound_effects] does it for one variant
    and one file: [sound_effects[key]] and [emplace_back] on the
    reference. *)
Definition insert (m : sfx_map) (key : sfx_args) (e : sound_effect) : res sfx_map :=
  subscript_sfx_map m key (fun b => b ++ [e]).

(** A sequence of insertions; an exception ends it. *)
Fixpoint insert_all (m : sfx_map) (l : list (sfx_args * sound_effect)) : res sfx_map :=
  match l with
  | [] => ok m
  | (key, e) :: l' => m' ← insert m key e; insert_all m' l'
  end.

(** The two optional booleans of a key, converted: what
    [in_or_out_from_int( bool_or( o, -1 ) )] and
    [tod_from_int( bool_or( o, -1 ) )] return (lemmas
    [in_or_out_from_bool_or] and [tod_from_bool_or]). *)
Definition in_or_out_of (o : option bool) : sfx_in_or_out :=
  match o with None => EITHER | Some false => OUTDOORS | Some true => INDOORS end.
Definition tod_of (o : option bool) : sfx_time_of_day :=
  match o with None => ANY | Some false => DAYTIME | Some true => NIGHTTIME end.

(** *** Definitions used to state the properties *)

(** The effects of an insertion sequence that went in under [key], in
    insertion order. *)
Definition inserted_under (l : list (sfx_args * sound_effect)) (key : sfx_args) : bucket :=
  (filter (fun p => p.1 = key) l).*2.

(** The key a level settles on, in the words of the specification: the
    supplied value if the level has it, else the level's single default. *)
Definition level_key `{Countable K} {V} (c : gmap K V) (supplied dflt : K) : K :=
  if decide (is_Some (c !! supplied)) then supplied else dflt.

(** The full key of the bucket a best-match query settles on: the levels
    are taken in the order id, variant, season, indoorness, time of day,
    each inside the container chosen by the previous one.  The defaults
    are those of the call in [sfx_map::find]; the id has one too, the
    empty string. *)
Definition resolved_key (c : effects_t) (id variant : string) (s : sfx_season)
    (io : sfx_in_or_out) (t : sfx_time_of_day) :
    string * string * sfx_season * sfx_in_or_out * sfx_time_of_day :=
  let id' := level_key c id EmptyString in
  let c1 := default ∅ (c !! id') in
  let variant' := level_key c1 variant "default"%string in
  let c2 := default ∅ (c1 !! variant') in
  let s' := level_key c2 s NONE in
  let c3 := default ∅ (c2 !! s') in
  let io' := level_key c3 io EITHER in
  let c4 := default ∅ (c3 !! io') in
  let t' := level_key c4 t ANY in
  (id', variant', s', io', t').

(** Best match as the specification words it: settle the key level by
    level, then look the bucket up under exactly that key. *)
Definition findBestMatch (c : effects_t) (id variant : string) (s : sfx_season)
    (io : sfx_in_or_out) (t : sfx_time_of_day) : option bucket :=
  let '(id', variant', s', io', t') := resolved_key c id variant s io t in
  find_sfx c id' variant' s' io' t'.

(** A soundpack with one effect stored under the empty id, and one with a
    "heavy" variant recorded for spring only next to a season-less
    default variant. *)
Definition growl : sound_effect := mk_sound_effect 80 0.
Definition thud : sound_effect := mk_sound_effect 60 1.
Definition pack_empty_id : sfx_map :=
  mk_sfx_map (emplace_sfx ∅ EmptyString "default" NONE EITHER ANY (fun b => b ++ [growl])).
Definition pack_heavy_spring : sfx_map :=
  mk_sfx_map
    (emplace_sfx
       (emplace_sfx ∅ "step" "heavy" SPRING EITHER ANY (fun b => b ++ [growl]))
       "step" "default" NONE EITHER ANY (fun b => b ++ [thud])).

(** Two effects inserted under a daytime key and one under the key that
    differs from it in the time of day only. *)
Definition day_any_insertions : list (sfx_args * sound_effect) :=
  [ (mk_sfx_args "step" "default" EmptyString None (Some false), growl);
    (mk_sfx_args "step" "default" EmptyString None None, thud);
    (mk_sfx_args "step" "default" EmptyString None (Some false), thud) ].
Definition pack_day_any : sfx_map :=
  mk_sfx_map
    (emplace_sfx
       (emplace_sfx
          (emplace_sfx ∅ "step" "default" NONE EITHER DAYTIME (fun b => b ++ [growl]))
          "step" "default" NONE EITHER ANY (fun b => b ++ [thud]))
       "step" "default" NONE EITHER DAYTIME (fun b => b ++ [thud])).

End Resolver.

(** ** Single-precision floats *)

(** The code computes sample positions and pitch ratios in [float].  A
    finite binary32 value is an integer multiple of the smallest
    subnormal, 2^-149, so a finite [float] is kept as that integer; the
    arithmetic is exact arithmetic on these integers followed by
    rounding to nearest, ties to even, onto the 24-bit grid.  The sign of
    zero is not kept (the code never looks at it). *)

Module F32.

Inductive f32 :=
| fin (u : Z)       (* the value u * 2^-149 *)
| inf (neg : bool)
| nan.

#[global] Instance f32_eq_dec : EqDecision f32.
Proof. solve_decision. Defined.

(** One, in units of 2^-149. *)
Definition unit : Z := 2 ^ 149.

(** The first magnitude that is out of range: 2^128. *)
Definition overflow_threshold : Z := 2 ^ 277.

(** Exponent of the grid spacing at magnitude [a] (in units): spacing 1
    through the subnormals and the first binade, doubling with each
    binade after. *)
Definition grid_exp (a : Z) : Z := Z.max 0 (Z.log2 a - 23).

(** [a] lies on the grid: it has at most 24 significant bits. *)
Definition representable (a : Z) : Prop := a mod 2 ^ grid_exp (Z.abs a) = 0.

(** Round the non-negative rational [n / d] to the grid, ties to even. *)
Definition round_mag (n d : Z) : Z :=
  let e := grid_exp (n / d) in
  let D := d * 2 ^ e in
  let q := n / D in
  let r := n mod D in
  let q' := if 2 * r <? D then q
            else if D <? 2 * r then q + 1
            else if Z.even q then q else q + 1 in
  q' * 2 ^ e.

(** Round the rational [n / d], [d > 0]; too large a magnitude becomes an
    infinity. *)
Definition round (n d : Z) : f32 :=
  let m := round_mag (Z.abs n) d in
  if overflow_threshold <=? m then inf (n <? 0) else fin (Z.sgn n * m).

Definition zero : f32 := fin 0.
Definition one : f32 := fin unit.
Definition quarter : f32 := fin (2 ^ 147).

(** Conversion of an integer ([static_cast<float>], and the usual
    arithmetic conversions in mixed expressions). *)
Definition of_int (z : Z) : f32 := round (z * unit) 1.

Definition fadd (x y : f32) : f32 :=
  match x, y with
  | fin a, fin b => round (a + b) 1
  | fin _, inf s => inf s
  | inf s, fin _ => inf s
  | inf s, inf s' => if eqb s s' then inf s else nan
  | _, _ => nan
  end.

Definition fopp (x : f32) : f32 :=
  match x with
  | fin a => fin (- a)
  | inf s => inf (negb s)
  | nan => nan
  end.

Definition fsub (x y : f32) : f32 := fadd x (fopp y).

Definition fmul (x y : f32) : f32 :=
  match x, y with
  | fin a, fin b => round (a * b) unit
  | fin a, inf s => if a =? 0 then nan else inf (xorb (a <? 0) s)
  | inf s, fin b => if b =? 0 then nan else inf (xorb s (b <? 0))
  | inf s, inf s' => inf (xorb s s')
  | _, _ => nan
  end.

Definition fdiv (x y : f32) : f32 :=
  match x, y with
  | fin a, fin b =>
      if b =? 0 then (if a =? 0 then nan else inf (a <? 0))
      else round (Z.sgn b * a * unit) (Z.abs b)
  | fin _, inf _ => zero
  | inf s, fin b => inf (xorb s (b <? 0))
  | _, _ => nan
  end.

(** [x < y] and [x >= y]; both are false when an operand is a NaN. *)
Definition flt (x y : f32) : bool :=
  match x, y with
  | fin a, fin b => a <? b
  | fin _, inf s => negb s
  | inf s, fin _ => s
  | inf s, inf s' => s && negb s'
  | _, _ => false
  end.

Definition fge (x y : f32) : bool :=
  match x, y with
  | nan, _ | _, nan => false
  | _, _ => negb (flt x y)
  end.

(** [std::floor] and [std::ceil] *)
Definition floor (x : f32) : f32 :=
  match x with
  | fin a => fin (a / unit * unit)
  | _ => x
  end.

Definition ceil (x : f32) : f32 :=
  match x with
  | fin a => fin (- ((- a) / unit) * unit)
  | _ => x
  end.

(** [fmodf]: the remainder has the sign of [x] and is exact. *)
Definition fmodf (x y : f32) : f32 :=
  match x, y with
  | fin a, fin b => if b =? 0 then nan else fin (Z.rem a b)
  | fin a, inf _ => fin a
  | _, _ => nan
  end.

(** Conversion to an integer type truncates toward zero.  The result is
    unspecified by the language when it does not fit the target type or
    the operand is not finite; [None] stands for that. *)
Definition truncate (x : f32) : option Z :=
  match x with
  | fin a => Some (Z.quot a unit)
  | _ => None
  end.

Definition to_int_range (lo hi : Z) (x : f32) : option Z :=
  match truncate x with
  | Some z => if (lo <=? z) && (z <=? hi) then Some z else None
  | None => None
  end.

Definition to_int32 : f32 -> option Z := to_int_range (- 2 ^ 31) (2 ^ 31 - 1).
Definition to_uint32 : f32 -> option Z := to_int_range 0 (2 ^ 32 - 1).
Definition to_int16 : f32 -> option Z := to_int_range (- 2 ^ 15) (2 ^ 15 - 1).

(** *** The same operations on the Standard Library's [SpecFloat]

    [SpecFloat] specifies IEEE-754 arithmetic for any precision and
    exponent range; at precision 24 and [emax] 128 it is binary32.  The
    translations below are used to check the integer model against it on
    samples. *)

Definition to_spec (x : f32) : SpecFloat.spec_float :=
  match x with
  | fin u => SpecFloat.binary_normalize 24 128 u (-149) false
  | inf s => SpecFloat.S754_infinity s
  | nan => SpecFloat.S754_nan
  end.

Definition of_spec (x : SpecFloat.spec_float) : f32 :=
  match x with
  | SpecFloat.S754_zero _ => fin 0
  | SpecFloat.S754_infinity s => inf s
  | SpecFloat.S754_nan => nan
  | SpecFloat.S754_finite s m e =>
      fin ((if s then -1 else 1) * Z.pos m * 2 ^ (e + 149))
  end.

(** Values that exercise exact results, ties in both directions, the
    subnormal range, the largest finite value and the non-finite ones. *)
Definition samples : list f32 :=
  [ fin 0; fin 1; fin 3; fin (2 ^ 23 + 1); fin (2 ^ 24 - 1); fin (2 ^ 24);
    quarter; fin (3 * 2 ^ 147); one; fin (3 * 2 ^ 148); fin (5 * unit);
    fin ((2 ^ 22 - 1) * unit + 2 ^ 148); fin (2 ^ 22 * unit);
    fin ((2 ^ 24 - 1) * unit); fin (2 ^ 24 * unit); fin ((2 ^ 24 + 2) * unit);
    fin ((2 ^ 24 + 4) * unit); fin (12582911 * 2 ^ 130); fin (7 * 2 ^ 127);
    fin ((2 ^ 24 - 1) * 2 ^ 253); fin (2 ^ 276);
    fin (- 1); fin (- (2 ^ 147)); fin (- unit); fin (- (3 * unit));
    fin (- ((2 ^ 24 - 1) * 2 ^ 253));
    inf false; inf true; nan ].

Definition agree_on (op : f32 -> f32 -> f32)
    (sop : SpecFloat.spec_float -> SpecFloat.spec_float -> SpecFloat.spec_float) : bool :=
  forallb (fun x => forallb (fun y =>
    bool_decide (of_spec (sop (to_spec x) (to_spec y)) = op x y)) samples) samples.

End F32.

(** ** Chunks, voices and the pitch shifter *)

Module Audio.
Import F32.

(** Behaviour the language leaves undefined: a failed [cata_assert], an
    access outside a buffer, a float-to-integer conversion whose value
    does not fit. *)
Inductive fault := assertion_failure | out_of_bounds | conversion_out_of_range.

Inductive outcome (A : Type) : Type :=
| value (a : A)
| undefined (why : fault).
Arguments value {A} a.
Arguments undefined {A} why.

#[global] Instance outcome_ret : MRet outcome := fun A a => value a.
#[global] Instance outcome_bind : MBind outcome := fun A B f m =>
  match m with
  | value a => f a
  | undefined why => undefined why
  end.

Definition converted (o : option Z) : outcome Z :=
  match o with
  | Some z => value z
  | None => undefined conversion_out_of_range
  end.

(** [Mix_Chunk]: [abuf] is the byte buffer (bytes are integers in
    [0, 256)), [alen] its length in bytes as the chunk records it. *)
Record Mix_Chunk := mk_chunk {
  allocated : Z;
  abuf : list Z;
  alen : Z;
  volume : Z
}.

#[global] Instance Mix_Chunk_eq_dec : EqDecision Mix_Chunk.
Proof. solve_decision. Defined.

(** A chunk whose recorded length is that of its buffer, within
    [Uint32], and whose buffer holds bytes. *)
Definition chunk_wf (c : Mix_Chunk) : Prop :=
  alen c = Z.of_nat (length (abuf c)) /\ alen c < 2 ^ 32 /\
  Forall (fun b => 0 <= b < 256) (abuf c).

(** A two's-complement 16-bit pattern as [int16_t]. *)
Definition to_signed16 (w : Z) : Z := if w <? 2 ^ 15 then w else w - 2 ^ 16.

(** [buf[off]] *)
Definition read_byte (buf : list Z) (off : Z) : outcome Z :=
  if off <? 0 then undefined out_of_bounds
  else match buf !! Z.to_nat off with
       | Some b => value b
       | None => undefined out_of_bounds
       end.

(** [buf[off] = b] *)
Definition write_byte (buf : list Z) (off : Z) (b : Z) : outcome (list Z) :=
  if (0 <=? off) && (off <? Z.of_nat (length buf))
  then value (<[Z.to_nat off := b]> buf)
  else undefined out_of_bounds.

(** [memcpy( &v, buf + off, sizeof( int16_t ) )] on a little-endian
    machine. *)
Definition read_sample (buf : list Z) (off : Z) : outcome Z :=
  b0 ← read_byte buf off;
  b1 ← read_byte buf (off + 1);
  mret (to_signed16 (b0 + 256 * b1)).

(** [memcpy( buf + off, &v, sizeof( int16_t ) )] *)
Definition write_sample (buf : list Z) (off : Z) (v : Z) : outcome (list Z) :=
  let w := v mod 2 ^ 16 in
  buf' ← write_byte buf off (w mod 256);
  write_byte buf' (off + 1) (w / 256).

(** *** [struct sound_effect_handler] *)

Record sound_effect_handler := mk_handler {
  audio_src : Mix_Chunk;
  active : bool;
  owns_audio : bool;
  current_sample_index : f32;
  loops_remaining : Z
}.

#[global] Instance sound_effect_handler_eq_dec : EqDecision sound_effect_handler.
Proof. solve_decision. Defined.

Definition set_position (h : sound_effect_handler) (idx : f32) (loops : Z) :
    sound_effect_handler :=
  mk_handler (audio_src h) (active h) (owns_audio h) idx loops.

Definition sound_speed_factor : f32 := quarter.
Definition bytes_per_sample : Z := 4.

(** The body of the [ear_offset] loop: one interpolated sample of the
    frame.  Nothing is read from the source once [loops_remaining] is
    -1. *)
Definition interpolate_ear (h : sound_effect_handler) (low_index high_index : Z)
    (ear_offset : Z) : outcome Z :=
  low_value ←
    (if decide (loops_remaining h <> -1)
     then read_sample (abuf (audio_src h)) (ear_offset + low_index * bytes_per_sample)
     else value 0);
  high_value ←
    (if decide (loops_remaining h <> -1)
     then read_sample (abuf (audio_src h)) (ear_offset + high_index * bytes_per_sample)
     else value 0);
  let interpolation_factor := fsub (current_sample_index h) (of_int low_index) in
  converted (to_int16
    (fadd (fmul (of_int (high_value - low_value)) interpolation_factor)
          (of_int low_value))).

(** The last statements of the body of the [dst_index] loop: advance the
    position, and at the end of the source count a loop down and wrap. *)
Definition advance (playback_speed : f32) (num_source_samples : Z)
    (h : sound_effect_handler) : sound_effect_handler :=
  let idx := fadd (current_sample_index h) (fmul one playback_speed) in
  if bool_decide (loops_remaining h >= 0) && fge idx (of_int num_source_samples)
  then set_position h (fmodf idx (of_int num_source_samples)) (loops_remaining h - 1)
  else set_position h idx (loops_remaining h).

(** One pass through the body of the [dst_index] loop. *)
Definition produce_frame (playback_speed : f32) (num_source_samples : Z)
    (dst_index : Z) (stream : list Z) (h : sound_effect_handler) :
    outcome (list Z * sound_effect_handler) :=
  low_index ← converted (to_int32 (floor (current_sample_index h)));
  high_index0 ← converted (to_int32 (ceil (current_sample_index h)));
  let high_index := if decide (high_index0 = num_source_samples) then 0 else high_index0 in
  left ← interpolate_ear h low_index high_index 0;
  stream1 ← write_sample stream (dst_index * bytes_per_sample + 0) left;
  right ← interpolate_ear h low_index high_index 2;
  stream2 ← write_sample stream1 (dst_index * bytes_per_sample + 2) right;
  mret (stream2, advance playback_speed num_source_samples h).

(** The [dst_index] loop; [todo] is the number of output frames still to
    go, [len / bytes_per_sample - dst_index]. *)
Fixpoint resample (todo : nat) (playback_speed : f32) (num_source_samples : Z)
    (dst_index : Z) (stream : list Z) (h : sound_effect_handler) :
    outcome (list Z * sound_effect_handler) :=
  match todo with
  | O => value (stream, h)
  | S todo' =>
      if flt (current_sample_index h) (of_int num_source_samples)
      then '(stream', h') ← produce_frame playback_speed num_source_samples
                              dst_index stream h;
           resample todo' playback_speed num_source_samples (dst_index + 1) stream' h'
      else value (stream, h)
  end.

(** What one call of the callback leaves behind: the output buffer, the
    handler, and whether [Mix_HaltChannel] was called on the channel. *)
Record callback_result := mk_callback_result {
  out_stream : list Z;
  out_handler : sound_effect_handler;
  halt_requested : bool
}.

(** [slowed_time_effect] after [playback_speed] has been chosen. *)
Definition slowed_time_effect_at (playback_speed : f32) (stream : list Z) (len : Z)
    (h : sound_effect_handler) : outcome callback_result :=
  if decide (loops_remaining h >= 0) then
    let num_source_samples := alen (audio_src h) / bytes_per_sample in
    '(stream', h') ← resample (Z.to_nat (len ÷ bytes_per_sample)) playback_speed
                       num_source_samples 0 stream h;
    mret (mk_callback_result stream' h' (bool_decide (loops_remaining h' < 0)))
  else undefined assertion_failure.

(** [sound_effect_handler::slowed_time_effect]; [time_slowed] is what
    [is_time_slowed()] returns during this call. *)
Definition slowed_time_effect (time_slowed : bool) (stream : list Z) (len : Z)
    (h : sound_effect_handler) : outcome callback_result :=
  let playback_speed := if time_slowed then sound_speed_factor else one in
  slowed_time_effect_at playback_speed stream len h.

(** [is_time_slowed], from the avatar's speed and moves. *)
Definition is_time_slowed (speed moves : Z) : bool :=
  bool_decide (Z.max speed 100 * 2 < moves).

(** The handler [make_audio] builds before it talks to the mixer. *)
Definition new_handler (audio_src : Mix_Chunk) (nloops : Z) (owns_audio : bool) :
    sound_effect_handler :=
  mk_handler audio_src true owns_audio zero
             (if decide (nloops = -1) then 10000 else nloops).

(** A voice through a sequence of callbacks, each with its own
    [is_time_slowed()] and buffer; the mixer stops calling once a halt
    was requested.  The result is the handler and whether a halt was
    requested. *)
Fixpoint run_callbacks (calls : list (bool * list Z)) (h : sound_effect_handler) :
    outcome (sound_effect_handler * bool) :=
  match calls with
  | [] => value (h, false)
  | (time_slowed, stream) :: calls' =>
      r ← slowed_time_effect time_slowed stream (Z.of_nat (length stream)) h;
      if halt_requested r then value (out_handler r, true)
      else run_callbacks calls' (out_handler r)
  end.

(** *** [do_pitch_shift] *)

(** The sum of the left and of the right samples over frames
    [begin .. begin + count - 1]: the [j] loop. *)
Fixpoint sum_frames (buf : list Z) (j : Z) (count : nat) (lt_avg rt_avg : Z) :
    outcome (Z * Z) :=
  match count with
  | O => value (lt_avg, rt_avg)
  | S count' =>
      l0 ← read_byte buf (4 * j + 0);
      l1 ← read_byte buf (4 * j + 1);
      r0 ← read_byte buf (4 * j + 2);
      r1 ← read_byte buf (4 * j + 3);
      let lt := to_signed16 (Z.lor (Z.shiftl l1 8) l0) in
      let rt := to_signed16 (Z.lor (Z.shiftl r1 8) r0) in
      sum_frames buf (j + 1) count' (lt_avg + lt) (rt_avg + rt)
  end.

(** The averaging window of output frame [i]: [begin] and [end] after the
    boundary check. *)
Definition window (s_in : Z) (pitch_real : f32) (i : Z) : outcome (Z * Z) :=
  begin ← converted (to_uint32 (fdiv (of_int i) pitch_real));
  end0 ← converted (to_uint32 (fdiv (of_int (i + 1)) pitch_real));
  mret (begin, if decide (end0 > 0 /\ end0 >= s_in) then begin else end0).

(** The body of the [i] loop.  [end - begin + 1] is computed in [Uint32];
    the [j] loop runs for that many frames, or not at all when [end] is
    below [begin]. *)
Definition shift_frame (s : Mix_Chunk) (pitch_real : f32) (out : list Z) (i : Z) :
    outcome (list Z) :=
  '(begin, end_) ← window (alen s / 4) pitch_real i;
  '(lt_avg, rt_avg) ← sum_frames (abuf s) begin (Z.to_nat (end_ - begin + 1)) 0 0;
  let count := (end_ - begin + 1) mod 2 ^ 32 in
  lt_out ← converted (to_int16 (fdiv (of_int lt_avg) (of_int count)));
  rt_out ← converted (to_int16 (fdiv (of_int rt_avg) (of_int count)));
  out1 ← write_byte out (4 * i + 1) (Z.land (Z.shiftr lt_out 8) 255);
  out2 ← write_byte out1 (4 * i + 0) (Z.land lt_out 255);
  out3 ← write_byte out2 (4 * i + 3) (Z.land (Z.shiftr rt_out 8) 255);
  write_byte out3 (4 * i + 2) (Z.land rt_out 255).

(** The [i] loop, from [i] for [todo] frames. *)
Fixpoint shift_frames (s : Mix_Chunk) (pitch_real : f32) (todo : nat) (i : Z)
    (out : list Z) : outcome (list Z) :=
  match todo with
  | O => value out
  | S todo' =>
      out' ← shift_frame s pitch_real out i;
      shift_frames s pitch_real todo' (i + 1) out'
  end.

(** [do_pitch_shift].  [malloc] hands out a buffer of [alen] bytes whose
    content is not initialised; it is taken as zeros. *)
Definition do_pitch_shift (s : Mix_Chunk) (pitch : f32) : outcome Mix_Chunk :=
  let s_in := alen s / 4 in
  s_out ← converted (to_uint32 (fmul (of_int s_in) pitch));
  let pitch_real := fdiv (of_int s_out) (of_int s_in) in
  let result_alen := (s_out * 4) mod 2 ^ 32 in
  let fresh := replicate (Z.to_nat result_alen) 0 in
  out ← shift_frames s pitch_real (Z.to_nat s_out) 0 fresh;
  mret (mk_chunk 1 out result_alen (volume s)).

(** *** Definitions used to state the properties *)

(** Frame [i] of a buffer as its pair of samples. *)
Definition frame (buf : list Z) (i : Z) : outcome (Z * Z) :=
  l ← read_sample buf (4 * i);
  r ← read_sample buf (4 * i + 2);
  mret (l, r).

(** The bytes of a list of frames. *)
Definition sample_bytes (v : Z) : list Z :=
  let w := v mod 2 ^ 16 in [w mod 256; w / 256].
Definition frames_bytes (fs : list (Z * Z)) : list Z :=
  fs ≫= (fun f => sample_bytes f.1 ++ sample_bytes f.2).
Definition chunk_of_frames (fs : list (Z * Z)) : Mix_Chunk :=
  mk_chunk 0 (frames_bytes fs) (4 * Z.of_nat (length fs)) 128.

(** The integer nearest to [n / d], [d > 0], halves away from zero for a
    non-negative quotient: the specification's [round]. *)
Definition nearest_int (n d : Z) : Z := (2 * n + d) / (2 * d).

(** The state of a handler between frames: the position is a finite
    non-negative [float]. *)
Definition position_ok (h : sound_effect_handler) : Prop :=
  exists i, current_sample_index h = fin i /\ 0 <= i /\ representable i.

(** A playback speed: a finite non-negative [float], here up to 2^100. *)
Definition speed_ok (playback_speed : f32) : Prop :=
  exists s, playback_speed = fin s /\ 0 <= s <= 2 ^ 100 * unit /\ representable s.

(** The frames [j .. j + count - 1] of a buffer. *)
Fixpoint frames_from (buf : list Z) (j : Z) (count : nat) : outcome (list (Z * Z)) :=
  match count with
  | O => value []
  | S count' =>
      f ← frame buf j;
      fs ← frames_from buf (j + 1) count';
      mret (f :: fs)
  end.

Definition sum_Z (l : list Z) : Z := foldr Z.add 0 l.

(** The mean of the samples [l] as [do_pitch_shift] computes it: a
    single-precision division of the sum by the count, truncated. *)
Definition mean_sample (l : list Z) (count : Z) : option Z :=
  to_int16 (fdiv (of_int (sum_Z l)) (of_int count)).

(** A source of two frames. *)
Definition two_frames : Mix_Chunk := chunk_of_frames [(100, -7); (300, 9)].

(** A source of four frames and a voice that plays it once. *)
Definition four_frames : Mix_Chunk :=
  chunk_of_frames [(100, -7); (300, 9); (-500, 0); (32767, -32768)].
Definition four_frame_voice : sound_effect_handler := new_handler four_frames 0 false.

(** What [do_pitch_shift] makes of [four_frames] at pitch 15/16. *)
Definition four_frames_shifted : Mix_Chunk :=
  mk_chunk 1 [200; 0; 1; 0; 156; 255; 4; 0; 12; 254; 0; 0] 12 128.

(** A source of 2^24 + 2 frames of silence (about six minutes and twenty
    seconds at 44.1 kHz), and one of 2^22 + 1 frames (about 95 seconds). *)
Definition long_source : Mix_Chunk :=
  mk_chunk 0 (replicate (Z.to_nat (4 * (2 ^ 24 + 2))) 0) (4 * (2 ^ 24 + 2)) 128.
Definition ambient_source : Mix_Chunk :=
  mk_chunk 0 (replicate (Z.to_nat (4 * (2 ^ 22 + 1))) 0) (4 * (2 ^ 22 + 1)) 128.

(** The position advanced by a call that produces every frame of its
    buffer, in quarters of a source frame. *)
Definition quarters (time_slowed : bool) : Z := if time_slowed then 1 else 4.
Definition call_advance (call : bool * list Z) : Z :=
  Z.of_nat (length call.2) / 4 * quarters call.1.
Definition total_advance (calls : list (bool * list Z)) : Z :=
  sum_Z (call_advance <$> calls).

(** A position given in quarters of a source frame. *)
Definition at_quarter (k : Z) : f32 := fin (k * 2 ^ 147).

End Audio.

(** ** Resources and the play requests *)

Module Playback.
Import F32 Audio.

(** A call either returns, or leaves by a C++ exception, or runs into
    undefined behaviour. *)
Inductive result (A : Type) : Type :=
| returned (a : A)
| raised (e : exn)
| undef (why : fault).
Arguments returned {A} a.
Arguments raised {A} e.
Arguments undef {A} why.

#[global] Instance result_ret : MRet result := fun A a => returned a.
#[global] Instance result_bind : MBind result := fun A B f m =>
  match m with
  | returned a => f a
  | raised e => raised e
  | undef why => undef why
  end.

Definition of_res {A} (r : res A) : result A :=
  match r with ok a => returned a | throw e => raised e end.
Definition of_outcome {A} (o : outcome A) : result A :=
  match o with value a => returned a | undefined why => undef why end.

(** What the code consumes from outside this file: SDL_mixer, the
    options, the random number generator, the path type and
    [sfx::is_channel_playing].  [E] is the state of all of that; a call
    that changes it returns the new state. *)
Class Environment (E : Type) := {
  (** [Mix_LoadWAV]: the decoded chunk, or none (a null pointer). *)
  Mix_LoadWAV : E -> string -> option Mix_Chunk;
  (** [( current_soundpack_path / path ).generic_u8string()] *)
  soundpack_file : string -> string -> string;
  (** [sfx::is_channel_playing] *)
  is_channel_playing : E -> Z -> bool;
  (** [get_option<int>] *)
  get_option_int : E -> string -> Z;
  (** [random_entry_ref] *)
  random_entry_ref : E -> list Resolver.sound_effect -> E * Resolver.sound_effect;
  (** [Mix_PlayChannel( channel, chunk, loops )] *)
  Mix_PlayChannel : E -> Z -> Mix_Chunk -> Z -> E * Z;
  (** [Mix_FadeInChannel( channel, chunk, loops, ms )] *)
  Mix_FadeInChannel : E -> Z -> Mix_Chunk -> Z -> Z -> E * Z;
  (** [Mix_RegisterEffect( channel, slowed_time_effect, on_finish, handler )] *)
  Mix_RegisterEffect : E -> Z -> sound_effect_handler -> E * Z;
  (** [Mix_HaltChannel] *)
  Mix_HaltChannel : E -> Z -> E * Z;
  (** [Mix_SetPosition( channel, angle, distance )] *)
  Mix_SetPosition : E -> Z -> Z -> Z -> E * Z
}.

(** [struct sound_effect_resource]; an empty [unique_ptr] is [None]. *)
Record sound_effect_resource := mk_resource {
  path : string;
  chunk : option Mix_Chunk
}.

(** [struct sfx_resources_t] *)
Record sfx_resources_t := mk_sfx_resources {
  resource : list sound_effect_resource;
  sound_effects : Resolver.sfx_map
}.

(** Where a [Mix_Chunk *] points: at the chunk a resource owns, or at a
    chunk of its own that [do_pitch_shift] made. *)
Inductive chunk_ptr :=
| resource_chunk (resource_id : Z)
| shifted_chunk (c : Mix_Chunk).

(** The globals of the file that the modelled functions touch, the state
    of the environment, and the handlers that are allocated. *)
Record world (E : Type) := mk_world {
  env : E;
  test_mode : bool;
  sound_init_success : bool;
  sound_enabled : bool;
  current_soundpack_path : string;
  sfx_resources : sfx_resources_t;
  handlers : list sound_effect_handler
}.
Arguments mk_world {E}.
Arguments env {E}.
Arguments test_mode {E}.
Arguments sound_init_success {E}.
Arguments sound_enabled {E}.
Arguments current_soundpack_path {E}.
Arguments sfx_resources {E}.
Arguments handlers {E}.

Section Functions.
Context {E : Type} `{Environment E}.

Definition set_env (w : world E) (e : E) : world E :=
  mk_world e (test_mode w) (sound_init_success w) (sound_enabled w)
           (current_soundpack_path w) (sfx_resources w) (handlers w).

Definition set_resource (w : world E) (rs : list sound_effect_resource) : world E :=
  mk_world (env w) (test_mode w) (sound_init_success w) (sound_enabled w)
           (current_soundpack_path w)
           (mk_sfx_resources rs (sound_effects (sfx_resources w))) (handlers w).

Definition set_handlers (w : world E) (hs : list sound_effect_handler) : world E :=
  mk_world (env w) (test_mode w) (sound_init_success w) (sound_enabled w)
           (current_soundpack_path w) (sfx_resources w) hs.

(** [check_sound] *)
Definition check_sound (w : world E) (volume : Z) : bool :=
  sound_init_success w && sound_enabled w && bool_decide (volume > 0).

(** [make_null_chunk]: a copy of [{ 0, nullptr, 0, 0 }]. *)
Definition make_null_chunk : Mix_Chunk := mk_chunk 0 [] 0 0.

(** [load_chunk] *)
Definition load_chunk (e : E) (path : string) : Mix_Chunk :=
  match Mix_LoadWAV e path with
  | Some result => result
  | None => make_null_chunk
  end.

(** [get_sfx_resource]: the subscript of the vector is not checked. *)
Definition get_sfx_resource (w : world E) (resource_id : Z) :
    result (world E * Mix_Chunk) :=
  if resource_id <? 0 then undef out_of_bounds
  else match resource (sfx_resources w) !! Z.to_nat resource_id with
       | None => undef out_of_bounds
       | Some r =>
           match chunk r with
           | Some c => returned (w, c)
           | None =>
               let c := load_chunk (env w)
                          (soundpack_file (current_soundpack_path w) (path r)) in
               returned
                 (set_resource w
                    (<[Z.to_nat resource_id := mk_resource (path r) (Some c)]>
                       (resource (sfx_resources w))),
                  c)
           end
       end.

(** [find_random_effect] *)
Definition find_random_effect (w : world E) (id variant season : string)
    (is_indoors is_night : option bool) :
    result (world E * option Resolver.sound_effect) :=
  iter ← of_res (Resolver.find (sound_effects (sfx_resources w)) id variant season
                   is_indoors is_night);
  match iter with
  | None => returned (w, None)
  | Some b =>
      let '(e', eff) := random_entry_ref (env w) b in
      returned (set_env w e', Some eff)
  end.

(** [Mix_VolumeChunk]: a negative volume changes nothing, one above
    [MIX_MAX_VOLUME] is cut to it. *)
Definition Mix_VolumeChunk (c : Mix_Chunk) (v : Z) : Mix_Chunk :=
  if v <? 0 then c
  else mk_chunk (allocated c) (abuf c) (alen c) (Z.min v 128).

(** The chunk a pointer points at. *)
Definition deref (w : world E) (p : chunk_ptr) : result Mix_Chunk :=
  match p with
  | shifted_chunk c => returned c
  | resource_chunk resource_id =>
      if resource_id <? 0 then undef out_of_bounds
      else match resource (sfx_resources w) !! Z.to_nat resource_id with
           | Some (mk_resource _ (Some c)) => returned c
           | _ => undef out_of_bounds
           end
  end.

(** Writing through the pointer: a resource's chunk changes in the
    table. *)
Definition store (w : world E) (p : chunk_ptr) (c : Mix_Chunk) : world E * chunk_ptr :=
  match p with
  | shifted_chunk _ => (w, shifted_chunk c)
  | resource_chunk resource_id =>
      (set_resource w
         (alter (fun r => mk_resource (path r) (Some c)) (Z.to_nat resource_id)
            (resource (sfx_resources w))),
       p)
  end.

(** [delete handler]: the first handler of the list that is [h] goes. *)
Fixpoint delete_handler (hs : list sound_effect_handler) (h : sound_effect_handler) :
    list sound_effect_handler :=
  match hs with
  | [] => []
  | h' :: hs' => if decide (h' = h) then hs' else h' :: delete_handler hs' h
  end.

(** [sound_effect_handler::on_finish]: the handler is deleted (and with
    it the chunk, if the handler owns it). *)
Definition on_finish (w : world E) (h : sound_effect_handler) : world E :=
  set_handlers w (delete_handler (handlers w) h).

(** [sound_effect_handler::make_audio]; the result is [failed]. *)
Definition make_audio (w : world E) (audioChannel : Z) (audio_src : chunk_ptr)
    (nloops volume : Z) (owns_audio : bool) (effect : Resolver.sound_effect)
    (angle : option Z) (fade_in_duration : option f32) : result (world E * bool) :=
  c0 ← deref w audio_src;
  let c := Mix_VolumeChunk c0
             ((Resolver.volume effect * get_option_int (env w) "SOUND_EFFECT_VOLUME" * volume)
              ÷ (100 * 100)) in
  let '(w, audio_src) := store w audio_src c in
  let handler := new_handler c nloops owns_audio in
  let w := set_handlers w (handler :: handlers w) in
  '(e, channel) ←
    match fade_in_duration with
    | Some ms =>
        ms' ← of_outcome (converted (to_int32 ms));
        returned (Mix_FadeInChannel (env w) audioChannel c (-1) ms')
    | None => returned (Mix_PlayChannel (env w) audioChannel c (-1))
    end;
  let w := set_env w e in
  let failed := bool_decide (channel = -1) in
  let '(w, failed) :=
    if failed then (w, failed)
    else
      let '(e, out) := Mix_RegisterEffect (env w) channel handler in
      if decide (out = 0)
      then (set_env w (Mix_HaltChannel e channel).1, true)
      else (set_env w e, failed) in
  let w :=
    match angle with
    | Some degrees =>
        if failed then w else set_env w (Mix_SetPosition (env w) channel degrees 1).1
    | None => w
    end in
  let w := if failed then on_finish w handler else w in
  returned (w, failed).

(** The [double] argument [pitch] of [play_ambient_variant_sound], as
    far as the code looks at it: whether it is positive, and its value
    converted to [float]. *)
Record pitch_arg := mk_pitch { is_positive : bool; as_float : f32 }.

(** [sfx::play_ambient_variant_sound] *)
Definition play_ambient_variant_sound (w : world E) (id variant season : string)
    (is_indoors is_night : option bool) (volume : Z) (channel : Z)
    (fade_in_duration : Z) (pitch : pitch_arg) (loops : Z) : result (world E) :=
  if test_mode w then returned w
  else if negb (check_sound w volume) then returned w
  else if is_channel_playing (env w) channel then returned w
  else
    '(w, eff) ← find_random_effect w id variant season is_indoors is_night;
    match eff with
    | None => returned w
    | Some selected_sound_effect =>
        '(w, effect_to_play) ←
          get_sfx_resource w (Resolver.resource_id selected_sound_effect);
        let is_pitched := is_positive pitch in
        let destroy_sound := is_pitched in
        ptr ←
          (if is_pitched
           then c ← of_outcome (do_pitch_shift effect_to_play (as_float pitch));
                returned (shifted_chunk c)
           else returned (resource_chunk (Resolver.resource_id selected_sound_effect)));
        let volume :=
          (Resolver.volume selected_sound_effect
           * get_option_int (env w) "AMBIENT_SOUND_VOLUME" * volume) ÷ (100 * 100) in
        '(w, failed) ← make_audio w channel ptr loops volume destroy_sound
                          selected_sound_effect None (Some (of_int fade_in_duration));
        returned w
    end.
End Functions.

(** *** An environment to run examples in

    A mixer that plays on whatever channel it is asked for, a decoder
    that knows one file, and a generator that always picks the first
    entry.  Its state is the log of the mixer calls and the channels that
    play. *)

Inductive mixer_call :=
| played (channel : Z) (loops : Z)
| faded_in (channel : Z) (loops : Z) (ms : Z)
| registered (channel : Z)
| halted (channel : Z)
| positioned (channel : Z) (degrees : Z).

Record test_env := mk_test_env {
  log : list mixer_call;
  playing : list Z
}.

Definition beep : Mix_Chunk := chunk_of_frames [(100, -7); (300, 9)].

#[global] Instance test_environment : Environment test_env := {|
  Mix_LoadWAV _ p := if decide (p = "pack/beep.wav"%string) then Some beep else None;
  soundpack_file dir p := (dir +:+ "/" +:+ p)%string;
  is_channel_playing e ch := bool_decide (ch ∈ playing e);
  get_option_int _ _ := 100;
  random_entry_ref e b := (e, default (Resolver.mk_sound_effect 0 0) (head b));
  Mix_PlayChannel e ch _ loops :=
    (mk_test_env (played ch loops :: log e) (ch :: playing e), ch);
  Mix_FadeInChannel e ch _ loops ms :=
    (mk_test_env (faded_in ch loops ms :: log e) (ch :: playing e), ch);
  Mix_RegisterEffect e ch _ := (mk_test_env (registered ch :: log e) (playing e), 1);
  Mix_HaltChannel e ch :=
    (mk_test_env (halted ch :: log e) (list_difference (playing e) [ch]), 0);
  Mix_SetPosition e ch degrees _ :=
    (mk_test_env (positioned ch degrees :: log e) (playing e), 1)
|}.

(** A loaded pack: two resources, neither decoded yet, the second with a
    file the decoder does not know; one ambient effect for each. *)
Definition test_world (playing : list Z) : world test_env :=
  mk_world (mk_test_env [] playing) false true true "pack"
    (mk_sfx_resources
       [ mk_resource "beep.wav" None; mk_resource "missing.wav" None ]
       (Resolver.mk_sfx_map
          (Resolver.emplace_sfx
             (Resolver.emplace_sfx ∅ "wind" "default" Resolver.NONE Resolver.EITHER
                Resolver.ANY (fun b => b ++ [Resolver.mk_sound_effect 80 0]))
             "rain" "default" Resolver.NONE Resolver.EITHER Resolver.ANY
             (fun b => b ++ [Resolver.mk_sound_effect 80 1]))))
    [].

End Playback.

(** ** The order on keys *)

Module Ordering.
Import Resolver.

(** [int x = o.value_or( -1 )] for a [std::optional<bool>].  [value_or]
    returns a [bool]: the default -1 is converted to [true] before the
    result becomes an [int], so an empty optional gives 1. *)
Definition value_or_minus_one (o : option bool) : Z :=
  let b := match o with
           | Some b => b
           | None => true
           end in
  if b then 1 else 0.

(** [std::string::operator<]: lexicographic on the bytes. *)
Definition string_lt (a b : string) : bool :=
  match String.compare a b with
  | Lt => true
  | _ => false
  end.

(** One step of [operator<] on tuples: the heads decide, and when neither
    is below the other the tails do. *)
Definition tuple_lt {A : Type} (lt : A -> A -> bool) (a b : A) (tails : bool) : bool :=
  lt a b || (negb (lt b a) && tails).

(** [sfx_args::operator<] *)
Definition sfx_args_lt (lhs rhs : sfx_args) : bool :=
  let r_ind := value_or_minus_one (indoors rhs) in
  let r_nit := value_or_minus_one (night rhs) in
  let l_ind := value_or_minus_one (indoors lhs) in
  let l_nit := value_or_minus_one (night lhs) in
  tuple_lt string_lt (id lhs) (id rhs)
    (tuple_lt string_lt (variant lhs) (variant rhs)
       (tuple_lt string_lt (season lhs) (season rhs)
          (tuple_lt Z.ltb l_ind r_ind (l_nit <? r_nit)))).

(** Neither key is below the other: what an ordered container takes for
    the same key. *)
Definition equivalent (a b : sfx_args) : bool :=
  negb (sfx_args_lt a b) && negb (sfx_args_lt b a).

(** *** Definitions used to state the properties *)

(** A strict total order given by a boolean test. *)
Definition strict_total {A : Type} (lt : A -> A -> bool) : Prop :=
  (forall a, lt a a = false) /\
  (forall a b c, lt a b = true -> lt b c = true -> lt a c = true) /\
  (forall a b, lt a b = false -> lt b a = false -> a = b).

(** The tuple that [std::tie] builds of a key. *)
Definition tied (k : sfx_args) : string * (string * (string * (Z * Z))) :=
  (id k, (variant k, (season k,
     (value_or_minus_one (indoors k), value_or_minus_one (night k))))).

Definition tied_lt (p q : string * (string * (string * (Z * Z)))) : bool :=
  tuple_lt string_lt p.1 q.1
    (tuple_lt string_lt p.2.1 q.2.1
       (tuple_lt string_lt p.2.2.1 q.2.2.1
          (tuple_lt Z.ltb p.2.2.2.1 q.2.2.2.1 (p.2.2.2.2 <? q.2.2.2.2)))).

End Ordering.

(** ** Loading a soundpack, the one-shot requests and the music *)

Module Soundpack.
Import F32 Audio Playback.

(** What the rest of the file consumes from outside, next to
    [Environment]: the string and boolean options, the paths, the music
    half of SDL_mixer, the music id of the game, [std::shuffle] with the
    function's static engine, [rng_float] and [sfx::channel::any]. *)
Class Host (E : Type) := {
  (** [get_option<std::string>] *)
  get_option_string : E -> string -> string;
  (** [get_option<bool>] *)
  get_option_bool : E -> string -> bool;
  (** [PATH_INFO::defaultsounddir()] *)
  defaultsounddir : E -> string;
  (** [( current_soundpack_path / filename ).get_unrelative_path().u8string()] *)
  music_file : string -> string -> string;
  (** [Mix_LoadMUS]: the handle of the music, or none (a null pointer). *)
  Mix_LoadMUS : E -> string -> option Z;
  Mix_VolumeMusic : E -> Z -> E;
  (** [Mix_PlayMusic( music, loops )] *)
  Mix_PlayMusic : E -> Z -> Z -> E * Z;
  (** [Mix_HookMusicFinished( musicFinished )] *)
  Mix_HookMusicFinished : E -> E;
  Mix_HaltMusic : E -> E;
  Mix_FreeMusic : E -> option Z -> E;
  Mix_CloseAudio : E -> E;
  (** [music::get_music_id_string()] *)
  get_music_id_string : E -> string;
  (** [music::deactivate_music_id_all()] *)
  deactivate_music_id_all : E -> E;
  (** [music::update_music_id_is_empty_flag( id, flag )] *)
  update_music_id_is_empty_flag : E -> string -> bool -> E;
  (** [std::shuffle( first, last, eng )]: the result is a permutation of
      the range. *)
  std_shuffle : E -> list nat -> E * list nat;
  std_shuffle_permutation : forall e l, (std_shuffle e l).2 ≡ₚ l;
  (** [static_cast<float>( rng_float( lo, hi ) )] *)
  rng_float : E -> pitch_arg -> pitch_arg -> E * f32;
  (** [static_cast<int>( sfx::channel::any )] *)
  channel_any : Z
}.

(** [struct music_playlist::entry] *)
Record entry := mk_entry {
  file : string;
  volume : Z
}.

(** [struct music_playlist] *)
Record music_playlist := mk_music_playlist {
  entries : list entry;
  shuffle : bool
}.

(** The globals the loaders keep between them.  [SOUNDPACKS] is the map
    from soundpack names to their directories. *)
Record loader_globals := mk_loader {
  unique_paths : gmap string Z;
  sfx_preload : list Resolver.sfx_args;
  SOUNDPACKS : gmap string string
}.

(** The globals of the music.  The three [size_t] values are indices into
    vectors and are kept as natural numbers. *)
Record music_globals := mk_music {
  current_music : option Z;
  current_music_track_volume : Z;
  current_playlist : string;
  current_playlist_at : nat;
  absolute_playlist_at : nat;
  playlist_indexes : list nat;
  playlists : gmap string music_playlist
}.

(** All the globals of the file. *)
Record globals (E : Type) := mk_globals {
  sfx : world E;
  loader : loader_globals;
  music : music_globals
}.
Arguments mk_globals {E}.
Arguments sfx {E}.
Arguments loader {E}.
Arguments music {E}.

(** What the accessors of [JsonObject] give for the members that
    [sfx::load_sound_effects] reads.  A member with a default in the code
    is optional here; the "variant" member is an array of strings, a
    string, or neither. *)
Inductive variant_member :=
| variant_array (l : list string)
| variant_string (s : string)
| variant_absent.

Record sound_effect_object := mk_sound_effect_object {
  js_id : string;
  js_season : option string;
  js_is_indoors : option bool;
  js_is_night : option bool;
  js_volume : option Z;
  js_variant : variant_member;
  js_files : list string
}.

(** One object of the "preload" array. *)
Record preload_object := mk_preload_object {
  pre_id : string;
  pre_season : option string;
  pre_is_indoors : option bool;
  pre_is_night : option bool;
  pre_variant : variant_member
}.

(** One object of the "playlists" array. *)
Record playlist_object := mk_playlist_object {
  pl_id : string;
  pl_shuffle : option bool;
  pl_files : list entry
}.

(** How a music function ends: it returns, or [std::vector::at] throws
    [std::out_of_range], or [entries[...]] is read past its end. *)
Inductive music_result (A : Type) : Type :=
| finished (a : A)
| out_of_range
| past_the_end.
Arguments finished {A} a.
Arguments out_of_range {A}.
Arguments past_the_end {A}.

Section Functions.
Context {E : Type} `{Environment E} `{Host E}.

Definition with_sfx (g : globals E) (w : world E) : globals E :=
  mk_globals w (loader g) (music g).
Definition with_loader (g : globals E) (l : loader_globals) : globals E :=
  mk_globals (sfx g) l (music g).
Definition with_music (g : globals E) (m : music_globals) : globals E :=
  mk_globals (sfx g) (loader g) m.
Definition with_env (g : globals E) (e : E) : globals E :=
  with_sfx g (set_env (sfx g) e).

Definition set_sound_effects (w : world E) (m : Resolver.sfx_map) : world E :=
  mk_world (env w) (test_mode w) (sound_init_success w) (sound_enabled w)
           (current_soundpack_path w)
           (mk_sfx_resources (resource (sfx_resources w)) m) (handlers w).

Definition set_current_soundpack_path (w : world E) (p : string) : world E :=
  mk_world (env w) (test_mode w) (sound_init_success w) (sound_enabled w)
           p (sfx_resources w) (handlers w).

Definition set_sound_enabled (w : world E) (b : bool) : world E :=
  mk_world (env w) (test_mode w) (sound_init_success w) b
           (current_soundpack_path w) (sfx_resources w) (handlers w).

(** [sfx_resources.resource] and [sfx_resources.sound_effects] *)
Definition resources (g : globals E) : list sound_effect_resource :=
  resource (sfx_resources (sfx g)).
Definition effects_map (g : globals E) : Resolver.sfx_map :=
  sound_effects (sfx_resources (sfx g)).

(** *** Interning paths and loading effects *)

(** [add_sfx_path].  The size of the table is taken as an [int]. *)
Definition add_sfx_path (g : globals E) (path : string) : globals E * Z :=
  match unique_paths (loader g) !! path with
  | Some second => (g, second)
  | None =>
      let result := Z.of_nat (length (resources g)) in
      let new_resource := mk_resource path None in
      let g1 := with_sfx g (set_resource (sfx g) (resources g ++ [new_resource])) in
      (with_loader g1
         (mk_loader (<[path := result]> (unique_paths (loader g1)))
                    (sfx_preload (loader g1)) (SOUNDPACKS (loader g1))),
       result)
  end.

(** [sound_effect::sound_effect( volume, path )] *)
Definition new_sound_effect (g : globals E) (volume : Z) (path : string) :
    globals E * Resolver.sound_effect :=
  let '(g', resource_id) := add_sfx_path g path in
  (g', Resolver.mk_sound_effect volume resource_id).

(** The loop over "files": the effects that [emplace_back] constructs,
    in order. *)
Fixpoint emplace_back_files (g : globals E) (volume : Z) (files : list string) :
    globals E * list Resolver.sound_effect :=
  match files with
  | [] => (g, [])
  | file :: files' =>
      let '(g1, e) := new_sound_effect g volume file in
      let '(g2, es) := emplace_back_files g1 volume files' in
      (g2, e :: es)
  end.

(** The variants an object names. *)
Definition variants_of (v : variant_member) : list string :=
  match v with
  | variant_array l => l
  | variant_string s => [s]
  | variant_absent => ["default"%string]
  end.

(** The body of the loop over the variants: [sound_effects[key]], and
    the effects that go in through the reference it returned.  The
    subscript is evaluated before the first file is interned, and
    [add_sfx_path] does not touch the map; an exception of the subscript
    ends the call. *)
Definition load_variant (g : globals E) (key : Resolver.sfx_args) (volume : Z)
    (files : list string) : res (globals E) :=
  let '(g1, es) := emplace_back_files g volume files in
  m ← Resolver.subscript_sfx_map (effects_map g1) key (fun effects => effects ++ es);
  mret (with_sfx g1 (set_sound_effects (sfx g1) m)).

(** [key.variant = variant] *)
Definition with_variant (key : Resolver.sfx_args) (variant : string) : Resolver.sfx_args :=
  Resolver.mk_sfx_args (Resolver.id key) variant (Resolver.season key)
    (Resolver.indoors key) (Resolver.night key).

Fixpoint load_variants (g : globals E) (key : Resolver.sfx_args) (volume : Z)
    (files : list string) (variants : list string) : res (globals E) :=
  match variants with
  | [] => ok g
  | variant :: variants' =>
      let key := with_variant key variant in
      g' ← load_variant g key volume files;
      load_variants g' key volume files variants'
  end.

(** [sfx::load_sound_effects] *)
Definition load_sound_effects (g : globals E) (jsobj : sound_effect_object) :
    res (globals E) :=
  if negb (sound_init_success (sfx g)) then ok g
  else
    let key := Resolver.mk_sfx_args (js_id jsobj) EmptyString
                 (default EmptyString (js_season jsobj))
                 (js_is_indoors jsobj) (js_is_night jsobj) in
    let volume := default 100 (js_volume jsobj) in
    let variants := variants_of (js_variant jsobj) in
    load_variants g key volume (js_files jsobj) variants.

(** [sfx::load_sound_effect_preload]; [preload] is the "preload" array. *)
Definition preload_keys (aobj : preload_object) : list Resolver.sfx_args :=
  (fun variant =>
     Resolver.mk_sfx_args (pre_id aobj) variant (default EmptyString (pre_season aobj))
       (pre_is_indoors aobj) (pre_is_night aobj))
  <$> variants_of (pre_variant aobj).

Definition load_sound_effect_preload (g : globals E) (preload : list preload_object) :
    globals E :=
  if negb (sound_init_success (sfx g)) then g
  else
    foldl (fun g aobj =>
             with_loader g
               (mk_loader (unique_paths (loader g))
                          (sfx_preload (loader g) ++ preload_keys aobj)
                          (SOUNDPACKS (loader g))))
          g preload.

(** [sfx::load_playlist]; [objs] is the "playlists" array. *)
Definition load_playlist (g : globals E) (objs : list playlist_object) : globals E :=
  if negb (sound_init_success (sfx g)) then g
  else
    foldl (fun g playlist =>
             let playlist_id := pl_id playlist in
             let playlist_to_load :=
               mk_music_playlist (pl_files playlist) (default false (pl_shuffle playlist)) in
             let m := music g in
             let g1 :=
               with_music g
                 (mk_music (current_music m) (current_music_track_volume m)
                    (current_playlist m) (current_playlist_at m)
                    (absolute_playlist_at m) (playlist_indexes m)
                    (<[playlist_id := playlist_to_load]> (playlists m))) in
             with_env g1 (update_music_id_is_empty_flag (env (sfx g1)) playlist_id true))
          g objs.

(** The loop "Preload sound effects" of [load_soundset]: the inner loop
    over the effects of a bucket, and the loop over the keys. *)
Fixpoint preload_bucket (w : world E) (b : list Resolver.sound_effect) :
    result (world E) :=
  match b with
  | [] => returned w
  | sfx :: b' =>
      '(w', _) ← get_sfx_resource w (Resolver.resource_id sfx);
      preload_bucket w' b'
  end.

Fixpoint preload_all (w : world E) (keys : list Resolver.sfx_args) : result (world E) :=
  match keys with
  | [] => returned w
  | preload :: keys' =>
      find_result ← of_res (Resolver.find_exact (sound_effects (sfx_resources w)) preload);
      w' ← match find_result with
           | Some b => preload_bucket w b
           | None => returned w
           end;
      preload_all w' keys'
  end.

(** [load_soundset].  [load_data_from_path] is what
    [DynamicDataLoader::get_instance().load_data_from_path] leaves of the
    globals, whether it returned or its exception was caught. *)
Definition load_soundset (load_data_from_path : globals E -> string -> globals E)
    (g : globals E) : result (globals E) :=
  let default_path := defaultsounddir (env (sfx g)) in
  let default_soundpack := "basic"%string in
  let current_soundpack := get_option_string (env (sfx g)) "SOUNDPACKS" in
  let '(g, soundpack_path) :=
    if decide (current_soundpack = EmptyString) then (g, default_path)
    else
      (with_loader g
         (mk_loader (unique_paths (loader g)) (sfx_preload (loader g))
            (<[current_soundpack := default EmptyString
                                      (SOUNDPACKS (loader g) !! current_soundpack)]>
               (SOUNDPACKS (loader g)))),
       default EmptyString (SOUNDPACKS (loader g) !! current_soundpack)) in
  let soundpack_path :=
    if decide (soundpack_path = EmptyString) then default_path else soundpack_path in
  let g := with_sfx g (set_current_soundpack_path (sfx g) soundpack_path) in
  let g := load_data_from_path g soundpack_path in
  w ← preload_all (sfx g) (sfx_preload (loader g));
  returned (mk_globals w (mk_loader ∅ [] (SOUNDPACKS (loader g))) (music g)).

(** [shutdown_sound] *)
Definition shutdown_sound (g : globals E) : globals E :=
  let w := sfx g in
  let w := mk_world (Mix_CloseAudio (env w)) (test_mode w) (sound_init_success w)
             (sound_enabled w) (current_soundpack_path w)
             (mk_sfx_resources [] (Resolver.clear (sound_effects (sfx_resources w))))
             (handlers w) in
  let m := music g in
  mk_globals w (loader g)
    (mk_music (current_music m) (current_music_track_volume m) (current_playlist m)
       (current_playlist_at m) (absolute_playlist_at m) (playlist_indexes m) ∅).

(** *** The one-shot requests *)

(** [sfx::has_variant_sound] *)
Definition has_variant_sound (w : world E) (id variant season : string)
    (is_indoors is_night : option bool) : result (world E * bool) :=
  '(w, eff) ← find_random_effect w id variant season is_indoors is_night;
  returned (w, match eff with Some _ => true | None => false end).

(** [sfx::play_variant_sound( id, variant, season, is_indoors, is_night,
    volume )] *)
Definition play_variant_sound (w : world E) (id variant season : string)
    (is_indoors is_night : option bool) (volume : Z) : result (world E) :=
  if test_mode w then returned w
  else if negb (check_sound w volume) then returned w
  else
    '(w, eff) ← find_random_effect w id variant season is_indoors is_night;
    '(w, eff) ←
      match eff with
      | Some _ => returned (w, eff)
      | None => find_random_effect w id "default" EmptyString None None
      end;
    match eff with
    | None => returned w
    | Some selected_sound_effect =>
        '(w, effect_to_play) ←
          get_sfx_resource w (Resolver.resource_id selected_sound_effect);
        '(w, error) ← make_audio w channel_any
                         (resource_chunk (Resolver.resource_id selected_sound_effect))
                         0 volume false selected_sound_effect None None;
        returned w
    end.

(** [sfx::play_variant_sound( id, variant, season, is_indoors, is_night,
    volume, angle, pitch_min, pitch_max )]; [angle] is
    [static_cast<Sint16>( to_degrees( angle ) )]. *)
Definition play_variant_sound_pitched (w : world E) (id variant season : string)
    (is_indoors is_night : option bool) (volume : Z) (angle : Z)
    (pitch_min pitch_max : pitch_arg) : result (world E) :=
  if test_mode w then returned w
  else if negb (check_sound w volume) then returned w
  else
    '(w, eff) ← find_random_effect w id variant season is_indoors is_night;
    match eff with
    | None => returned w
    | Some selected_sound_effect =>
        '(w, effect_to_play) ←
          get_sfx_resource w (Resolver.resource_id selected_sound_effect);
        let is_pitched := is_positive pitch_min && is_positive pitch_max in
        let destroy_sound := is_pitched in
        '(w, ptr) ←
          (if is_pitched
           then
             let '(e, pitch_mod) := rng_float (env w) pitch_min pitch_max in
             c ← of_outcome (do_pitch_shift effect_to_play pitch_mod);
             returned (set_env w e, shifted_chunk c)
           else returned (w, resource_chunk (Resolver.resource_id selected_sound_effect)));
        '(w, failed) ← make_audio w channel_any ptr 0 volume destroy_sound
                          selected_sound_effect (Some angle) None;
        returned w
    end.

(** *** The music *)

Definition set_current_music (m : music_globals) (mus : option Z) : music_globals :=
  mk_music mus (current_music_track_volume m) (current_playlist m)
    (current_playlist_at m) (absolute_playlist_at m) (playlist_indexes m) (playlists m).

(** [play_music_file] *)
Definition play_music_file (g : globals E) (filename : string) (volume : Z) : globals E :=
  if test_mode (sfx g) then g
  else if negb (check_sound (sfx g) volume) then g
  else
    let path := music_file (current_soundpack_path (sfx g)) filename in
    let g := with_music g (set_current_music (music g) (Mix_LoadMUS (env (sfx g)) path)) in
    match current_music (music g) with
    | None => g
    | Some mus =>
        let e := Mix_VolumeMusic (env (sfx g))
                   ((volume * get_option_int (env (sfx g)) "MUSIC_VOLUME") ÷ 100) in
        let '(e, rc) := Mix_PlayMusic e mus 0 in
        if decide (rc <> 0) then with_env g e
        else with_env g (Mix_HookMusicFinished e)
    end.

(** [stop_music] *)
Definition stop_music (g : globals E) : globals E :=
  if test_mode (sfx g) then g
  else
    let m := music g in
    let e := Mix_HaltMusic (Mix_FreeMusic (env (sfx g)) (current_music m)) in
    with_music (with_env g e)
      (mk_music None (current_music_track_volume m) EmptyString 0 0 [] (playlists m)).

(** [play_music] *)
Definition play_music (g : globals E) (playlist : string) : music_result (globals E) :=
  if decide (playlist = current_playlist (music g)) then finished g
  else
    let g := stop_music g in
    match playlists (music g) !! playlist with
    | None => finished g
    | Some list =>
        if decide (entries list = []) then finished g
        else
          let indexes := playlist_indexes (music g) ++ seq 0 (length (entries list)) in
          let '(e, indexes) :=
            if shuffle list then std_shuffle (env (sfx g)) indexes
            else (env (sfx g), indexes) in
          let g := with_env g e in
          match indexes !! absolute_playlist_at (music g) with
          | None => out_of_range
          | Some at_ =>
              match entries list !! at_ with
              | None => past_the_end
              | Some next =>
                  let m := music g in
                  let g := with_music g
                             (mk_music (current_music m) (volume next) playlist at_
                                (absolute_playlist_at m) indexes (playlists m)) in
                  finished (play_music_file g (file next) (volume next))
              end
          end
    end.

(** [musicFinished] *)
Definition musicFinished (g : globals E) : music_result (globals E) :=
  if test_mode (sfx g) then finished g
  else
    let e := Mix_FreeMusic (Mix_HaltMusic (env (sfx g))) (current_music (music g)) in
    let g := with_music (with_env g e) (set_current_music (music g) None) in
    let new_playlist := get_music_id_string (env (sfx g)) in
    if decide (current_playlist (music g) <> new_playlist) then play_music g new_playlist
    else
      match playlists (music g) !! current_playlist (music g) with
      | None => finished g
      | Some list =>
          if decide (entries list = []) then finished g
          else
            let next_at := S (absolute_playlist_at (music g)) in
            let next_at := if decide (length (entries list) <= next_at)%nat
                           then 0%nat else next_at in
            match playlist_indexes (music g) !! next_at with
            | None => out_of_range
            | Some at_ =>
                match entries list !! at_ with
                | None => past_the_end
                | Some next =>
                    let m := music g in
                    let g := with_music g
                               (mk_music (current_music m) (current_music_track_volume m)
                                  (current_playlist m) at_ next_at
                                  (playlist_indexes m) (playlists m)) in
                    finished (play_music_file g (file next) (volume next))
                end
            end
      end.

(** [update_music_volume] *)
Definition update_music_volume (g : globals E) : music_result (globals E) :=
  if test_mode (sfx g) then finished g
  else
    let e := Mix_VolumeMusic (env (sfx g))
               ((current_music_track_volume (music g)
                 * get_option_int (env (sfx g)) "MUSIC_VOLUME") ÷ 100) in
    let g := with_env g e in
    let sound_enabled_old := sound_enabled (sfx g) in
    let g := with_sfx g (set_sound_enabled (sfx g)
                           (get_option_bool (env (sfx g)) "SOUND_ENABLED")) in
    if negb (sound_enabled (sfx g)) then
      let g := stop_music g in
      finished (with_env g (deactivate_music_id_all (env (sfx g))))
    else if negb sound_enabled_old then play_music g (get_music_id_string (env (sfx g)))
    else finished g.

(** *** Definitions used to state the properties *)

(** Every interned path names a resource of the table that has this
    path. *)
Definition paths_interned (g : globals E) : Prop :=
  forall p i, unique_paths (loader g) !! p = Some i ->
    0 <= i /\ path <$> (resources g !! Z.to_nat i) = Some p.

(** Every stored effect names a resource of the table. *)
Definition effects_resolvable (m : Resolver.sfx_map) (table : list sound_effect_resource) :
    Prop :=
  forall k1 k2 k3 k4 k5 b e,
    Resolver.find_sfx (Resolver.effects m) k1 k2 k3 k4 k5 = Some b -> e ∈ b ->
    0 <= Resolver.resource_id e < Z.of_nat (length table).

(** The path of the file an effect plays. *)
Definition path_of (table : list sound_effect_resource) (e : Resolver.sound_effect) :
    option string :=
  if Resolver.resource_id e <? 0 then None
  else path <$> (table !! Z.to_nat (Resolver.resource_id e)).

(** What [add_sfx_path] and the loops built on it leave alone. *)
Definition same_but_table (g g' : globals E) : Prop :=
  effects_map g' = effects_map g /\
  sound_init_success (sfx g') = sound_init_success (sfx g) /\
  sfx_preload (loader g') = sfx_preload (loader g) /\
  music g' = music g /\
  exists added, resources g' = resources g ++ added.

(** The effects made of a list of files carry the volume and name, in
    order, resources with the paths of the files. *)
Definition made_of (table : list sound_effect_resource) (volume : Z) (files : list string)
    (es : list Resolver.sound_effect) : Prop :=
  (fun e => (Resolver.volume e, path_of table e)) <$> es
  = (fun f => (volume, Some f)) <$> files.

(** The bucket of [key] ends with effects made of the files. *)
Definition ends_with_files (g : globals E) (key : Resolver.sfx_args) (volume : Z)
    (files : list string) : Prop :=
  exists old new,
    Resolver.find_exact (effects_map g) key = ok (Some (old ++ new)) /\
    made_of (resources g) volume files new.

(** The chunk of the resource [i] is there. *)
Definition is_loaded (table : list sound_effect_resource) (i : Z) : Prop :=
  0 <= i /\ exists r c, table !! Z.to_nat i = Some r /\ chunk r = Some c.

(** From [w] to [w'] chunks were loaded and nothing else happened to the
    tables: the effects and the paths are the same, and so is every
    resource whose chunk was there. *)
Definition only_loads (w w' : world E) : Prop :=
  sound_effects (sfx_resources w') = sound_effects (sfx_resources w) /\
  path <$> resource (sfx_resources w') = path <$> resource (sfx_resources w) /\
  forall i, is_loaded (resource (sfx_resources w)) i ->
    resource (sfx_resources w') !! Z.to_nat i = resource (sfx_resources w) !! Z.to_nat i.

(** What of a resource a request cannot change: its path, and of its
    chunk everything but the volume. *)
Definition samples_of (r : sound_effect_resource) : string * option (Z * list Z * Z) :=
  (path r, (fun c => (allocated c, abuf c, alen c)) <$> chunk r).

(** The season strings that [season_from_string] knows. *)
Definition known_seasons : list string :=
  [EmptyString; "spring"; "summer"; "autumn"; "winter"]%string.

(** A playlist is being played: the indexes are a permutation of the
    positions of its entries, and the current entry is the one the
    position in the indexes names. *)
Definition playing (m : music_globals) : Prop :=
  exists list,
    playlists m !! current_playlist m = Some list /\
    playlist_indexes m ≡ₚ seq 0 (length (entries list)) /\
    (absolute_playlist_at m < length (entries list))%nat /\
    playlist_indexes m !! absolute_playlist_at m = Some (current_playlist_at m).

(** No playlist is selected. *)
Definition stopped (m : music_globals) : Prop :=
  current_playlist m = EmptyString /\ playlist_indexes m = [] /\
  absolute_playlist_at m = 0%nat.

End Functions.

(** *** A host to run examples in: every file loads as music, the
    shuffle reverses, the music id is "title". *)
#[global] Program Instance test_host : Host test_env := {|
  get_option_string _ _ := "pack"%string;
  get_option_bool _ _ := true;
  defaultsounddir _ := "data/sound"%string;
  music_file dir p := (dir +:+ "/" +:+ p)%string;
  Mix_LoadMUS _ _ := Some 7;
  Mix_VolumeMusic e _ := e;
  Mix_PlayMusic e _ _ := (e, 0);
  Mix_HookMusicFinished e := e;
  Mix_HaltMusic e := e;
  Mix_FreeMusic e _ := e;
  Mix_CloseAudio e := e;
  get_music_id_string _ := "title"%string;
  deactivate_music_id_all e := e;
  update_music_id_is_empty_flag e _ _ := e;
  std_shuffle e l := (e, reverse l);
  rng_float e lo _ := (e, as_float lo);
  channel_any := -1
|}.
Next Obligation. intros e l. simpl. apply reverse_Permutation. Qed.

(** The globals around [test_world], with nothing loaded by the loaders
    and a playlist of three tracks. *)
Definition title_playlist : music_playlist :=
  mk_music_playlist
    [ mk_entry "a.ogg" 100; mk_entry "b.ogg" 60; mk_entry "c.ogg" 80 ] true.

Definition test_globals : globals test_env :=
  mk_globals (test_world []) (mk_loader ∅ [] ∅)
    (mk_music None 0 EmptyString 0 0 [] {[ "title"%string := title_playlist ]}).

(** A fresh pack: the mixer is open, nothing is loaded. *)
Definition fresh_globals : globals test_env :=
  mk_globals
    (mk_world (mk_test_env [] []) false true true "pack" (mk_sfx_resources [] (Resolver.mk_sfx_map ∅)) [])
    (mk_loader ∅ [] ∅)
    (mk_music None 0 EmptyString 0 0 [] ∅).

(** An object with two variants and two files, one of them named twice. *)
Definition door_object : sound_effect_object :=
  mk_sound_effect_object "door" (Some "winter"%string) (Some true) None (Some 70)
    (variant_array ["open"%string; "close"%string])
    ["creak.wav"%string; "slam.wav"%string; "creak.wav"%string].

(** What [sfx::load_sound_effects] makes of [fresh_globals] and
    [door_object]. *)
Definition door_loaded : globals test_env :=
  match load_sound_effects fresh_globals door_object with
  | ok g => g
  | throw _ => fresh_globals
  end.

(** The globals once the playlist has been started, and the entry that
    is current after a number of tracks have finished. *)
Definition title_playing : globals test_env :=
  match play_music test_globals "title" with
  | finished g => g
  | _ => test_globals
  end.

Fixpoint after_tracks (n : nat) (g : globals test_env) : option nat :=
  match n with
  | O => Some (current_playlist_at (music g))
  | S n' =>
      match musicFinished g with
      | finished g' => after_tracks n' g'
      | _ => None
      end
  end.

(** [test_world] with a "gale" variant of the wind that is recorded for
    spring only. *)
Definition gale_world : world test_env :=
  set_sound_effects (test_world [])
    (Resolver.mk_sfx_map
       (Resolver.emplace_sfx
          (Resolver.effects (sound_effects (sfx_resources (test_world []))))
          "wind" "gale" Resolver.SPRING Resolver.EITHER Resolver.ANY
          (fun b => b ++ [Resolver.mk_sound_effect 80 1]))).

End Soundpack.

(** * Properties of the float model *)

Section F32Facts.
Import F32.
Lemma pow2_pos e : 0 <= e -> 0 < 2 ^ e.
Proof. intros. by apply Z.pow_pos_nonneg. Qed.

Lemma grid_exp_nonneg a : 0 <= grid_exp a.
Proof. unfold grid_exp. lia. Qed.

Lemma grid_exp_mono a b : a <= b -> grid_exp a <= grid_exp b.
Proof. intros Hab. unfold grid_exp. pose proof (Z.log2_le_mono a b Hab). lia. Qed.

Lemma grid_exp_pos_bounds a :
  0 < grid_exp a -> 2 ^ (grid_exp a + 23) <= a < 2 ^ (grid_exp a + 24).
Proof.
  unfold grid_exp. intros Hpos.
  assert (Hlog : 23 < Z.log2 a) by lia.
  assert (0 < a) by (destruct (Z_lt_le_dec 0 a); [done|rewrite Z.log2_nonpos in Hlog; lia]).
  destruct (Z.log2_spec a) as [Hlo Hhi]; [done|].
  replace (Z.max 0 (Z.log2 a - 23) + 23) with (Z.log2 a) by lia.
  replace (Z.max 0 (Z.log2 a - 23) + 24) with (Z.succ (Z.log2 a)) by lia.
  done.
Qed.

Lemma grid_exp_zero_bound a : grid_exp a = 0 -> a < 2 ^ 24.
Proof.
  unfold grid_exp. intros Hz.
  destruct (Z_lt_le_dec 0 a) as [Hpos|]; [|lia].
  destruct (Z.log2_spec a Hpos) as [_ Hhi].
  eapply Z.lt_le_trans; [exact Hhi|].
  apply Z.pow_le_mono_r; lia.
Qed.

Lemma grid_exp_of_bounds a e :
  0 <= e -> 2 ^ (e + 23) <= a -> e <= grid_exp a.
Proof.
  intros He Ha. unfold grid_exp.
  assert (e + 23 <= Z.log2 a); [|lia].
  apply Z.log2_le_pow2; [|done].
  pose proof (pow2_pos (e + 23)). lia.
Qed.

(** Multiples of a power of two. *)
Lemma mod_pow2_multiple x k j :
  0 <= k <= j -> x mod 2 ^ j = 0 -> x mod 2 ^ k = 0.
Proof.
  intros Hkj Hx.
  apply Z.mod_divide in Hx; [|pose proof (pow2_pos j); lia].
  apply Z.mod_divide; [pose proof (pow2_pos k); lia|].
  etransitivity; [|exact Hx].
  exists (2 ^ (j - k)). rewrite <- Z.pow_add_r by lia. f_equal. lia.
Qed.

Lemma multiple_le_floor x a k :
  0 <= k -> x mod 2 ^ k = 0 -> x <= a -> x <= a / 2 ^ k * 2 ^ k.
Proof.
  intros Hk Hx Hxa. pose proof (pow2_pos k Hk) as Hp.
  apply Z.div_exact in Hx; [|lia].
  rewrite Hx, Z.mul_comm.
  apply Z.mul_le_mono_nonneg_r; [lia|].
  apply Z.div_le_mono; lia.
Qed.

Lemma multiple_gt_next x q k :
  0 <= k -> x mod 2 ^ k = 0 -> q * 2 ^ k < x -> (q + 1) * 2 ^ k <= x.
Proof.
  intros Hk Hx Hq. pose proof (pow2_pos k Hk) as Hp.
  apply Z.div_exact in Hx; [|lia].
  assert (q < x / 2 ^ k) by nia. nia.
Qed.

Lemma representable_nonneg a : 0 <= a -> representable a -> a mod 2 ^ grid_exp a = 0.
Proof. unfold representable. intros Ha. by rewrite Z.abs_eq. Qed.

Lemma round_mag_cases n d :
  0 < d -> 0 <= n ->
  let e := grid_exp (n / d) in
  let q := n / d / 2 ^ e in
  (round_mag n d = q * 2 ^ e /\ 2 * (n mod (d * 2 ^ e)) <= d * 2 ^ e) \/
  (round_mag n d = (q + 1) * 2 ^ e /\ d * 2 ^ e <= 2 * (n mod (d * 2 ^ e))).
Proof.
  intros Hd Hn e q. unfold round_mag. fold e.
  pose proof (pow2_pos e (grid_exp_nonneg _)) as Hp.
  assert (Hq : n / (d * 2 ^ e) = q) by (unfold q; rewrite Z.div_div; lia).
  rewrite Hq.
  destruct (Z.ltb_spec (2 * (n mod (d * 2 ^ e))) (d * 2 ^ e)); [left; split; lia|].
  destruct (Z.ltb_spec (d * 2 ^ e) (2 * (n mod (d * 2 ^ e)))); [right; split; lia|].
  destruct (Z.even q); [left|right]; split; lia.
Qed.

Lemma round_mag_between n d L H :
  0 < d -> 0 <= L ->
  representable L -> representable H ->
  L * d <= n <= H * d ->
  L <= round_mag n d <= H.
Proof.
  intros Hd HL0 HLr HHr [HLn HnH].
  assert (Hn : 0 <= n) by nia.
  set (a := n / d). set (e := grid_exp a).
  pose proof (grid_exp_nonneg a) as He. fold e in He.
  pose proof (pow2_pos e He) as Hp.
  assert (HLa : L <= a) by (apply Z.div_le_lower_bound; lia).
  assert (Had : a * d <= n) by (unfold a; rewrite Z.mul_comm; apply Z.mul_div_le; lia).
  assert (HaH : a <= H) by nia.
  assert (Ha0 : 0 <= a) by lia.
  assert (Hfloor : a / 2 ^ e * 2 ^ e <= a).
  { rewrite Z.mul_comm. apply Z.mul_div_le. lia. }
  assert (Hlow : L <= a / 2 ^ e * 2 ^ e).
  { destruct (decide (grid_exp L = e)) as [HeL|HeL].
    - apply multiple_le_floor; [lia| |lia].
      rewrite <- HeL. by apply representable_nonneg.
    - pose proof (grid_exp_mono L a HLa) as Hmono. fold e in Hmono.
      assert (0 < e) by (pose proof (grid_exp_nonneg L); lia).
      destruct (grid_exp_pos_bounds a) as [Hlo _]; [fold e; lia|]. fold e in Hlo.
      assert (L < 2 ^ (e + 23)).
      { destruct (Z_lt_le_dec L (2 ^ (e + 23))) as [|Hge]; [done|].
        pose proof (grid_exp_of_bounds L e He Hge). lia. }
      assert (2 ^ (e + 23) <= a / 2 ^ e * 2 ^ e); [|lia].
      apply multiple_le_floor; [lia| |lia].
      rewrite Z.pow_add_r, Z.mul_comm by lia. apply Z.mod_mul. lia. }
  pose proof (round_mag_cases n d Hd Hn) as Hcases. cbv zeta in Hcases.
  fold a in Hcases. fold e in Hcases.
  destruct Hcases as [[-> Hr]|[-> Hr]].
  - split; [lia|]. lia.
  - split; [nia|].
    apply multiple_gt_next; [lia| |].
    + apply mod_pow2_multiple with (j := grid_exp H).
      * pose proof (grid_exp_mono a H HaH) as Hm. fold e in Hm. lia.
      * apply representable_nonneg; [lia|done].
    + (* the quotient is below n / d, which is below H, strictly *)
      assert (HD : 0 < d * 2 ^ e) by (apply Z.mul_pos_pos; lia).
      assert (Hrpos : 0 < n mod (d * 2 ^ e)) by lia.
      assert (Hdiv : n = d * 2 ^ e * (n / (d * 2 ^ e)) + n mod (d * 2 ^ e)).
      { apply Z.div_mod. lia. }
      rewrite <- Z.div_div in Hdiv by lia. fold a in Hdiv.
      nia.
Qed.

Lemma representable_0 : representable 0.
Proof. reflexivity. Qed.

Lemma representable_opp a : representable a -> representable (- a).
Proof.
  unfold representable. rewrite Z.abs_opp. intros Ha.
  apply Z.mod_divide in Ha; [|pose proof (pow2_pos _ (grid_exp_nonneg (Z.abs a))); lia].
  apply Z.mod_divide; [pose proof (pow2_pos _ (grid_exp_nonneg (Z.abs a))); lia|].
  by apply Z.divide_opp_r.
Qed.

(** A value with at most 24 significant bits is on the grid. *)
Lemma representable_small k j :
  Z.abs k <= 2 ^ 24 -> 0 <= j -> representable (k * 2 ^ j).
Proof.
  intros Hk Hj. unfold representable.
  pose proof (pow2_pos j Hj) as Hp.
  destruct (decide (k = 0)) as [->|Hk0]; [done|].
  rewrite Z.abs_mul, (Z.abs_eq (2 ^ j)) by lia.
  assert (Hle : grid_exp (Z.abs k * 2 ^ j) <= j \/ Z.abs k = 2 ^ 24).
  { destruct (decide (Z.abs k = 2 ^ 24)) as [|Hne]; [by right|left].
    unfold grid_exp. rewrite Z.log2_mul_pow2 by lia.
    assert (Z.log2 (Z.abs k) < 24); [|lia].
    apply Z.log2_lt_pow2; lia. }
  destruct Hle as [Hle|Hk24].
  - apply mod_pow2_multiple with (j := j); [pose proof (grid_exp_nonneg (Z.abs k * 2 ^ j)); lia|].
    apply Z.mod_mul. lia.
  - rewrite Hk24, <- Z.pow_add_r by lia.
    assert (Hg : grid_exp (2 ^ (24 + j)) = 1 + j).
    { unfold grid_exp. rewrite Z.log2_pow2 by lia. lia. }
    rewrite Hg.
    assert (Hdiv : (2 ^ (1 + j) | k * 2 ^ j)).
    { exists (k / 2). rewrite Z.pow_add_r by lia.
      assert (k = 2 * (k / 2)); [|nia].
      assert (k = 2 ^ 24 \/ k = - 2 ^ 24) as [->| ->] by lia; reflexivity. }
    apply Z.mod_divide; [pose proof (pow2_pos (1 + j)); lia|done].
Qed.

Lemma round_mag_representable n d :
  0 < d -> 0 <= n -> representable (round_mag n d).
Proof.
  intros Hd Hn.
  set (a := n / d). set (e := grid_exp a).
  pose proof (grid_exp_nonneg a) as He. fold e in He.
  pose proof (pow2_pos e He) as Hp.
  assert (Ha0 : 0 <= a) by (apply Z.div_pos; lia).
  assert (Hq : 0 <= a / 2 ^ e < 2 ^ 24).
  { split; [apply Z.div_pos; lia|].
    apply Z.div_lt_upper_bound; [lia|].
    destruct (decide (e = 0)) as [He0|He0].
    - rewrite He0. pose proof (grid_exp_zero_bound a He0). lia.
    - destruct (grid_exp_pos_bounds a) as [_ Hhi]; [fold e; lia|]. fold e in Hhi.
      rewrite Z.pow_add_r in Hhi by lia. lia. }
  pose proof (round_mag_cases n d Hd Hn) as Hcases. cbv zeta in Hcases.
  fold a in Hcases. fold e in Hcases.
  destruct Hcases as [[-> _]|[-> _]]; apply representable_small; lia.
Qed.

Lemma round_mag_0 d : 0 < d -> round_mag 0 d = 0.
Proof.
  intros Hd.
  pose proof (round_mag_between 0 d 0 0 Hd ltac:(lia) representable_0 representable_0).
  lia.
Qed.

(** The rounded value stays between representable bounds of the exact
    one, and is itself representable. *)
Lemma round_between n d L H :
  0 < d -> representable L -> representable H ->
  L * d <= n <= H * d ->
  - overflow_threshold < L -> H < overflow_threshold ->
  exists u, round n d = fin u /\ L <= u <= H /\ representable u.
Proof.
  intros Hd HLr HHr [HLn HnH] HLt HHt. unfold round.
  destruct (Z_lt_le_dec n 0) as [Hneg|Hpos].
  - (* negative: mirror *)
    rewrite Z.abs_neq by lia.
    assert (Hb : Z.max 0 (- H) <= round_mag (- n) d <= - L).
    { apply round_mag_between; [lia|lia| | |nia].
      - destruct (Z.max_spec 0 (- H)) as [[_ ->]|[_ ->]];
          [by apply representable_opp|apply representable_0].
      - by apply representable_opp. }
    pose proof (round_mag_representable (- n) d Hd ltac:(lia)) as Hr.
    destruct (Z.leb_spec overflow_threshold (round_mag (- n) d)); [lia|].
    rewrite Z.sgn_neg by lia.
    eexists; split; [done|]. split; [lia|].
    replace (-1 * round_mag (- n) d) with (- round_mag (- n) d) by lia.
    by apply representable_opp.
  - rewrite Z.abs_eq by lia.
    assert (Hb : Z.max 0 L <= round_mag n d <= H).
    { apply round_mag_between; [lia|lia| |done|nia].
      destruct (Z.max_spec 0 L) as [[_ ->]|[_ ->]]; [done|apply representable_0]. }
    pose proof (round_mag_representable n d Hd Hpos) as Hr.
    destruct (Z.leb_spec overflow_threshold (round_mag n d)); [lia|].
    destruct (decide (n = 0)) as [->|Hn0].
    + rewrite round_mag_0 by done. simpl.
      exists 0. split; [done|]. split; [nia|apply representable_0].
    + rewrite Z.sgn_pos by lia.
      eexists; split; [done|]. split; [lia|].
      by replace (1 * round_mag n d) with (round_mag n d) by lia.
Qed.

(** Rounding a representable value changes nothing. *)
Lemma round_exact g d :
  0 < d -> representable g -> Z.abs g < overflow_threshold ->
  round (g * d) d = fin g.
Proof.
  intros Hd Hg Hlt.
  destruct (round_between (g * d) d g g) as (u & -> & Hu & _); try done; try lia.
  f_equal. lia.
Qed.
Lemma unit_pos : 0 < unit.
Proof. reflexivity. Qed.

Lemma representable_pow2_unit j : 0 <= j -> representable (2 ^ j * unit).
Proof.
  intros Hj. unfold unit. rewrite <- Z.pow_add_r by lia.
  rewrite <- (Z.mul_1_l (2 ^ _)). apply representable_small; lia.
Qed.

Lemma of_int_exact z : Z.abs z <= 2 ^ 24 -> of_int z = fin (z * unit).
Proof.
  intros Hz. unfold of_int.
  replace (z * unit * 1) with (z * unit * 1) by lia.
  rewrite <- (Z.mul_1_r (z * unit)) at 1.
  apply round_exact; [lia|by apply representable_small|].
  rewrite Z.abs_mul, (Z.abs_eq unit) by (pose proof unit_pos; lia).
  assert (2 ^ 24 * unit < overflow_threshold) by reflexivity.
  pose proof unit_pos. nia.
Qed.

(** Converting an integer of the size of a sample count. *)
Lemma of_int_bounds z :
  0 <= z <= 2 ^ 31 ->
  exists u, of_int z = fin u /\ representable u /\ 0 <= u <= 2 ^ 31 * unit /\
    (forall x, representable x -> x <= z * unit -> x <= u) /\
    (forall x, representable x -> z * unit <= x -> u <= x).
Proof.
  intros Hz. unfold of_int. pose proof unit_pos as Hu.
  assert (Hth : 2 ^ 31 * unit < overflow_threshold) by reflexivity.
  destruct (round_between (z * unit) 1 0 (2 ^ 31 * unit)) as (u & Hr & Hb & Hrep);
    [lia|apply representable_0|by apply representable_pow2_unit|nia|
     unfold overflow_threshold; lia|done|].
  exists u. split; [done|]. split; [done|]. split; [done|]. split.
  - intros x Hx Hle.
    destruct (Z_lt_le_dec x 0) as [|Hx0]; [lia|].
    destruct (round_between (z * unit) 1 x (2 ^ 31 * unit)) as (u' & Hr' & Hb' & _);
      [lia|done|by apply representable_pow2_unit|nia|unfold overflow_threshold; lia|done|].
    rewrite Hr in Hr'. injection Hr' as <-. lia.
  - intros x Hx Hle.
    destruct (Z_lt_le_dec x overflow_threshold) as [Hlt|]; [|lia].
    destruct (round_between (z * unit) 1 0 x) as (u' & Hr' & Hb' & _);
      [lia|apply representable_0|done|nia|unfold overflow_threshold; lia|done|].
    rewrite Hr in Hr'. injection Hr' as <-. lia.
Qed.

(** The integer part of a representable value is representable. *)
Lemma floor_representable i :
  0 <= i -> representable i -> representable (i / unit * unit).
Proof.
  intros Hi Hrep. pose proof unit_pos as Hu.
  destruct (Z_lt_le_dec i (2 ^ 24 * unit)) as [Hsmall|Hbig].
  - apply representable_small; [|done].
    assert (0 <= i / unit < 2 ^ 24); [|lia].
    split; [apply Z.div_pos; lia|apply Z.div_lt_upper_bound; lia].
  - assert (Hg : 149 <= grid_exp i).
    { apply grid_exp_of_bounds; [lia|]. etransitivity; [|exact Hbig]. done. }
    assert (i mod unit = 0).
    { apply mod_pow2_multiple with (j := grid_exp i); [lia|].
      by apply representable_nonneg. }
    assert (i / unit * unit = i) as ->; [|done].
    rewrite Z.mul_comm. symmetry. apply Z.div_exact; lia.
Qed.

Lemma ceil_representable i :
  0 <= i -> representable i -> representable (- (- i / unit) * unit).
Proof.
  intros Hi Hrep. pose proof unit_pos as Hu.
  destruct (Z_lt_le_dec i (2 ^ 24 * unit)) as [Hsmall|Hbig].
  - apply representable_small; [|done].
    assert (- 2 ^ 24 <= - i / unit <= 0); [|lia].
    split; [apply Z.div_le_lower_bound; lia|].
    assert (- i / unit < 1); [|lia]. apply Z.div_lt_upper_bound; lia.
  - assert (Hg : 149 <= grid_exp i).
    { apply grid_exp_of_bounds; [lia|]. etransitivity; [|exact Hbig]. done. }
    assert (Hm : i mod unit = 0).
    { apply mod_pow2_multiple with (j := grid_exp i); [lia|].
      by apply representable_nonneg. }
    apply Z.div_exact in Hm; [|lia].
    assert (- i / unit = - (i / unit)) as ->.
    { rewrite Hm at 1. replace (- (unit * (i / unit))) with ((- (i / unit)) * unit) by lia.
      apply Z.div_mul. lia. }
    replace (- - (i / unit) * unit) with i by lia. done.
Qed.

(** The remainder of representable values is representable. *)
Lemma rem_representable x y :
  0 <= x -> 0 < y -> representable x -> representable y -> representable (x mod y).
Proof.
  intros Hx Hy Hrx Hry. unfold representable.
  pose proof (Z.mod_pos_bound x y Hy) as [Hr0 Hry'].
  rewrite Z.abs_eq by lia.
  set (r := x mod y). fold r in Hr0, Hry'.
  assert (Hrx' : r <= x) by (apply Z.mod_le; lia).
  pose proof (grid_exp_nonneg r) as Hg.
  pose proof (grid_exp_mono r x Hrx') as Hgx.
  pose proof (grid_exp_mono r y ltac:(lia)) as Hgy.
  apply representable_nonneg in Hrx; [|lia].
  apply representable_nonneg in Hry; [|lia].
  apply (mod_pow2_multiple _ (grid_exp r)) in Hrx; [|lia].
  apply (mod_pow2_multiple _ (grid_exp r)) in Hry; [|lia].
  pose proof (pow2_pos _ Hg) as Hp.
  apply Z.mod_divide in Hrx; [|lia]. apply Z.mod_divide in Hry; [|lia].
  apply Z.mod_divide; [lia|].
  set (p := 2 ^ grid_exp r) in *.
  unfold r. rewrite Z.mod_eq by lia.
  apply Z.divide_sub_r; [done|]. by apply Z.divide_mul_l.
Qed.
(** *** Agreement with [SpecFloat] at binary32

    On every pair of [samples] the integer model and the Standard
    Library's specification of IEEE-754 arithmetic give the same result. *)

Lemma samples_roundtrip :
  forallb (fun x => bool_decide (of_spec (to_spec x) = x)) samples = true.
Proof. vm_compute. reflexivity. Qed.

Lemma fadd_agrees : agree_on fadd (SpecFloat.SFadd 24 128) = true.
Proof. vm_compute. reflexivity. Qed.

Lemma fsub_agrees : agree_on fsub (SpecFloat.SFsub 24 128) = true.
Proof. vm_compute. reflexivity. Qed.

Lemma fmul_agrees : agree_on fmul (SpecFloat.SFmul 24 128) = true.
Proof. vm_compute. reflexivity. Qed.

Lemma fdiv_agrees : agree_on fdiv (SpecFloat.SFdiv 24 128) = true.
Proof. vm_compute. reflexivity. Qed.

Lemma flt_agrees :
  forallb (fun x => forallb (fun y =>
    bool_decide (SpecFloat.SFltb (to_spec x) (to_spec y) = flt x y)) samples) samples = true.
Proof. vm_compute. reflexivity. Qed.


End F32Facts.

(** * Properties of the resolver *)

Section ResolverFacts.
Import Resolver.

Lemma in_or_out_from_bool_or (o : option bool) :
  in_or_out_from_int (bool_or o (-1)) = ok (in_or_out_of o).
Proof. by destruct o as [[]|]. Qed.

Lemma tod_from_bool_or (o : option bool) :
  tod_from_int (bool_or o (-1)) = ok (tod_of o).
Proof. by destruct o as [[]|]. Qed.

Lemma season_from_string_inj (s1 s2 : string) (x : sfx_season) :
  season_from_string s1 = ok x -> season_from_string s2 = ok x -> s1 = s2.
Proof.
  unfold season_from_string.
  repeat case_decide; subst; try done; by destruct x.
Qed.

Lemma in_or_out_of_inj (o1 o2 : option bool) :
  in_or_out_of o1 = in_or_out_of o2 -> o1 = o2.
Proof. by destruct o1 as [[]|], o2 as [[]|]. Qed.

Lemma tod_of_inj (o1 o2 : option bool) : tod_of o1 = tod_of o2 -> o1 = o2.
Proof. by destruct o1 as [[]|], o2 as [[]|]. Qed.

(** [find_exact] and [subscript_sfx_map] in terms of the season alone:
    the two optional booleans always convert. *)
Lemma find_exact_unfold (m : sfx_map) (key : sfx_args) :
  find_exact m key =
  match season_from_string (season key) with
  | ok s => ok (find_sfx (effects m) (id key) (variant key) s
                  (in_or_out_of (indoors key)) (tod_of (night key)))
  | throw e => throw e
  end.
Proof.
  unfold find_exact. destruct (season_from_string _); [|done]. simpl.
  by rewrite in_or_out_from_bool_or, tod_from_bool_or.
Qed.

Lemma subscript_sfx_map_unfold (m : sfx_map) (key : sfx_args) upd :
  subscript_sfx_map m key upd =
  match season_from_string (season key) with
  | ok s => ok (mk_sfx_map (emplace_sfx (effects m) (id key) (variant key) s
                  (in_or_out_of (indoors key)) (tod_of (night key)) upd))
  | throw e => throw e
  end.
Proof.
  unfold subscript_sfx_map. destruct (season_from_string _); [|done]. simpl.
  by rewrite in_or_out_from_bool_or, tod_from_bool_or.
Qed.

Lemma find_unfold (m : sfx_map) i v se ind ni :
  find m i v se ind ni =
  match season_from_string se with
  | ok s => ok (find_closest_sfx (effects m) i EmptyString v "default"%string
                  s NONE (in_or_out_of ind) EITHER (tod_of ni) ANY)
  | throw e => throw e
  end.
Proof.
  unfold find. destruct (season_from_string _); [|done]. simpl.
  by rewrite in_or_out_from_bool_or, tod_from_bool_or.
Qed.

(** *** One level *)

Section Level.
Context {K : Type} `{Countable K} {V B : Type}.
Implicit Types (c : gmap K V) (k : K).

Lemma find_sfx_next_empty k (rest : V -> option B) :
  find_sfx_next (∅ : gmap K V) k rest = None.
Proof. unfold find_sfx_next. by rewrite lookup_empty. Qed.

Lemma find_sfx_last_empty k : find_sfx_last (∅ : gmap K V) k = None.
Proof. unfold find_sfx_last. by rewrite lookup_empty. Qed.

(** Looking up the key that was subscripted. *)
Lemma find_sfx_next_subscript_eq (fresh : V) c k (updV : V -> V)
    (rest : V -> option (list B)) (upd : list B -> list B) :
  rest fresh = None ->
  (forall v, rest (updV v) = Some (upd (default [] (rest v)))) ->
  find_sfx_next (subscript fresh c k updV) k rest =
  Some (upd (default [] (find_sfx_next c k rest))).
Proof.
  intros Hfresh Hin. unfold find_sfx_next, subscript.
  rewrite lookup_insert_eq, Hin.
  destruct (c !! k); simpl; by rewrite ?Hfresh.
Qed.

(** Looking up when some key differs, at this level or below. *)
Lemma find_sfx_next_subscript_ne (fresh : V) c k j (updV : V -> V)
    (rest : V -> option B) :
  rest fresh = None ->
  k <> j \/ (forall v, rest (updV v) = rest v) ->
  find_sfx_next (subscript fresh c k updV) j rest = find_sfx_next c j rest.
Proof.
  intros Hfresh Hcase. unfold find_sfx_next, subscript.
  destruct (decide (k = j)) as [<-|Hne]; [|by rewrite lookup_insert_ne].
  destruct Hcase as [?|Hin]; [done|].
  rewrite lookup_insert_eq, Hin.
  destruct (c !! k); simpl; by rewrite ?Hfresh.
Qed.

Lemma find_sfx_last_subscript_ne (fresh : V) c k j upd :
  k <> j -> find_sfx_last (subscript fresh c k upd) j = find_sfx_last c j.
Proof. intros. unfold find_sfx_last, subscript. by rewrite lookup_insert_ne. Qed.

(** The iterator of [find_closest_sfx] is a plain lookup under the key
    the level settles on. *)
Lemma closest_it_level_key c k d : closest_it c k d = c !! level_key c k d.
Proof.
  unfold closest_it, level_key. case_decide as Hs.
  - by destruct Hs as [v ->].
  - apply eq_None_not_Some in Hs. by rewrite Hs.
Qed.

Lemma closest_it_None c k d :
  closest_it c k d = None <-> c !! k = None /\ c !! d = None.
Proof. unfold closest_it. destruct (c !! k); simpl; intuition congruence. Qed.

Lemma level_key_cases c k d :
  level_key c k d = k \/ level_key c k d = d.
Proof. unfold level_key. case_decide; auto. Qed.
End Level.

Lemma find_sfx_last_subscript_eq `{Countable K} {B} (c : gmap K (list B)) k upd :
  find_sfx_last (subscript [] c k upd) k = Some (upd (default [] (find_sfx_last c k))).
Proof.
  unfold find_sfx_last, subscript. rewrite lookup_insert_eq.
  by destruct (c !! k).
Qed.

(** *** Exact lookup after an [emplace_sfx] *)

Lemma find_sfx_emplace_eq c k1 k2 k3 k4 k5 upd :
  find_sfx (emplace_sfx c k1 k2 k3 k4 k5 upd) k1 k2 k3 k4 k5 =
  Some (upd (default [] (find_sfx c k1 k2 k3 k4 k5))).
Proof.
  unfold find_sfx, emplace_sfx.
  repeat (apply find_sfx_next_subscript_eq;
          [apply find_sfx_next_empty || apply find_sfx_last_empty | intros ?]).
  apply find_sfx_last_subscript_eq.
Qed.

Lemma find_sfx_emplace_ne c k1 k2 k3 k4 k5 j1 j2 j3 j4 j5 upd :
  (k1, k2, k3, k4, k5) <> (j1, j2, j3, j4, j5) ->
  find_sfx (emplace_sfx c k1 k2 k3 k4 k5 upd) j1 j2 j3 j4 j5 =
  find_sfx c j1 j2 j3 j4 j5.
Proof.
  intros Hne. unfold find_sfx, emplace_sfx.
  repeat (apply find_sfx_next_subscript_ne;
    [apply find_sfx_next_empty || apply find_sfx_last_empty |];
    match goal with |- ?a <> ?b \/ _ =>
      destruct (decide (a = b)) as [->|]; [right; intros ?|by left] end).
  apply find_sfx_last_subscript_ne. congruence.
Qed.

(** *** Exact lookup after a sequence of insertions *)

(** Two keys that convert have the same converted tuple only if they are
    the same key. *)
Lemma converted_key_inj (k k' : sfx_args) s s' :
  season_from_string (season k) = ok s ->
  season_from_string (season k') = ok s' ->
  (id k, variant k, s, in_or_out_of (indoors k), tod_of (night k)) =
  (id k', variant k', s', in_or_out_of (indoors k'), tod_of (night k')) ->
  k = k'.
Proof.
  destruct k, k'; simpl. intros Hs Hs' [= -> -> -> Hio Ht].
  f_equal; eauto using season_from_string_inj, in_or_out_of_inj, tod_of_inj.
Qed.

Lemma find_exact_insert_same m key e m' :
  insert m key e = ok m' ->
  exists b0, find_exact m key = ok b0 /\
             find_exact m' key = ok (Some (default [] b0 ++ [e])).
Proof.
  unfold insert. rewrite subscript_sfx_map_unfold, !find_exact_unfold.
  destruct (season_from_string (season key)) as [s|]; [|done].
  intros [= <-]. eexists; split; [done|]. simpl.
  by rewrite find_sfx_emplace_eq.
Qed.

Lemma find_exact_insert_other m key e m' key' :
  insert m key e = ok m' -> key <> key' -> find_exact m' key' = find_exact m key'.
Proof.
  unfold insert. rewrite subscript_sfx_map_unfold, !find_exact_unfold.
  destruct (season_from_string (season key)) as [s|] eqn:Hs; [|done].
  intros [= <-] Hne.
  destruct (season_from_string (season key')) as [s'|] eqn:Hs'; [|done].
  simpl. rewrite find_sfx_emplace_ne; [done|].
  intros Heq. apply Hne. by eapply converted_key_inj.
Qed.

Lemma inserted_under_cons_same key e l :
  inserted_under ((key, e) :: l) key = e :: inserted_under l key.
Proof. unfold inserted_under. rewrite filter_cons_True; done. Qed.

Lemma inserted_under_cons_other key key' e l :
  key <> key' -> inserted_under ((key, e) :: l) key' = inserted_under l key'.
Proof. intros. unfold inserted_under. rewrite filter_cons_False; done. Qed.

Lemma elem_of_inserted_under l key e :
  e ∈ inserted_under l key <-> (key, e) ∈ l.
Proof.
  unfold inserted_under. rewrite list_elem_of_fmap. split.
  - intros [[k e'] [-> [Hk Hin]%list_elem_of_filter]]. simpl in *. by subst.
  - intros Hin. exists (key, e). split; [done|]. by apply list_elem_of_filter.
Qed.

(** What an exact lookup returns after the insertions [l], from any
    starting map: the bucket that was there with the effects inserted
    under this key appended, in order. *)
Lemma find_exact_insert_all l : forall m m' key b0,
  insert_all m l = ok m' ->
  find_exact m key = ok b0 ->
  find_exact m' key =
  ok (match b0, inserted_under l key with
      | None, [] => None
      | _, es => Some (default [] b0 ++ es)
      end).
Proof.
  induction l as [|[k e] l IH]; intros m m' key b0 Hall Hfind.
  - simpl in Hall. injection Hall as <-. rewrite Hfind.
    destruct b0; simpl; by rewrite ?app_nil_r.
  - simpl in Hall. destruct (insert m k e) as [m1|] eqn:Hins; [simpl in Hall|done].
    destruct (decide (k = key)) as [->|Hne].
    + destruct (find_exact_insert_same _ _ _ _ Hins) as (b1 & Hb1 & Hm1).
      rewrite Hfind in Hb1. injection Hb1 as <-.
      rewrite (IH _ _ _ _ Hall Hm1), inserted_under_cons_same. simpl.
      rewrite <- app_assoc. simpl. by destruct b0.
    + rewrite (IH _ _ key b0 Hall), inserted_under_cons_other by
        (by rewrite ?(find_exact_insert_other _ _ _ _ _ Hins Hne)).
      done.
Qed.

Lemma insert_all_converts l : forall m m' key e,
  insert_all m l = ok m' -> (key, e) ∈ l ->
  exists s, season_from_string (season key) = ok s.
Proof.
  induction l as [|[k e0] l IH]; intros m m' key e Hall Hin.
  - by apply elem_of_nil in Hin.
  - simpl in Hall. destruct (insert m k e0) as [m1|] eqn:Hins; [simpl in Hall|done].
    apply elem_of_cons in Hin as [[= -> ->]|Hin]; [|by eapply IH].
    unfold insert in Hins. rewrite subscript_sfx_map_unfold in Hins.
    destruct (season_from_string (season k)); [by eexists|done].
Qed.

(** C9.  After any sequence of insertions into an empty map, an exact
    lookup with the full key of an inserted (key, effect) pair returns a
    bucket that contains the effect; and whatever bucket an exact lookup
    returns for a full key holds exactly the effects inserted under that
    very key, in insertion order, so effects of different full keys are
    never mixed. *)
Theorem find_exact_after_insertions (l : list (sfx_args * sound_effect)) (m : sfx_map) :
  insert_all (mk_sfx_map ∅) l = ok m ->
  (forall key e, (key, e) ∈ l ->
     exists b, find_exact m key = ok (Some b) /\ e ∈ b) /\
  (forall key b, find_exact m key = ok (Some b) ->
     b = inserted_under l key /\ forall e, e ∈ b -> (key, e) ∈ l).
Proof.
  intros Hall.
  assert (Hchar : forall key s, season_from_string (season key) = ok s ->
    find_exact m key =
    ok (match inserted_under l key with [] => None | es => Some es end)).
  { intros key s Hs.
    rewrite (find_exact_insert_all l _ _ key None Hall).
    - by destruct (inserted_under l key).
    - rewrite find_exact_unfold, Hs. simpl.
      unfold find_sfx. by rewrite find_sfx_next_empty. }
  split.
  - intros key e Hin.
    destruct (insert_all_converts _ _ _ _ _ Hall Hin) as [s Hs].
    rewrite (Hchar _ _ Hs).
    apply elem_of_inserted_under in Hin.
    destruct (inserted_under l key) as [|e0 es] eqn:Hes.
    + by apply elem_of_nil in Hin.
    + by exists (e0 :: es).
  - intros key b Hfind.
    assert (exists s, season_from_string (season key) = ok s) as [s Hs].
    { rewrite find_exact_unfold in Hfind.
      destruct (season_from_string (season key)); [by eexists|done]. }
    rewrite (Hchar _ _ Hs) in Hfind.
    destruct (inserted_under l key) as [|e0 es] eqn:Hes; [done|].
    injection Hfind as <-. split; [done|].
    intros e He. apply elem_of_inserted_under. by rewrite Hes.
Qed.

(** Witness for [find_exact_after_insertions]: two effects under one key
    and a third under a key that differs in the time of day only. *)
Lemma find_exact_after_insertions_witness :
  insert_all (mk_sfx_map ∅) day_any_insertions = ok pack_day_any /\
  ((forall key e, (key, e) ∈ day_any_insertions ->
      exists b, find_exact pack_day_any key = ok (Some b) /\ e ∈ b) /\
   (forall key b, find_exact pack_day_any key = ok (Some b) ->
      b = inserted_under day_any_insertions key /\
      forall e, e ∈ b -> (key, e) ∈ day_any_insertions)).
Proof.
  split; [reflexivity|].
  apply (find_exact_after_insertions day_any_insertions pack_day_any).
  reflexivity.
Defined.

Lemma find_exact_day_any :
  find_exact pack_day_any (mk_sfx_args "step" "default" EmptyString None (Some false))
  = ok (Some [growl; thud]) /\
  find_exact pack_day_any (mk_sfx_args "step" "default" EmptyString None None)
  = ok (Some [thud]) /\
  find_exact pack_day_any (mk_sfx_args "step" "default" EmptyString None (Some true))
  = ok None.
Proof. repeat split; by vm_compute. Qed.

(** *** Best match *)

Lemma find_closest_sfx_resolved c id variant s io t :
  find_closest_sfx c id EmptyString variant "default"%string s NONE io EITHER t ANY =
  findBestMatch c id variant s io t.
Proof.
  unfold find_closest_sfx, findBestMatch, resolved_key, find_sfx.
  unfold find_closest_sfx_next, find_closest_sfx_last, find_sfx_next, find_sfx_last.
  rewrite closest_it_level_key.
  destruct (c !! level_key c id EmptyString) as [c1|]; [simpl|done].
  rewrite closest_it_level_key.
  destruct (c1 !! level_key c1 variant "default"%string) as [c2|]; [simpl|done].
  rewrite closest_it_level_key.
  destruct (c2 !! level_key c2 s NONE) as [c3|]; [simpl|done].
  rewrite closest_it_level_key.
  destruct (c3 !! level_key c3 io EITHER) as [c4|]; [simpl|done].
  by rewrite closest_it_level_key.
Qed.

(** The soundpacks of the examples are what the insertions build. *)
Lemma pack_empty_id_loaded :
  insert (mk_sfx_map ∅) (mk_sfx_args EmptyString "default" EmptyString None None) growl
  = ok pack_empty_id.
Proof. reflexivity. Qed.

Lemma pack_heavy_spring_loaded :
  insert_all (mk_sfx_map ∅)
    [ (mk_sfx_args "step" "heavy" "spring" None None, growl);
      (mk_sfx_args "step" "default" EmptyString None None, thud) ]
  = ok pack_heavy_spring.
Proof. reflexivity. Qed.



(** The search is nested, not a cross product: with "heavy" recorded for
    spring only, a winter query for "heavy" finds nothing although the
    season-less "default" variant is there. *)
Lemma find_is_not_a_cross_product :
  find pack_heavy_spring "step" "heavy" "winter" None None = ok None /\
  find_exact pack_heavy_spring (mk_sfx_args "step" "default" EmptyString None None)
  = ok (Some [thud]).
Proof. split; by vm_compute. Qed.

(** C2.  The bucket a best-match query returns is the one stored under
    the settled key, whose time of day is the requested one or ANY and
    whose indoorness is the requested one or EITHER: a night request is
    never answered from a DAYTIME bucket, a day request never from a
    NIGHTTIME bucket, an indoor request never from an OUTDOORS bucket
    and an outdoor request never from an INDOORS bucket. *)
Theorem find_never_crosses (m : sfx_map) (id variant season : string)
    (is_indoors is_night : option bool) (b : bucket) :
  find m id variant season is_indoors is_night = ok (Some b) ->
  exists i v s s' io t,
    season_from_string season = ok s /\
    resolved_key (effects m) id variant s (in_or_out_of is_indoors) (tod_of is_night)
      = (i, v, s', io, t) /\
    find_sfx (effects m) i v s' io t = Some b /\
    (tod_from_int (bool_or is_night (-1)) = ok t \/ t = ANY) /\
    (in_or_out_from_int (bool_or is_indoors (-1)) = ok io \/ io = EITHER) /\
    (is_night = Some true -> t <> DAYTIME) /\
    (is_night = Some false -> t <> NIGHTTIME) /\
    (is_indoors = Some true -> io <> OUTDOORS) /\
    (is_indoors = Some false -> io <> INDOORS).
Proof.
  rewrite find_unfold.
  destruct (season_from_string season) as [s|] eqn:Hs; [|done].
  intros [= Hfind]. rewrite find_closest_sfx_resolved in Hfind.
  unfold findBestMatch in Hfind.
  destruct (resolved_key _ _ _ _ _ _) as [[[[i v] s'] io] t] eqn:Hkey.
  exists i, v, s, s', io, t. split; [done|]. split; [done|]. split; [done|].
  unfold resolved_key in Hkey. injection Hkey as _ _ _ Hio Ht.
  rewrite in_or_out_from_bool_or, tod_from_bool_or.
  match type of Ht with level_key ?c ?k ?d = _ =>
    destruct (level_key_cases c k d) as [Ht'|Ht']; rewrite Ht' in Ht end;
  match type of Hio with level_key ?c ?k ?d = _ =>
    destruct (level_key_cases c k d) as [Hio'|Hio']; rewrite Hio' in Hio end;
  subst t io; repeat split; auto; intros ->; done.
Qed.

(** Witness for [find_never_crosses]: a night request answered from the
    ANY bucket of the empty id. *)
Lemma find_never_crosses_witness :
  exists i v s s' io t,
    season_from_string EmptyString = ok s /\
    resolved_key (effects pack_empty_id) "growl" "default" s
      (in_or_out_of None) (tod_of (Some true)) = (i, v, s', io, t) /\
    find_sfx (effects pack_empty_id) i v s' io t = Some [growl] /\
    (tod_from_int (bool_or (Some true) (-1)) = ok t \/ t = ANY) /\
    (in_or_out_from_int (bool_or None (-1)) = ok io \/ io = EITHER) /\
    (Some true = Some true -> t <> DAYTIME) /\
    (Some true = Some false -> t <> NIGHTTIME) /\
    (@None bool = Some true -> io <> OUTDOORS) /\
    (@None bool = Some false -> io <> INDOORS).
Proof.
  apply (find_never_crosses pack_empty_id "growl" "default" EmptyString None (Some true)).
  by vm_compute.
Defined.

End ResolverFacts.

(** * Properties of the resampling callback *)

Section VoiceFacts.
Import F32 Audio.

Lemma to_signed16_range w : 0 <= w < 2 ^ 16 -> - 2 ^ 15 <= to_signed16 w < 2 ^ 15.
Proof. unfold to_signed16. intros. destruct (Z.ltb_spec w (2 ^ 15)); lia. Qed.

Lemma read_byte_ok buf off :
  Forall (fun b => 0 <= b < 256) buf ->
  0 <= off < Z.of_nat (length buf) ->
  exists b, read_byte buf off = value b /\ 0 <= b < 256.
Proof.
  intros Hbytes Hoff. unfold read_byte.
  destruct (Z.ltb_spec off 0); [lia|].
  destruct (lookup_lt_is_Some_2 buf (Z.to_nat off)) as [b Hb]; [lia|].
  rewrite Hb. exists b. split; [done|].
  rewrite Forall_lookup in Hbytes. by eapply Hbytes.
Qed.

Lemma read_sample_ok buf off :
  Forall (fun b => 0 <= b < 256) buf ->
  0 <= off -> off + 1 < Z.of_nat (length buf) ->
  exists v, read_sample buf off = value v /\ - 2 ^ 15 <= v < 2 ^ 15.
Proof.
  intros Hbytes Hoff Hend. unfold read_sample.
  destruct (read_byte_ok buf off Hbytes) as (b0 & -> & Hb0); [lia|].
  destruct (read_byte_ok buf (off + 1) Hbytes) as (b1 & -> & Hb1); [lia|].
  simpl. eexists; split; [done|]. apply to_signed16_range. lia.
Qed.

Lemma write_byte_ok buf off b :
  0 <= off < Z.of_nat (length buf) ->
  exists buf', write_byte buf off b = value buf' /\ length buf' = length buf.
Proof.
  intros Hoff. unfold write_byte.
  destruct (Z.leb_spec 0 off); [|lia].
  destruct (Z.ltb_spec off (Z.of_nat (length buf))); [|lia]. simpl.
  eexists; split; [done|]. apply length_insert.
Qed.

Lemma write_sample_ok buf off v :
  0 <= off -> off + 1 < Z.of_nat (length buf) ->
  exists buf', write_sample buf off v = value buf' /\ length buf' = length buf.
Proof.
  intros Hoff Hend. unfold write_sample.
  destruct (write_byte_ok buf off (v mod 2 ^ 16 mod 256)) as (b1 & -> & Hl1); [lia|].
  simpl.
  destruct (write_byte_ok b1 (off + 1) (v mod 2 ^ 16 / 256)) as (b2 & -> & Hl2);
    [rewrite Hl1; lia|].
  exists b2. split; [done|]. congruence.
Qed.

Lemma quot_unit_between t a b :
  a * unit <= t <= b * unit -> a <= t ÷ unit <= b.
Proof.
  intros [Ha Hb]. pose proof unit_pos as Hu. split.
  - rewrite <- (Z.quot_mul a unit) by lia. apply Z.quot_le_mono; lia.
  - rewrite <- (Z.quot_mul b unit) by lia. apply Z.quot_le_mono; lia.
Qed.

Lemma round_exact_1 g :
  representable g -> Z.abs g < overflow_threshold -> round g 1 = fin g.
Proof.
  intros Hg Hlt. rewrite <- (Z.mul_1_r g) at 1. by apply round_exact.
Qed.

Lemma round_between_1 n L H :
  representable L -> representable H -> L <= n <= H ->
  - overflow_threshold < L -> H < overflow_threshold ->
  exists u, round n 1 = fin u /\ L <= u <= H /\ representable u.
Proof. intros. apply (round_between n 1 L H); lia || done. Qed.

Lemma representable_int_unit k : Z.abs k <= 2 ^ 24 -> representable (k * unit).
Proof. intros. by apply representable_small. Qed.

(** Interpolating between two samples gives a sample. *)
Lemma interpolation_in_range i lv hv :
  0 <= i < 2 ^ 31 * unit -> representable i ->
  - 2 ^ 15 <= lv < 2 ^ 15 -> - 2 ^ 15 <= hv < 2 ^ 15 ->
  exists v,
    to_int16 (fadd (fmul (of_int (hv - lv)) (fsub (fin i) (of_int (i / unit))))
                   (of_int lv)) = Some v /\
    Z.min lv hv <= v <= Z.max lv hv.
Proof.
  intros Hi Hrep Hlv Hhv. pose proof unit_pos as Hu.
  assert (Hth : 2 ^ 31 * unit < overflow_threshold) by reflexivity.
  assert (Hfl : 0 <= i / unit * unit <= i).
  { split; [apply Z.mul_nonneg_nonneg; [apply Z.div_pos|]; lia|].
    rewrite Z.mul_comm. apply Z.mul_div_le. lia. }
  assert (Hfr : i - i / unit * unit < unit).
  { pose proof (Z.mod_pos_bound i unit Hu). rewrite Z.mod_eq in * by lia. lia. }
  (* the integer part converts exactly *)
  assert (Hlow : of_int (i / unit) = fin (i / unit * unit)).
  { unfold of_int. apply round_exact_1; [apply floor_representable; [lia|done]|].
    rewrite Z.abs_eq; lia. }
  rewrite Hlow. unfold fsub, fopp, fadd at 2.
  (* the factor lies in [0, 1] *)
  destruct (round_between_1 (i + - (i / unit * unit)) 0 unit) as (f & -> & Hf & _);
    [apply representable_0|apply (representable_pow2_unit 0); lia|lia|
     unfold overflow_threshold, unit; lia|unfold overflow_threshold, unit; lia|].
  (* the difference converts exactly *)
  rewrite (of_int_exact (hv - lv)), (of_int_exact lv) by lia.
  unfold fmul.
  (* the product lies between 0 and the difference *)
  assert (Hprod : Z.min 0 (hv - lv) * unit * unit <= (hv - lv) * unit * f
                  <= Z.max 0 (hv - lv) * unit * unit).
  { set (du := (hv - lv) * unit).
    destruct (Z_lt_le_dec (hv - lv) 0);
      [rewrite Z.min_r, Z.max_l by lia|rewrite Z.min_l, Z.max_r by lia]; fold du.
    - assert (0 <= (- du) * (unit - f)) by (apply Z.mul_nonneg_nonneg; unfold du; nia).
      assert (0 <= (- du) * f) by (apply Z.mul_nonneg_nonneg; unfold du; nia).
      lia.
    - assert (0 <= du * (unit - f)) by (apply Z.mul_nonneg_nonneg; unfold du; nia).
      assert (0 <= du * f) by (apply Z.mul_nonneg_nonneg; unfold du; nia).
      lia. }
  destruct (round_between ((hv - lv) * unit * f) unit
              (Z.min 0 (hv - lv) * unit) (Z.max 0 (hv - lv) * unit))
    as (p & -> & Hp & _);
    [lia|apply representable_int_unit; lia|apply representable_int_unit; lia|done|
     unfold overflow_threshold, unit; lia|unfold overflow_threshold, unit; lia|].
  unfold fadd.
  (* the sum lies between the two samples *)
  destruct (round_between_1 (p + lv * unit) (Z.min lv hv * unit) (Z.max lv hv * unit))
    as (t & -> & Ht & _);
    [apply representable_int_unit; lia|apply representable_int_unit; lia|lia|
     unfold overflow_threshold, unit; lia|unfold overflow_threshold, unit; lia|].
  unfold to_int16, to_int_range, truncate.
  pose proof (quot_unit_between t _ _ Ht) as Hq.
  exists (t ÷ unit). split; [|done].
  destruct (Z.leb_spec (- 2 ^ 15) (t ÷ unit)); [|lia].
  destruct (Z.leb_spec (t ÷ unit) (2 ^ 15 - 1)); [done|lia].
Qed.

(** The number of frames of a well-formed chunk. *)
Lemma num_source_samples_bounds c :
  chunk_wf c ->
  0 <= alen c / 4 <= 2 ^ 30 /\ 4 * (alen c / 4) <= Z.of_nat (length (abuf c)).
Proof.
  intros (Hlen & Hmax & _).
  assert (0 <= alen c) by lia.
  pose proof (Z.mul_div_le (alen c) 4 ltac:(lia)).
  split; [|lia]. split; [apply Z.div_pos; lia|].
  apply Z.div_le_upper_bound; lia.
Qed.

(** Inside the loop the position is below the frame count, exactly and
    not only after the count was converted to [float]. *)
Lemma guard_position i n :
  0 <= n <= 2 ^ 30 -> representable i ->
  flt (fin i) (of_int n) = true -> i < n * unit.
Proof.
  intros Hn Hrep Hlt.
  destruct (of_int_bounds n) as (u & Hu & _ & _ & _ & Hup); [lia|].
  rewrite Hu in Hlt. simpl in Hlt. apply Z.ltb_lt in Hlt.
  destruct (Z_lt_le_dec i (n * unit)) as [|Hge]; [done|].
  pose proof (Hup i Hrep Hge). lia.
Qed.

Lemma floor_index i n :
  n <= 2 ^ 30 -> 0 <= i < n * unit ->
  to_int32 (floor (fin i)) = Some (i / unit) /\ 0 <= i / unit < n.
Proof.
  intros Hn Hi. pose proof unit_pos as Hu.
  assert (Hb : 0 <= i / unit < n).
  { split; [apply Z.div_pos; lia|apply Z.div_lt_upper_bound; lia]. }
  split; [|done].
  unfold to_int32, to_int_range, floor, truncate.
  rewrite Z.quot_mul by lia.
  destruct (Z.leb_spec (- 2 ^ 31) (i / unit)); [|lia].
  destruct (Z.leb_spec (i / unit) (2 ^ 31 - 1)); [done|lia].
Qed.

Lemma ceil_index i n :
  n <= 2 ^ 30 -> 0 <= i < n * unit ->
  to_int32 (ceil (fin i)) = Some (- (- i / unit)) /\ 0 <= - (- i / unit) <= n.
Proof.
  intros Hn Hi. pose proof unit_pos as Hu.
  assert (Hb : 0 <= - (- i / unit) <= n).
  { assert (- n <= - i / unit) by (apply Z.div_le_lower_bound; lia).
    assert (- i / unit < 1) by (apply Z.div_lt_upper_bound; lia). lia. }
  split; [|done].
  unfold to_int32, to_int_range, ceil, truncate.
  rewrite Z.quot_mul by lia.
  destruct (Z.leb_spec (- 2 ^ 31) (- (- i / unit))); [|lia].
  destruct (Z.leb_spec (- (- i / unit)) (2 ^ 31 - 1)); [done|lia].
Qed.

(** One sample of a frame: both reads are inside the source and the
    interpolated value converts. *)
Lemma interpolate_ear_ok h i high ear :
  chunk_wf (audio_src h) ->
  current_sample_index h = fin i -> representable i ->
  0 <= i < alen (audio_src h) / 4 * unit ->
  0 <= high < alen (audio_src h) / 4 ->
  ear = 0 \/ ear = 2 ->
  exists v, interpolate_ear h (i / unit) high ear = value v.
Proof.
  intros Hwf Hidx Hrep Hi Hhigh Hear. pose proof unit_pos as Hu.
  destruct (num_source_samples_bounds _ Hwf) as [Hn Hlen].
  destruct Hwf as (_ & _ & Hbytes).
  destruct (floor_index i (alen (audio_src h) / 4)) as [_ Hlow]; [lia|done|].
  unfold interpolate_ear, bytes_per_sample. rewrite Hidx.
  assert (Hi' : 0 <= i < 2 ^ 31 * unit) by nia.
  case_decide as Hloops.
  - destruct (read_sample_ok (abuf (audio_src h)) (ear + i / unit * 4) Hbytes)
      as (lv & -> & Hlv); [lia|lia|].
    destruct (read_sample_ok (abuf (audio_src h)) (ear + high * 4) Hbytes)
      as (hv & -> & Hhv); [lia|lia|].
    unfold mbind, outcome_bind.
    destruct (interpolation_in_range i lv hv Hi' Hrep Hlv Hhv) as (v & -> & _).
    by eexists.
  - unfold mbind, outcome_bind.
    destruct (interpolation_in_range i 0 0 Hi' Hrep) as (v & -> & _); [lia|lia|].
    by eexists.
Qed.

(** Advancing keeps the position a finite non-negative float and leaves
    the rest of the handler alone. *)
Lemma advance_ok speed n h i :
  current_sample_index h = fin i -> representable i -> 0 <= i < n * unit ->
  0 < n <= 2 ^ 30 -> speed_ok speed ->
  position_ok (advance speed n h) /\
  audio_src (advance speed n h) = audio_src h /\
  (loops_remaining (advance speed n h) = loops_remaining h \/
   0 <= loops_remaining h /\
   loops_remaining (advance speed n h) = loops_remaining h - 1).
Proof.
  intros Hidx Hrep Hi Hn (s & -> & Hs & Hsrep). pose proof unit_pos as Hu.
  unfold advance. rewrite Hidx.
  assert (Hone : fmul one (fin s) = fin s).
  { unfold fmul, one. rewrite (Z.mul_comm unit s).
    apply round_exact; [lia|done|]. unfold overflow_threshold, unit in *. lia. }
  rewrite Hone. unfold fadd.
  destruct (round_between_1 (i + s) 0 (2 ^ 101 * unit)) as (i' & -> & Hi' & Hrep');
    [apply representable_0|apply representable_pow2_unit; lia|
     unfold unit in *; lia|unfold overflow_threshold; lia|
     unfold overflow_threshold, unit; lia|].
  destruct (of_int_bounds n) as (u & -> & Hurep & Hub & Hlo & _); [lia|].
  assert (Hupos : unit <= u).
  { apply Hlo; [apply (representable_pow2_unit 0); lia|nia]. }
  destruct (bool_decide (loops_remaining h >= 0) && fge (fin i') (fin u)) eqn:Hwrap;
    simpl.
  - apply andb_true_iff in Hwrap as [Hl%bool_decide_eq_true _].
    split; [|split; [done|right; lia]].
    unfold position_ok. simpl.
    destruct (Z.eqb_spec u 0); [lia|].
    exists (i' mod u). rewrite Z.rem_mod_nonneg by lia.
    split; [done|]. split; [apply Z.mod_pos_bound; lia|].
    apply rem_representable; [lia|lia|done|done].
  - split; [|split; [done|by left]].
    exists i'. simpl. split; [done|]. split; [lia|done].
Qed.

(** One frame inside the loop. *)
Lemma produce_frame_ok speed dst stream h :
  chunk_wf (audio_src h) -> position_ok h -> speed_ok speed ->
  flt (current_sample_index h) (of_int (alen (audio_src h) / 4)) = true ->
  0 <= dst -> dst * 4 + 3 < Z.of_nat (length stream) ->
  exists stream' h',
    produce_frame speed (alen (audio_src h) / 4) dst stream h = value (stream', h') /\
    position_ok h' /\ audio_src h' = audio_src h /\
    length stream' = length stream /\
    (loops_remaining h' = loops_remaining h \/
     0 <= loops_remaining h /\ loops_remaining h' = loops_remaining h - 1).
Proof.
  intros Hwf (i & Hidx & Hi0 & Hrep) Hspeed Hguard Hdst Hroom.
  destruct (num_source_samples_bounds _ Hwf) as [Hn _].
  set (n := alen (audio_src h) / 4) in *.
  rewrite Hidx in Hguard.
  pose proof (guard_position i n Hn Hrep Hguard) as Hlt.
  assert (Hi : 0 <= i < n * unit) by lia.
  assert (Hnpos : 0 < n) by (pose proof unit_pos; nia).
  destruct (floor_index i n) as [Hfloor Hlow]; [lia|done|].
  destruct (ceil_index i n) as [Hceil Hhigh]; [lia|done|].
  unfold produce_frame. rewrite Hidx, Hfloor, Hceil.
  unfold converted, mbind, outcome_bind.
  set (high := if decide (- (- i / unit) = n) then 0 else - (- i / unit)).
  assert (Hh : 0 <= high < n) by (unfold high; case_decide; lia).
  destruct (interpolate_ear_ok h i high 0 Hwf Hidx Hrep Hi Hh) as (l & ->); [by left|].
  unfold bytes_per_sample.
  destruct (write_sample_ok stream (dst * 4 + 0) l) as (s1 & -> & Hl1); [lia|lia|].
  destruct (interpolate_ear_ok h i high 2 Hwf Hidx Hrep Hi Hh) as (r & ->); [by right|].
  destruct (write_sample_ok s1 (dst * 4 + 2) r) as (s2 & -> & Hl2); [lia|lia|].
  destruct (advance_ok speed n h i Hidx Hrep Hi) as (Hpos & Hsrc & Hloops); [lia|done|].
  eexists _, _. split; [done|]. repeat split; try done. congruence.
Qed.

(** The loop: every frame it produces reads and writes inside the
    buffers. *)
Lemma resample_ok speed : forall todo dst stream h,
  chunk_wf (audio_src h) -> position_ok h -> speed_ok speed ->
  0 <= dst -> (dst + Z.of_nat todo) * 4 <= Z.of_nat (length stream) ->
  exists stream' h',
    resample todo speed (alen (audio_src h) / 4) dst stream h = value (stream', h') /\
    position_ok h' /\ audio_src h' = audio_src h /\
    length stream' = length stream /\
    loops_remaining h' <= loops_remaining h /\
    (-1 <= loops_remaining h -> -1 <= loops_remaining h').
Proof.
  induction todo as [|todo IH]; intros dst stream h Hwf Hpos Hspeed Hdst Hroom.
  - simpl. eexists _, _. split; [done|]. repeat split; try done; lia.
  - simpl.
    destruct (flt (current_sample_index h) (of_int (alen (audio_src h) / 4))) eqn:Hguard.
    2: { eexists _, _. split; [done|]. repeat split; try done; lia. }
    destruct (produce_frame_ok speed dst stream h Hwf Hpos Hspeed Hguard Hdst)
      as (s1 & h1 & -> & Hpos1 & Hsrc1 & Hlen1 & Hloops1); [lia|].
    unfold mbind, outcome_bind.
    destruct (IH (dst + 1) s1 h1) as (s2 & h2 & Hrun & Hpos2 & Hsrc2 & Hlen2 & Hl2 & Hl2');
      [by rewrite Hsrc1|done|done|lia|rewrite Hlen1; lia|].
    rewrite Hsrc1 in Hrun. rewrite Hrun.
    eexists _, _. split; [done|]. repeat split; try congruence; lia.
Qed.

(** The callback on any buffer, at any speed. *)
Lemma slowed_time_effect_at_ok speed stream len h :
  chunk_wf (audio_src h) -> position_ok h -> speed_ok speed ->
  0 <= loops_remaining h ->
  0 <= len <= Z.of_nat (length stream) ->
  exists r,
    slowed_time_effect_at speed stream len h = value r /\
    position_ok (out_handler r) /\
    audio_src (out_handler r) = audio_src h /\
    length (out_stream r) = length stream /\
    -1 <= loops_remaining (out_handler r) <= loops_remaining h /\
    halt_requested r = bool_decide (loops_remaining (out_handler r) < 0).
Proof.
  intros Hwf Hpos Hspeed Hloops Hlen.
  unfold slowed_time_effect_at, bytes_per_sample.
  case_decide; [|lia].
  destruct (resample_ok speed (Z.to_nat (len ÷ 4)) 0 stream h)
    as (s' & h' & -> & Hpos' & Hsrc' & Hlen' & Hl & Hl'); try done.
  { rewrite Z.quot_div_nonneg by lia.
    pose proof (Z.mul_div_le len 4 ltac:(lia)).
    assert (0 <= len / 4) by (apply Z.div_pos; lia). lia. }
  unfold mbind, outcome_bind. eexists. split; [done|]. simpl.
  repeat split; try done; lia.
Qed.



(** The same source at twice the speed: two frames are produced before
    the position wraps, the rest of the buffer is silence and a halt is
    requested. *)
Lemma four_frames_at_double_speed :
  exists h',
    slowed_time_effect_at (fin (2 * unit)) (replicate 24 7) 24 four_frame_voice
    = value (mk_callback_result
               [100; 0; 249; 255; 12; 254; 0; 0; 0; 0; 0; 0;
                0; 0; 0; 0; 7; 7; 7; 7; 7; 7; 7; 7] h' true).
Proof. eexists. vm_compute. reflexivity. Qed.

End VoiceFacts.

(** * Properties of the resource table and of the ambient play request *)

Section PlaybackFacts.
Import F32 Audio Playback.
Context {E : Type} `{Environment E}.

Lemma null_chunk_wf : chunk_wf make_null_chunk /\ alen make_null_chunk = 0 /\
                      abuf make_null_chunk = [].
Proof. unfold chunk_wf. simpl. repeat split; done || constructor. Qed.

(** A resource that is loaded is returned as it is, whatever the state of
    the environment. *)
Lemma get_sfx_resource_cached (w : world E) resource_id p c :
  0 <= resource_id ->
  resource (sfx_resources w) !! Z.to_nat resource_id = Some (mk_resource p (Some c)) ->
  get_sfx_resource w resource_id = returned (w, c).
Proof.
  intros Hid Hlook. unfold get_sfx_resource.
  destruct (Z.ltb_spec resource_id 0); [lia|]. by rewrite Hlook.
Qed.

(** C8.  For every resource id of the table, [get_sfx_resource] returns
    (it neither throws nor leaves the table): when the resource is not
    loaded yet and the decoder fails on its file, the chunk returned is
    the null chunk, a well-formed chunk of length 0; and a second call
    with the same id, whatever the environment has become in between,
    returns the very chunk of the first call and changes nothing. *)
Theorem get_sfx_resource_never_raises (w : world E) (resource_id : Z) :
  0 <= resource_id < Z.of_nat (length (resource (sfx_resources w))) ->
  exists w' c,
    get_sfx_resource w resource_id = returned (w', c) /\
    (forall r, resource (sfx_resources w) !! Z.to_nat resource_id = Some r ->
       chunk r = None ->
       Mix_LoadWAV (env w) (soundpack_file (current_soundpack_path w) (path r)) = None ->
       c = make_null_chunk /\ chunk_wf c /\ alen c = 0) /\
    (forall e', get_sfx_resource (set_env w' e') resource_id
                = returned (set_env w' e', c)).
Proof.
  intros Hid. unfold get_sfx_resource at 1.
  destruct (Z.ltb_spec resource_id 0); [lia|].
  destruct (lookup_lt_is_Some_2 (resource (sfx_resources w)) (Z.to_nat resource_id))
    as [[p [c|]] Hr]; [lia| |]; rewrite Hr; simpl.
  - exists w, c. split; [done|]. split.
    + intros r [= <-]. done.
    + intros e'. by apply get_sfx_resource_cached with (p := p).
  - eexists _, _. split; [done|]. split.
    + intros r [= <-]. simpl. unfold load_chunk. intros _ ->.
      split; [done|]. split; [apply null_chunk_wf|done].
    + intros e'. apply get_sfx_resource_cached with (p := p); [lia|].
      simpl. apply list_lookup_insert_eq. lia.
Qed.

(** C10.  When the requested channel is already playing,
    [play_ambient_variant_sound] returns at once: the whole state (the
    mixer and the rest of the environment, the resource table, the
    allocated handlers) is what it was, so no effect was resolved, no
    resource loaded and nothing started or restarted. *)
Theorem ambient_request_on_playing_channel (w : world E) (id variant season : string)
    (is_indoors is_night : option bool) (volume channel fade_in_duration : Z)
    (pitch : pitch_arg) (loops : Z) :
  is_channel_playing (env w) channel = true ->
  play_ambient_variant_sound w id variant season is_indoors is_night volume channel
    fade_in_duration pitch loops = returned w.
Proof.
  intros Hplaying. unfold play_ambient_variant_sound.
  destruct (test_mode w); [done|].
  destruct (negb (check_sound w volume)); [done|].
  by rewrite Hplaying.
Qed.

End PlaybackFacts.

Section PlaybackExamples.
Import F32 Audio Playback.

(** Witness for [get_sfx_resource_never_raises]: the resource whose file
    the decoder does not know. *)
Lemma get_sfx_resource_never_raises_witness :
  exists w' c,
    get_sfx_resource (test_world []) 1 = returned (w', c) /\
    (forall r, resource (sfx_resources (test_world [])) !! Z.to_nat 1 = Some r ->
       chunk r = None ->
       Mix_LoadWAV (env (test_world []))
         (soundpack_file (current_soundpack_path (test_world [])) (path r)) = None ->
       c = make_null_chunk /\ chunk_wf c /\ alen c = 0) /\
    (forall e', get_sfx_resource (set_env w' e') 1 = returned (set_env w' e', c)).
Proof.
  apply (get_sfx_resource_never_raises (test_world []) 1).
  simpl. lia.
Defined.

(** Witness for [ambient_request_on_playing_channel]: channel 3 plays. *)
Lemma ambient_request_on_playing_channel_witness :
  play_ambient_variant_sound (test_world [3]) "wind" "default" EmptyString None None
    50 3 1000 (mk_pitch false zero) (-1) = returned (test_world [3]).
Proof.
  apply (ambient_request_on_playing_channel (test_world [3])).
  reflexivity.
Defined.

(** The same request on a channel that is silent resolves the effect,
    loads its resource and starts a voice. *)
Lemma ambient_request_on_silent_channel :
  exists w',
    play_ambient_variant_sound (test_world []) "wind" "default" EmptyString None None
      50 3 1000 (mk_pitch false zero) (-1) = returned w' /\
    log (env w') = [registered 3; faded_in 3 (-1) 1000] /\
    (chunk <$> resource (sfx_resources w') !! 0%nat)
      = Some (Some (mk_chunk 0 (abuf beep) 8 32)) /\
    handlers w' = [new_handler (mk_chunk 0 (abuf beep) 8 32) (-1) false].
Proof. eexists. split; [by vm_compute|]. by vm_compute. Qed.

(** A resource whose file is missing becomes the null chunk, once. *)
Lemma missing_file_gives_null_chunk :
  exists w',
    get_sfx_resource (test_world []) 1 = returned (w', make_null_chunk) /\
    get_sfx_resource w' 1 = returned (w', make_null_chunk).
Proof. eexists. split; by vm_compute. Qed.

End PlaybackExamples.

(** * Properties of the pitch shifter *)

Section PitchFacts.
Import F32 Audio.


(** The two bytes of a sample, put together the way [do_pitch_shift]
    does, are the sample [memcpy] reads. *)
Lemma lor_shiftl_bytes b0 b1 :
  0 <= b0 < 256 -> 0 <= b1 -> Z.lor (Z.shiftl b1 8) b0 = b0 + 256 * b1.
Proof.
  intros Hb0 Hb1.
  assert (Hland : Z.land (Z.shiftl b1 8) b0 = 0).
  { apply Z.bits_inj'. intros k Hk.
    rewrite Z.land_spec, Z.bits_0.
    destruct (Z_lt_le_dec k 8).
    - rewrite Z.shiftl_spec_low by lia. done.
    - rewrite (Z.bits_above_log2 b0 k); [apply andb_false_r|lia|].
      destruct (decide (b0 = 0)) as [->|]; [simpl; lia|].
      assert (Z.log2 b0 < 8); [apply Z.log2_lt_pow2; lia|lia]. }
  rewrite <- Z.lxor_lor by done.
  rewrite <- Z.add_nocarry_lxor by done.
  rewrite Z.shiftl_mul_pow2 by lia. lia.
Qed.

(** Writing a sample as [do_pitch_shift] does and reading it back. *)
Lemma sample_bytes_roundtrip v :
  - 2 ^ 15 <= v < 2 ^ 15 ->
  0 <= Z.land v 255 < 256 /\ 0 <= Z.land (Z.shiftr v 8) 255 < 256 /\
  to_signed16 (Z.land v 255 + 256 * Z.land (Z.shiftr v 8) 255) = v.
Proof.
  intros Hv.
  change 255 with (Z.ones 8). rewrite !Z.land_ones by lia.
  rewrite Z.shiftr_div_pow2 by lia.
  pose proof (Z.mod_pos_bound v (2 ^ 8) ltac:(lia)).
  pose proof (Z.mod_pos_bound (v / 2 ^ 8) (2 ^ 8) ltac:(lia)).
  split; [lia|]. split; [lia|].
  assert (Hw : v mod 2 ^ 8 + 256 * ((v / 2 ^ 8) mod 2 ^ 8) = v mod 2 ^ 16).
  { change (2 ^ 16) with (2 ^ 8 * 2 ^ 8). rewrite Z.rem_mul_r by lia. lia. }
  rewrite Hw. unfold to_signed16.
  destruct (Z_lt_le_dec v 0).
  - assert (v mod 2 ^ 16 = v + 2 ^ 16).
    { symmetry. apply Z.mod_unique with (q := -1); lia. }
    destruct (Z.ltb_spec (v mod 2 ^ 16) (2 ^ 15)); lia.
  - rewrite Z.mod_small by lia.
    destruct (Z.ltb_spec v (2 ^ 15)); lia.
Qed.

Lemma read_byte_value buf off b :
  read_byte buf off = value b -> 0 <= off /\ buf !! Z.to_nat off = Some b.
Proof.
  unfold read_byte. destruct (Z.ltb_spec off 0); [done|].
  destruct (buf !! Z.to_nat off); [|done]. by intros [= ->].
Qed.

Lemma write_byte_value buf off b buf' :
  write_byte buf off b = value buf' ->
  0 <= off < Z.of_nat (length buf) /\ buf' = <[Z.to_nat off := b]> buf.
Proof.
  unfold write_byte.
  destruct (Z.leb_spec 0 off); [|done].
  destruct (Z.ltb_spec off (Z.of_nat (length buf))); [|done].
  simpl. intros [= <-]. split; [lia|done].
Qed.

Lemma read_byte_insert_eq buf off b :
  0 <= off < Z.of_nat (length buf) ->
  read_byte (<[Z.to_nat off := b]> buf) off = value b.
Proof.
  intros Hoff. unfold read_byte. destruct (Z.ltb_spec off 0); [lia|].
  rewrite list_lookup_insert_eq by lia. done.
Qed.

Lemma read_byte_insert_ne buf off off' b :
  0 <= off -> off <> off' ->
  read_byte (<[Z.to_nat off := b]> buf) off' = read_byte buf off'.
Proof.
  intros Hoff Hne. unfold read_byte. destruct (Z.ltb_spec off' 0); [done|].
  rewrite list_lookup_insert_ne by lia. done.
Qed.

(** The [j] loop adds up the frames of the window. *)
Lemma sum_frames_frames_from buf : forall count j lt_avg rt_avg,
  Forall (fun b => 0 <= b < 256) buf ->
  sum_frames buf j count lt_avg rt_avg =
  (fs ← frames_from buf j count;
   mret (lt_avg + sum_Z fs.*1, rt_avg + sum_Z fs.*2)).
Proof.
  induction count as [|count IH]; intros j lt_avg rt_avg Hbytes.
  - simpl. unfold mret, outcome_ret. f_equal. f_equal; lia.
  - simpl. unfold frame, read_sample.
    replace (4 * j + 0) with (4 * j) by lia.
    replace (4 * j + 2 + 1) with (4 * j + 3) by lia.
    destruct (read_byte buf (4 * j)) as [l0|] eqn:Hl0; [|done].
    destruct (read_byte buf (4 * j + 1)) as [l1|] eqn:Hl1; [|done].
    destruct (read_byte buf (4 * j + 2)) as [r0|] eqn:Hr0; [|done].
    destruct (read_byte buf (4 * j + 3)) as [r1|] eqn:Hr1; [|done].
    cbn [mbind outcome_bind mret outcome_ret].
    rewrite IH by done.
    destruct (frames_from buf (j + 1) count) as [fs|]; [|done].
    cbn [mbind outcome_bind mret outcome_ret fmap list_fmap fst snd sum_Z foldr].
    rewrite Forall_lookup in Hbytes.
    apply read_byte_value in Hl0 as [_ Hl0], Hl1 as [_ Hl1], Hr0 as [_ Hr0], Hr1 as [_ Hr1].
    pose proof (Hbytes _ _ Hl0). pose proof (Hbytes _ _ Hl1).
    pose proof (Hbytes _ _ Hr0). pose proof (Hbytes _ _ Hr1).
    rewrite !lor_shiftl_bytes by lia.
    f_equal. f_equal; fold (sum_Z fs.*1); fold (sum_Z fs.*2); lia.
Qed.

Lemma converted_value o z : converted o = value z -> o = Some z.
Proof. destruct o; [by intros [= ->]|done]. Qed.

(** The four byte writes of [shift_frame] put the two samples into frame
    [i] and touch no other frame. *)
Lemma write_frame_spec out i lt_out rt_out out1 out2 out3 out4 :
  0 <= i ->
  - 2 ^ 15 <= lt_out < 2 ^ 15 -> - 2 ^ 15 <= rt_out < 2 ^ 15 ->
  write_byte out (4 * i + 1) (Z.land (Z.shiftr lt_out 8) 255) = value out1 ->
  write_byte out1 (4 * i + 0) (Z.land lt_out 255) = value out2 ->
  write_byte out2 (4 * i + 3) (Z.land (Z.shiftr rt_out 8) 255) = value out3 ->
  write_byte out3 (4 * i + 2) (Z.land rt_out 255) = value out4 ->
  length out4 = length out /\
  frame out4 i = value (lt_out, rt_out) /\
  (forall k, 0 <= k -> k <> i -> frame out4 k = frame out k) /\
  (Forall (fun b => 0 <= b < 256) out -> Forall (fun b => 0 <= b < 256) out4).
Proof.
  intros Hi Hlt Hrt H1 H2 H3 H4.
  apply write_byte_value in H1 as [Ho1 ->].
  apply write_byte_value in H2 as [Ho2 ->].
  apply write_byte_value in H3 as [Ho3 ->].
  apply write_byte_value in H4 as [Ho4 ->].
  rewrite ?length_insert in *.
  destruct (sample_bytes_roundtrip lt_out Hlt) as (Hl0 & Hl1 & Hl).
  destruct (sample_bytes_roundtrip rt_out Hrt) as (Hr0 & Hr1 & Hr).
  split; [done|]. split; [|split].
  - unfold frame, read_sample.
    replace (4 * i + 2 + 1) with (4 * i + 3) by lia.
    replace (4 * i + 0) with (4 * i) in * by lia.
    rewrite (read_byte_insert_ne _ (4 * i + 2) (4 * i)) by lia.
    rewrite (read_byte_insert_ne _ (4 * i + 3) (4 * i)) by lia.
    rewrite (read_byte_insert_eq _ (4 * i)) by (rewrite ?length_insert; lia).
    rewrite (read_byte_insert_ne _ (4 * i + 2) (4 * i + 1)) by lia.
    rewrite (read_byte_insert_ne _ (4 * i + 3) (4 * i + 1)) by lia.
    rewrite (read_byte_insert_ne _ (4 * i) (4 * i + 1)) by lia.
    rewrite (read_byte_insert_eq _ (4 * i + 1)) by lia.
    rewrite (read_byte_insert_eq _ (4 * i + 2)) by (rewrite ?length_insert; lia).
    rewrite (read_byte_insert_ne _ (4 * i + 2) (4 * i + 3)) by lia.
    rewrite (read_byte_insert_eq _ (4 * i + 3)) by (rewrite ?length_insert; lia).
    cbn [mbind outcome_bind mret outcome_ret]. by rewrite Hl, Hr.
  - intros k Hk Hne. unfold frame, read_sample.
    replace (4 * i + 0) with (4 * i) in * by lia.
    rewrite !(read_byte_insert_ne _ (4 * i + 2)) by lia.
    rewrite !(read_byte_insert_ne _ (4 * i + 3)) by lia.
    rewrite !(read_byte_insert_ne _ (4 * i)) by lia.
    rewrite !(read_byte_insert_ne _ (4 * i + 1)) by lia.
    done.
  - intros Hbytes. repeat apply Forall_insert; done.
Qed.

(** What one pass of the [i] loop does. *)
Lemma shift_frame_spec s pitch_real out i out' :
  Forall (fun b => 0 <= b < 256) (abuf s) -> 0 <= i ->
  shift_frame s pitch_real out i = value out' ->
  length out' = length out /\
  (forall k, 0 <= k -> k <> i -> frame out' k = frame out k) /\
  exists begin end_ fs lt_out rt_out,
    window (alen s / 4) pitch_real i = value (begin, end_) /\
    frames_from (abuf s) begin (Z.to_nat (end_ - begin + 1)) = value fs /\
    mean_sample fs.*1 ((end_ - begin + 1) mod 2 ^ 32) = Some lt_out /\
    mean_sample fs.*2 ((end_ - begin + 1) mod 2 ^ 32) = Some rt_out /\
    frame out' i = value (lt_out, rt_out).
Proof.
  intros Hbytes Hi. unfold shift_frame.
  destruct (window (alen s / 4) pitch_real i) as [[begin end_]|] eqn:Hwin; [|done].
  cbn [mbind outcome_bind].
  rewrite sum_frames_frames_from by done.
  destruct (frames_from (abuf s) begin _) as [fs|] eqn:Hfs; [|done].
  cbn [mbind outcome_bind mret outcome_ret]. rewrite !Z.add_0_l.
  destruct (converted (to_int16 (fdiv (of_int (sum_Z fs.*1)) _))) as [lt_out|] eqn:Hlt;
    [|done].
  destruct (converted (to_int16 (fdiv (of_int (sum_Z fs.*2)) _))) as [rt_out|] eqn:Hrt;
    [|done].
  cbn [mbind outcome_bind].
  apply converted_value in Hlt, Hrt.
  destruct (write_byte out _ _) as [out1|] eqn:H1; [|done]. cbn [mbind outcome_bind].
  destruct (write_byte out1 _ _) as [out2|] eqn:H2; [|done]. cbn [mbind outcome_bind].
  destruct (write_byte out2 _ _) as [out3|] eqn:H3; [|done]. cbn [mbind outcome_bind].
  intros H4.
  assert (Hrange : forall x v, to_int16 x = Some v -> - 2 ^ 15 <= v < 2 ^ 15).
  { intros x v. unfold to_int16, to_int_range.
    destruct (truncate x) as [z|]; [|done].
    destruct (Z.leb_spec (- 2 ^ 15) z), (Z.leb_spec z (2 ^ 15 - 1)); simpl;
      intros [= <-] || done. lia. }
  destruct (write_frame_spec out i lt_out rt_out out1 out2 out3 out' Hi
              (Hrange _ _ Hlt) (Hrange _ _ Hrt) H1 H2 H3 H4) as (Hlen & Hfr & Hother & _).
  split; [done|]. split; [done|].
  by exists begin, end_, fs, lt_out, rt_out.
Qed.

(** What the [i] loop leaves in the output buffer. *)
Lemma shift_frames_spec s pitch_real : forall todo i out out',
  Forall (fun b => 0 <= b < 256) (abuf s) -> 0 <= i ->
  shift_frames s pitch_real todo i out = value out' ->
  length out' = length out /\
  (forall k, 0 <= k < i -> frame out' k = frame out k) /\
  (forall k, i <= k < i + Z.of_nat todo ->
     exists begin end_ fs lt_out rt_out,
       window (alen s / 4) pitch_real k = value (begin, end_) /\
       frames_from (abuf s) begin (Z.to_nat (end_ - begin + 1)) = value fs /\
       mean_sample fs.*1 ((end_ - begin + 1) mod 2 ^ 32) = Some lt_out /\
       mean_sample fs.*2 ((end_ - begin + 1) mod 2 ^ 32) = Some rt_out /\
       frame out' k = value (lt_out, rt_out)).
Proof.
  induction todo as [|todo IH]; intros i out out' Hbytes Hi Hrun.
  - simpl in Hrun. injection Hrun as <-. split; [done|]. split; [done|]. lia.
  - simpl in Hrun.
    destruct (shift_frame s pitch_real out i) as [out1|] eqn:Hframe; [|done].
    cbn [mbind outcome_bind] in Hrun.
    destruct (shift_frame_spec _ _ _ _ _ Hbytes Hi Hframe) as (Hlen1 & Hother1 & Hmine).
    destruct (IH (i + 1) out1 out' Hbytes ltac:(lia) Hrun) as (Hlen & Hbefore & Hafter).
    split; [congruence|]. split.
    + intros k Hk. rewrite Hbefore by lia. apply Hother1; lia.
    + intros k Hk. destruct (decide (k = i)) as [->|Hne].
      * destruct Hmine as (b & e & fs & l & r & Hw & Hfs & Hl & Hr & Hfr).
        exists b, e, fs, l, r. repeat split; try done.
        rewrite Hbefore by lia. done.
      * apply Hafter. lia.
Qed.

(** The loop is defined when each of its passes is. *)
Lemma shift_frames_defined s pitch_real : forall todo i out,
  (forall k out_k, i <= k < i + Z.of_nat todo -> length out_k = length out ->
     exists out', shift_frame s pitch_real out_k k = value out' /\
                  length out' = length out_k) ->
  exists out', shift_frames s pitch_real todo i out = value out'.
Proof.
  induction todo as [|todo IH]; intros i out Hpass.
  - by eexists.
  - simpl. destruct (Hpass i out) as (out1 & -> & Hlen1); [lia|done|].
    cbn [mbind outcome_bind].
    apply IH. intros k out_k Hk Hlen. apply Hpass; [lia|congruence].
Qed.

(** The [i] loop writes into the buffer it is given. *)
Lemma shift_frame_length s pitch_real out i out' :
  shift_frame s pitch_real out i = value out' -> length out' = length out.
Proof.
  unfold shift_frame.
  destruct (window _ _ _) as [[begin end_]|]; [|done]. cbn [mbind outcome_bind].
  destruct (sum_frames _ _ _ _ _) as [[lt_avg rt_avg]|]; [|done].
  cbn [mbind outcome_bind].
  destruct (converted (to_int16 (fdiv (of_int lt_avg) _))) as [lt_out|]; [|done].
  destruct (converted (to_int16 (fdiv (of_int rt_avg) _))) as [rt_out|]; [|done].
  cbn [mbind outcome_bind].
  destruct (write_byte out _ _) as [out1|] eqn:H1; [|done]. cbn [mbind outcome_bind].
  destruct (write_byte out1 _ _) as [out2|] eqn:H2; [|done]. cbn [mbind outcome_bind].
  destruct (write_byte out2 _ _) as [out3|] eqn:H3; [|done]. cbn [mbind outcome_bind].
  intros H4.
  apply write_byte_value in H1 as [_ ->], H2 as [_ ->], H3 as [_ ->], H4 as [_ ->].
  by rewrite !length_insert.
Qed.

Lemma shift_frames_defined_length s pitch_real : forall todo i out out',
  shift_frames s pitch_real todo i out = value out' -> length out' = length out.
Proof.
  induction todo as [|todo IH]; intros i out out' Hrun; simpl in Hrun.
  - by injection Hrun as <-.
  - destruct (shift_frame s pitch_real out i) as [out1|] eqn:Hframe; [|done].
    cbn [mbind outcome_bind] in Hrun.
    rewrite (IH _ _ _ Hrun). by eapply shift_frame_length.
Qed.

(** The header of [do_pitch_shift]. *)
Lemma do_pitch_shift_value s pitch r :
  do_pitch_shift s pitch = value r ->
  exists s_out out,
    to_uint32 (fmul (of_int (alen s / 4)) pitch) = Some s_out /\
    shift_frames s (fdiv (of_int s_out) (of_int (alen s / 4))) (Z.to_nat s_out) 0
      (replicate (Z.to_nat ((s_out * 4) mod 2 ^ 32)) 0) = value out /\
    r = mk_chunk 1 out ((s_out * 4) mod 2 ^ 32) (volume s).
Proof.
  unfold do_pitch_shift.
  destruct (converted (to_uint32 _)) as [s_out|] eqn:Hout; [|done].
  apply converted_value in Hout. cbn [mbind outcome_bind].
  destruct (shift_frames _ _ _ _ _) as [out|] eqn:Hrun; [|done].
  cbn [mbind outcome_bind mret outcome_ret]. intros [= <-].
  by exists s_out, out.
Qed.

Lemma to_uint32_range x z : to_uint32 x = Some z -> 0 <= z < 2 ^ 32.
Proof.
  unfold to_uint32, to_int_range. destruct (truncate x) as [t|]; [|done].
  destruct (Z.leb_spec 0 t), (Z.leb_spec t (2 ^ 32 - 1)); simpl; intros [= <-] || done.
  lia.
Qed.

(** Products and quotients that are representable are computed exactly. *)
Lemma fmul_exact a b g :
  a * b = g * unit -> representable g -> Z.abs g < overflow_threshold ->
  fmul (fin a) (fin b) = fin g.
Proof.
  intros Hab Hg Hlt. unfold fmul. rewrite Hab.
  apply round_exact; [apply unit_pos|done|done].
Qed.

Lemma fdiv_exact a b g :
  0 < b -> a * unit = g * b -> representable g -> Z.abs g < overflow_threshold ->
  fdiv (fin a) (fin b) = fin g.
Proof.
  intros Hb Hab Hg Hlt. unfold fdiv.
  destruct (Z.eqb_spec b 0); [lia|].
  rewrite Z.sgn_pos, Z.abs_eq by lia.
  replace (1 * a * unit) with (g * b) by lia.
  by apply round_exact.
Qed.

Lemma to_uint32_int k : 0 <= k < 2 ^ 32 -> to_uint32 (fin (k * unit)) = Some k.
Proof.
  intros Hk. unfold to_uint32, to_int_range, truncate.
  rewrite Z.quot_mul by (pose proof unit_pos; lia).
  destruct (Z.leb_spec 0 k), (Z.leb_spec k (2 ^ 32 - 1)); simpl; done || lia.
Qed.

Lemma to_int16_int k : - 2 ^ 15 <= k < 2 ^ 15 -> to_int16 (fin (k * unit)) = Some k.
Proof.
  intros Hk. unfold to_int16, to_int_range, truncate.
  rewrite Z.quot_mul by (pose proof unit_pos; lia).
  destruct (Z.leb_spec (- 2 ^ 15) k), (Z.leb_spec k (2 ^ 15 - 1)); simpl; done || lia.
Qed.

(** The mean of one sample is the sample. *)
Lemma mean_sample_one a : - 2 ^ 15 <= a < 2 ^ 15 -> mean_sample [a] 1 = Some a.
Proof.
  intros Ha. unfold mean_sample, sum_Z. simpl foldr. rewrite Z.add_0_r.
  rewrite (of_int_exact a), (of_int_exact 1) by lia.
  rewrite (fdiv_exact _ _ (a * unit)); [by apply to_int16_int| | |
    apply representable_int_unit; lia|unfold overflow_threshold, unit; lia].
  - unfold unit. lia.
  - lia.
Qed.

(** The mean of two samples is half their sum, truncated toward zero. *)
Lemma mean_sample_two a b :
  - 2 ^ 15 <= a < 2 ^ 15 -> - 2 ^ 15 <= b < 2 ^ 15 ->
  mean_sample [a; b] 2 = Some ((a + b) ÷ 2).
Proof.
  intros Ha Hb. unfold mean_sample, sum_Z. simpl foldr. rewrite Z.add_0_r.
  rewrite (of_int_exact (a + b)), (of_int_exact 2) by lia.
  rewrite (fdiv_exact _ _ ((a + b) * 2 ^ 148));
    [| unfold unit; lia | unfold unit; lia | apply representable_small; lia |
     unfold overflow_threshold; lia].
  unfold to_int16, to_int_range, truncate.
  change unit with (2 * 2 ^ 148).
  rewrite Z.quot_mul_cancel_r by lia.
  assert (- 2 ^ 15 <= (a + b) ÷ 2 <= 2 ^ 15 - 1).
  { split.
    - rewrite <- (Z.quot_mul (- 2 ^ 15) 2) by lia. apply Z.quot_le_mono; lia.
    - assert ((a + b) ÷ 2 <= (2 ^ 16 - 2) ÷ 2) by (apply Z.quot_le_mono; lia).
      assert ((2 ^ 16 - 2) ÷ 2 = 2 ^ 15 - 1) by reflexivity. lia. }
  destruct (Z.leb_spec (- 2 ^ 15) ((a + b) ÷ 2)),
           (Z.leb_spec ((a + b) ÷ 2) (2 ^ 15 - 1)); simpl; done || lia.
Qed.

(** A frame of a well-formed chunk. *)
Lemma frame_ok c k :
  chunk_wf c -> 0 <= k < alen c / 4 ->
  exists a b, frame (abuf c) k = value (a, b) /\
              - 2 ^ 15 <= a < 2 ^ 15 /\ - 2 ^ 15 <= b < 2 ^ 15.
Proof.
  intros Hwf Hk.
  destruct (num_source_samples_bounds _ Hwf) as [_ Hlen].
  destruct Hwf as (_ & _ & Hbytes). unfold frame.
  destruct (read_sample_ok (abuf c) (4 * k) Hbytes) as (a & -> & Ha); [lia|lia|].
  destruct (read_sample_ok (abuf c) (4 * k + 2) Hbytes) as (b & -> & Hb); [lia|lia|].
  by exists a, b.
Qed.

(** The window of output frame [i] at pitch 1: frame [i] and its
    successor, or frame [i] alone at the end. *)
Lemma window_at_pitch_one n i :
  0 <= i < n -> n <= 2 ^ 24 ->
  window n one i = value (i, if decide (i + 1 = n) then i else i + 1).
Proof.
  intros Hi Hn. unfold window.
  rewrite (of_int_exact i), (of_int_exact (i + 1)) by lia.
  unfold one.
  rewrite (fdiv_exact (i * unit) unit (i * unit));
    [|apply unit_pos|lia|apply representable_int_unit; lia|
     unfold overflow_threshold, unit; lia].
  rewrite (fdiv_exact ((i + 1) * unit) unit ((i + 1) * unit));
    [|apply unit_pos|lia|apply representable_int_unit; lia|
     unfold overflow_threshold, unit; lia].
  rewrite !to_uint32_int by lia.
  cbn [converted mbind outcome_bind mret outcome_ret].
  f_equal. f_equal. repeat case_decide; lia.
Qed.

(** The frames of the window of output frame [i] at pitch 1. *)
Lemma window_frames_at_pitch_one s i :
  chunk_wf s -> 0 <= i < alen s / 4 ->
  let end_ := if decide (i + 1 = alen s / 4) then i else i + 1 in
  exists fs lt_out rt_out,
    frames_from (abuf s) i (Z.to_nat (end_ - i + 1)) = value fs /\
    mean_sample fs.*1 ((end_ - i + 1) mod 2 ^ 32) = Some lt_out /\
    mean_sample fs.*2 ((end_ - i + 1) mod 2 ^ 32) = Some rt_out /\
    exists a b, frame (abuf s) i = value (a, b) /\
      (i + 1 = alen s / 4 -> lt_out = a /\ rt_out = b) /\
      (i + 1 < alen s / 4 ->
         exists a' b', frame (abuf s) (i + 1) = value (a', b') /\
                       lt_out = (a + a') ÷ 2 /\ rt_out = (b + b') ÷ 2).
Proof.
  intros Hwf Hi end_.
  destruct (frame_ok s i Hwf Hi) as (a & b & Hf & Ha & Hb).
  unfold end_. case_decide as Hend.
  - replace (i - i + 1) with 1 by lia. simpl frames_from. rewrite Hf.
    cbn [mbind outcome_bind mret outcome_ret].
    exists [(a, b)], a, b. split; [done|].
    change (1 mod 2 ^ 32) with 1. cbn [fmap list_fmap fst snd].
    rewrite !mean_sample_one by done.
    split; [done|]. split; [done|]. exists a, b. split; [done|]. split; [done|lia].
  - destruct (frame_ok s (i + 1) Hwf ltac:(lia)) as (a' & b' & Hf' & Ha' & Hb').
    replace (i + 1 - i + 1) with 2 by lia. simpl frames_from. rewrite Hf, Hf'.
    cbn [mbind outcome_bind mret outcome_ret].
    exists [(a, b); (a', b')], ((a + a') ÷ 2), ((b + b') ÷ 2). split; [done|].
    change (2 mod 2 ^ 32) with 2. cbn [fmap list_fmap fst snd].
    rewrite !mean_sample_two by done.
    split; [done|]. split; [done|]. exists a, b. split; [done|]. split; [lia|].
    intros _. by exists a', b'.
Qed.

(** Each pass of the [i] loop at pitch 1 is defined. *)
Lemma shift_frame_at_pitch_one s out i :
  chunk_wf s -> alen s / 4 <= 2 ^ 24 -> 0 <= i < alen s / 4 ->
  Z.of_nat (length out) = 4 * (alen s / 4) ->
  exists out', shift_frame s one out i = value out' /\ length out' = length out.
Proof.
  intros Hwf Hn Hi Hlen.
  destruct (window_frames_at_pitch_one s i Hwf Hi) as (fs & l & r & Hfs & Hl & Hr & _).
  unfold shift_frame. rewrite window_at_pitch_one by lia.
  cbn [mbind outcome_bind].
  rewrite sum_frames_frames_from by apply Hwf.
  rewrite Hfs. cbn [mbind outcome_bind mret outcome_ret].
  rewrite !Z.add_0_l. unfold mean_sample in Hl, Hr. rewrite Hl, Hr.
  cbn [converted mbind outcome_bind].
  destruct (write_byte_ok out (4 * i + 1) (Z.land (Z.shiftr l 8) 255))
    as (o1 & -> & H1); [lia|]. cbn [mbind outcome_bind].
  destruct (write_byte_ok o1 (4 * i + 0) (Z.land l 255)) as (o2 & -> & H2); [lia|].
  cbn [mbind outcome_bind].
  destruct (write_byte_ok o2 (4 * i + 3) (Z.land (Z.shiftr r 8) 255))
    as (o3 & -> & H3); [lia|]. cbn [mbind outcome_bind].
  destruct (write_byte_ok o3 (4 * i + 2) (Z.land r 255)) as (o4 & -> & H4); [lia|].
  exists o4. split; [done|congruence].
Qed.

Lemma pitch_one_header n :
  0 <= n <= 2 ^ 24 ->
  to_uint32 (fmul (of_int n) one) = Some n /\
  (0 < n -> fdiv (of_int n) (of_int n) = one).
Proof.
  intros Hn. rewrite of_int_exact by lia. split.
  - unfold one. rewrite (fmul_exact _ _ (n * unit));
      [apply to_uint32_int; lia|done|apply representable_int_unit; lia|
       unfold overflow_threshold, unit; lia].
  - intros Hpos. unfold one. apply fdiv_exact;
      [pose proof unit_pos; nia|lia|apply (representable_pow2_unit 0); lia|
       unfold overflow_threshold, unit; lia].
Qed.

(** At pitch 1 the call is defined, the output has as many frames as the
    input, and each output frame is the truncated mean of the input
    frame and its successor, the last input frame being copied. *)
Lemma do_pitch_shift_at_pitch_one s :
  chunk_wf s -> alen s / 4 <= 2 ^ 24 ->
  exists r,
    do_pitch_shift s one = value r /\
    alen r = 4 * (alen s / 4) /\
    forall i, 0 <= i < alen s / 4 ->
      exists a b, frame (abuf s) i = value (a, b) /\
        (i + 1 = alen s / 4 -> frame (abuf r) i = value (a, b)) /\
        (i + 1 < alen s / 4 ->
           exists a' b', frame (abuf s) (i + 1) = value (a', b') /\
             frame (abuf r) i = value ((a + a') ÷ 2, (b + b') ÷ 2)).
Proof.
  intros Hwf Hn.
  destruct (num_source_samples_bounds _ Hwf) as [[Hn0 _] _].
  set (n := alen s / 4) in *.
  destruct (pitch_one_header n ltac:(lia)) as [Hout Hreal].
  unfold do_pitch_shift. fold n. rewrite Hout.
  cbn [converted mbind outcome_bind].
  assert (Hmod : (n * 4) mod 2 ^ 32 = 4 * n) by (rewrite Z.mod_small; lia).
  rewrite Hmod.
  destruct (decide (n = 0)) as [Hz|Hnz].
  { rewrite Hz. simpl. eexists. split; [done|]. split; [done|]. lia. }
  rewrite Hreal by lia.
  destruct (shift_frames_defined s one (Z.to_nat n) 0 (replicate (Z.to_nat (4 * n)) 0))
    as [out Hrun].
  { intros k out_k Hk Hlen. apply shift_frame_at_pitch_one; try done; fold n; [lia|].
    rewrite Hlen, length_replicate. lia. }
  rewrite Hrun. cbn [mbind outcome_bind mret outcome_ret].
  eexists. split; [done|]. split; [done|]. simpl abuf.
  destruct (shift_frames_spec s one (Z.to_nat n) 0 _ out ltac:(apply Hwf) ltac:(lia) Hrun)
    as (_ & _ & Hframes).
  intros i Hi.
  destruct (Hframes i ltac:(lia)) as (b0 & e0 & fs & l & r & Hw & Hfs & Hl & Hr & Hfr).
  rewrite window_at_pitch_one in Hw by (fold n; lia). injection Hw as <- <-.
  destruct (window_frames_at_pitch_one s i Hwf Hi)
    as (fs' & l' & r' & Hfs' & Hl' & Hr' & a & b & Hf & Hlast & Hpair).
  subst n.
  rewrite Hfs in Hfs'. injection Hfs' as <-.
  rewrite Hl in Hl'. rewrite Hr in Hr'. injection Hl' as <-. injection Hr' as <-.
  exists a, b. split; [done|]. split.
  - intros Hend. destruct (Hlast Hend) as [-> ->]. done.
  - intros Hmore. destruct (Hpair Hmore) as (a' & b' & Hf' & -> & ->).
    by exists a', b'.
Qed.




(** C7, as stated, fails: at pitch 1 the windows hold two samples, and
    the output is not the input.  Of two frames (100, -7) and (300, 9)
    the first output frame is their mean (200, 1): its window is the
    index range 0 .. 1. *)
Lemma pitch_one_is_not_the_identity :
  exists r,
    do_pitch_shift two_frames one = value r /\
    window (alen two_frames / 4) one 0 = value (0, 1) /\
    frame (abuf two_frames) 0 = value (100, -7) /\
    frame (abuf r) 0 = value (200, 1).
Proof. eexists. split; [by vm_compute|]. repeat split; by vm_compute. Qed.

(** C7 (amended).  Whenever [do_pitch_shift] is defined, output frame i
    holds, per channel, the mean of the input samples of the frames
    [begin .. end], both ends included, where [begin] is i divided by the
    realised ratio s_out / s_in and [end] is i + 1 divided by it (both
    in single precision, truncated), [end] being replaced by [begin]
    when it is not below the number of input frames; the mean is the
    single-precision quotient of the sum by [end - begin + 1], truncated
    toward zero.  At pitch 1, for a well-formed source of at most 2^24
    frames, the call is defined, the output has as many frames as the
    input, every output frame but the last is the truncated mean of the
    input frame and its successor, and the last is the last input
    frame. *)
Theorem pitch_shift_window_mean (s : Mix_Chunk) :
  Forall (fun b => 0 <= b < 256) (abuf s) ->
  (forall pitch r,
     do_pitch_shift s pitch = value r ->
     exists s_out,
       to_uint32 (fmul (of_int (alen s / 4)) pitch) = Some s_out /\
       forall i, 0 <= i < s_out ->
         exists begin end_ fs lt_out rt_out,
           window (alen s / 4) (fdiv (of_int s_out) (of_int (alen s / 4))) i
             = value (begin, end_) /\
           frames_from (abuf s) begin (Z.to_nat (end_ - begin + 1)) = value fs /\
           mean_sample fs.*1 ((end_ - begin + 1) mod 2 ^ 32) = Some lt_out /\
           mean_sample fs.*2 ((end_ - begin + 1) mod 2 ^ 32) = Some rt_out /\
           frame (abuf r) i = value (lt_out, rt_out)) /\
  (chunk_wf s -> alen s / 4 <= 2 ^ 24 ->
   exists r,
     do_pitch_shift s one = value r /\
     alen r = 4 * (alen s / 4) /\
     forall i, 0 <= i < alen s / 4 ->
       exists a b, frame (abuf s) i = value (a, b) /\
         (i + 1 = alen s / 4 -> frame (abuf r) i = value (a, b)) /\
         (i + 1 < alen s / 4 ->
            exists a' b', frame (abuf s) (i + 1) = value (a', b') /\
              frame (abuf r) i = value ((a + a') ÷ 2, (b + b') ÷ 2))).
Proof.
  intros Hbytes. split.
  - intros pitch r Hrun.
    destruct (do_pitch_shift_value _ _ _ Hrun) as (s_out & out & Hout & Hframes & ->).
    exists s_out. split; [done|]. intros i Hi. simpl abuf.
    destruct (shift_frames_spec s _ _ _ _ _ Hbytes (Z.le_refl 0) Hframes)
      as (_ & _ & Hspec).
    apply Hspec. lia.
  - apply do_pitch_shift_at_pitch_one.
Qed.

(** Witness for [pitch_shift_window_mean]: the source of two frames. *)
Lemma pitch_shift_window_mean_witness :
  (forall pitch r,
     do_pitch_shift two_frames pitch = value r ->
     exists s_out,
       to_uint32 (fmul (of_int (alen two_frames / 4)) pitch) = Some s_out /\
       forall i, 0 <= i < s_out ->
         exists begin end_ fs lt_out rt_out,
           window (alen two_frames / 4)
             (fdiv (of_int s_out) (of_int (alen two_frames / 4))) i
             = value (begin, end_) /\
           frames_from (abuf two_frames) begin (Z.to_nat (end_ - begin + 1)) = value fs /\
           mean_sample fs.*1 ((end_ - begin + 1) mod 2 ^ 32) = Some lt_out /\
           mean_sample fs.*2 ((end_ - begin + 1) mod 2 ^ 32) = Some rt_out /\
           frame (abuf r) i = value (lt_out, rt_out)) /\
  (chunk_wf two_frames -> alen two_frames / 4 <= 2 ^ 24 ->
   exists r,
     do_pitch_shift two_frames one = value r /\
     alen r = 4 * (alen two_frames / 4) /\
     forall i, 0 <= i < alen two_frames / 4 ->
       exists a b, frame (abuf two_frames) i = value (a, b) /\
         (i + 1 = alen two_frames / 4 -> frame (abuf r) i = value (a, b)) /\
         (i + 1 < alen two_frames / 4 ->
            exists a' b', frame (abuf two_frames) (i + 1) = value (a', b') /\
              frame (abuf r) i = value ((a + a') ÷ 2, (b + b') ÷ 2))).
Proof.
  apply (pitch_shift_window_mean two_frames).
  apply (bool_decide_unpack _). vm_compute. reflexivity.
Defined.

(** For very long outputs the window can leave the source: with three
    input frames and a pitch of 2^23 the index of the last output frame
    converts to a float one too large, and its window starts at frame 3. *)
Lemma window_can_leave_the_source :
  window 3 (fdiv (of_int (3 * 2 ^ 23)) (of_int 3)) (3 * 2 ^ 23 - 1) = value (3, 3) /\
  forall out,
    shift_frame (chunk_of_frames [(1, 1); (2, 2); (3, 3)])
      (fdiv (of_int (3 * 2 ^ 23)) (of_int 3)) out (3 * 2 ^ 23 - 1)
    = undefined out_of_bounds.
Proof. split; [by vm_compute|]. intros out. by vm_compute. Qed.

End PitchFacts.

(** * A voice through its callbacks *)

Section TraversalFacts.
Import F32 Audio.


Lemma code_speed_ok (time_slowed : bool) :
  speed_ok (if time_slowed then sound_speed_factor else one).
Proof.
  destruct time_slowed; eexists; (split; [reflexivity|]); (split; [by vm_compute|]);
    reflexivity.
Qed.

Lemma fmul_one_code_speed (time_slowed : bool) :
  fmul one (if time_slowed then sound_speed_factor else one)
  = fin (quarters time_slowed * 2 ^ 147).
Proof. destruct time_slowed; by vm_compute. Qed.

(** The handler a frame leaves is the one [advance] computes. *)
Lemma produce_frame_handler speed n dst stream h stream' h' :
  produce_frame speed n dst stream h = value (stream', h') -> h' = advance speed n h.
Proof.
  unfold produce_frame.
  destruct (converted (to_int32 (floor _))); [|done]. cbn [mbind outcome_bind].
  destruct (converted (to_int32 (ceil _))); [|done]. cbn [mbind outcome_bind].
  destruct (interpolate_ear _ _ _ 0); [|done]. cbn [mbind outcome_bind].
  destruct (write_sample _ _ _); [|done]. cbn [mbind outcome_bind].
  destruct (interpolate_ear _ _ _ 2); [|done]. cbn [mbind outcome_bind].
  destruct (write_sample _ _ _); [|done]. cbn [mbind outcome_bind mret outcome_ret].
  by intros [= _ <-].
Qed.

(** C3, evaluated where the code departs from it.  The position is a
    [float]: at 2^24 (a source of more than 2^24 frames played at speed
    1) adding 1 gives 2^24 again, and at 2^22 (a source of more than
    2^22 frames while time is slowed) adding 0.25 gives 2^22 again.  A
    frame is produced, the position has not advanced by the multiplier,
    and the end of the source is never reached. *)
Theorem position_stalls_on_long_sources (src : Mix_Chunk) (owns : bool) (loops : Z) :
  advance one (2 ^ 24 + 2) (mk_handler src true owns (of_int (2 ^ 24)) loops)
  = mk_handler src true owns (of_int (2 ^ 24)) loops /\
  advance sound_speed_factor (2 ^ 22 + 1)
    (mk_handler src true owns (of_int (2 ^ 22)) loops)
  = mk_handler src true owns (of_int (2 ^ 22)) loops.
Proof.
  unfold advance, set_position.
  cbn [current_sample_index loops_remaining audio_src active owns_audio].
  assert (H1 : fadd (of_int (2 ^ 24)) (fmul one one) = of_int (2 ^ 24))
    by (vm_compute; reflexivity).
  assert (H2 : fge (of_int (2 ^ 24)) (of_int (2 ^ 24 + 2)) = false)
    by (vm_compute; reflexivity).
  assert (H3 : fadd (of_int (2 ^ 22)) (fmul one sound_speed_factor) = of_int (2 ^ 22))
    by (vm_compute; reflexivity).
  assert (H4 : fge (of_int (2 ^ 22)) (of_int (2 ^ 22 + 1)) = false)
    by (vm_compute; reflexivity).
  rewrite H1, H2, H3, H4, !andb_false_r. split; reflexivity.
Qed.

(** Below 2^24 a representable position has room for one more frame. *)
Lemma room_below_2_24 i :
  0 <= i < 2 ^ 24 * unit -> representable i -> i + unit <= 2 ^ 24 * unit.
Proof.
  intros Hi Hrep. pose proof unit_pos as Hu.
  destruct (Z_lt_le_dec i (2 ^ 23 * unit)) as [|Hbig]; [lia|].
  assert (Hg : 149 <= grid_exp i).
  { apply grid_exp_of_bounds; [lia|]. etransitivity; [|exact Hbig]. reflexivity. }
  assert (Hm : i mod unit = 0).
  { apply mod_pow2_multiple with (j := grid_exp i); [lia|].
    apply representable_nonneg; [lia|exact Hrep]. }
  apply Z.div_exact in Hm; [|lia].
  assert (i / unit < 2 ^ 24) by (apply Z.div_lt_upper_bound; lia).
  nia.
Qed.

Lemma of_int_long : of_int (2 ^ 24 + 2) = fin ((2 ^ 24 + 2) * unit).
Proof. vm_compute. reflexivity. Qed.

(** On a source of 2^24 + 2 frames the position never passes 2^24, and
    so never reaches the end. *)
Lemma advance_long_source (time_slowed : bool) h i :
  current_sample_index h = fin i -> 0 <= i <= 2 ^ 24 * unit -> representable i ->
  exists i',
    advance (if time_slowed then sound_speed_factor else one) (2 ^ 24 + 2) h
    = set_position h (fin i') (loops_remaining h) /\
    0 <= i' <= 2 ^ 24 * unit /\ representable i'.
Proof.
  intros Hidx Hi Hrep. pose proof unit_pos as Hu.
  unfold advance. rewrite Hidx, fmul_one_code_speed, of_int_long.
  unfold fadd.
  assert (Hq : 0 < quarters time_slowed * 2 ^ 147 <= unit)
    by (destruct time_slowed; vm_compute; split; congruence).
  assert (exists i', round (i + quarters time_slowed * 2 ^ 147) 1 = fin i' /\
                     0 <= i' <= 2 ^ 24 * unit /\ representable i') as (i' & -> & Hi' & Hrep').
  { destruct (decide (i = 2 ^ 24 * unit)) as [->|Hne].
    - exists (2 ^ 24 * unit).
      split; [destruct time_slowed; vm_compute; reflexivity|].
      split; [lia|apply representable_pow2_unit; lia].
    - pose proof (room_below_2_24 i ltac:(lia) Hrep).
      apply round_between_1;
        [apply representable_0|apply representable_pow2_unit; lia|lia|
         unfold overflow_threshold; lia|unfold overflow_threshold, unit; lia]. }
  exists i'. split; [|split; assumption].
  assert (Hge : fge (fin i') (fin ((2 ^ 24 + 2) * unit)) = false).
  { unfold fge, flt. destruct (Z.ltb_spec i' ((2 ^ 24 + 2) * unit)); [reflexivity|lia]. }
  rewrite Hge, andb_false_r. reflexivity.
Qed.

Lemma resample_S todo speed n dst stream h :
  resample (S todo) speed n dst stream h =
  if flt (current_sample_index h) (of_int n)
  then '(stream', h') ← produce_frame speed n dst stream h;
       resample todo speed n (dst + 1) stream' h'
  else value (stream, h).
Proof. reflexivity. Qed.

(** The loop on such a source produces every frame of the buffer and
    leaves the loop count alone. *)
Lemma resample_long_source (time_slowed : bool) : forall todo dst stream h i,
  chunk_wf (audio_src h) -> alen (audio_src h) / 4 = 2 ^ 24 + 2 ->
  current_sample_index h = fin i -> 0 <= i <= 2 ^ 24 * unit -> representable i ->
  0 <= dst -> (dst + Z.of_nat todo) * 4 <= Z.of_nat (length stream) ->
  exists stream' h' i',
    resample todo (if time_slowed then sound_speed_factor else one) (2 ^ 24 + 2)
      dst stream h = value (stream', h') /\
    audio_src h' = audio_src h /\ loops_remaining h' = loops_remaining h /\
    current_sample_index h' = fin i' /\ 0 <= i' <= 2 ^ 24 * unit /\ representable i'.
Proof.
  induction todo as [|todo IH]; intros dst stream h i Hwf Hn Hidx Hi Hrep Hdst Hroom.
  - exists stream, h, i. repeat split; assumption || reflexivity || lia.
  - rewrite resample_S.
    assert (Hguard : flt (current_sample_index h) (of_int (2 ^ 24 + 2)) = true).
    { rewrite Hidx, of_int_long. unfold flt. apply Z.ltb_lt.
      pose proof unit_pos. lia. }
    rewrite Hguard.
    destruct (produce_frame_ok (if time_slowed then sound_speed_factor else one)
                dst stream h Hwf) as (s1 & h1 & Hframe & _ & _ & Hlen1 & _);
      [exists i; repeat split; assumption || lia|apply code_speed_ok|
       rewrite Hn; exact Hguard|exact Hdst|lia|].
    rewrite Hn in Hframe. rewrite Hframe. cbn [mbind outcome_bind].
    apply produce_frame_handler in Hframe.
    destruct (advance_long_source time_slowed h i Hidx Hi Hrep) as (i1 & Hadv & Hi1 & Hrep1).
    rewrite Hadv in Hframe. subst h1.
    destruct (IH (dst + 1) s1 (set_position h (fin i1) (loops_remaining h)) i1)
      as (s2 & h2 & i2 & Hrun & Hsrc & Hloops & Hidx2 & Hi2 & Hrep2);
      [exact Hwf|exact Hn|reflexivity|exact Hi1|exact Hrep1|lia|rewrite Hlen1; lia|].
    rewrite Hrun. exists s2, h2, i2. repeat split; assumption || lia.
Qed.

(** A voice on such a source is never halted by its own loop count,
    whatever the sequence of callbacks. *)
Lemma run_callbacks_long_source : forall calls h i,
  chunk_wf (audio_src h) -> alen (audio_src h) / 4 = 2 ^ 24 + 2 ->
  current_sample_index h = fin i -> 0 <= i <= 2 ^ 24 * unit -> representable i ->
  0 <= loops_remaining h ->
  exists h',
    run_callbacks calls h = value (h', false) /\
    loops_remaining h' = loops_remaining h.
Proof.
  induction calls as [|[time_slowed stream] calls IH];
    intros h i Hwf Hn Hidx Hi Hrep Hloops.
  - exists h. split; reflexivity.
  - cbn [run_callbacks].
    unfold slowed_time_effect, slowed_time_effect_at, bytes_per_sample.
    destruct (decide (loops_remaining h >= 0)) as [_|]; [|lia].
    rewrite Hn.
    destruct (resample_long_source time_slowed
                (Z.to_nat (Z.of_nat (length stream) ÷ 4)) 0 stream h i)
      as (s' & h' & i' & Hrun & Hsrc & Hl & Hidx' & Hi' & Hrep'); try assumption; [lia| |].
    { rewrite Z.quot_div_nonneg by lia.
      pose proof (Z.mul_div_le (Z.of_nat (length stream)) 4 ltac:(lia)).
      assert (0 <= Z.of_nat (length stream) / 4) by (apply Z.div_pos; lia). lia. }
    rewrite Hrun. cbn [mbind outcome_bind mret outcome_ret halt_requested out_handler].
    rewrite bool_decide_eq_false_2 by lia.
    destruct (IH h' i') as (h'' & Hrest & Hl''); try assumption;
      [rewrite Hsrc; exact Hwf|rewrite Hsrc; exact Hn|lia|].
    exists h''. split; [exact Hrest|lia].
Qed.

Lemma quarters_range (time_slowed : bool) : 1 <= quarters time_slowed <= 4.
Proof. destruct time_slowed; unfold quarters; lia. Qed.

Lemma at_quarter_representable k : 0 <= k <= 2 ^ 24 -> representable (k * 2 ^ 147).
Proof. intros. apply representable_small; lia. Qed.

(** On a source of fewer than 2^22 frames, positions are whole quarters
    and a step is exact: the position advances by the multiplier, and
    at the end of the source one loop is counted down and the position
    wraps with its fraction kept. *)
Lemma advance_exact (time_slowed : bool) n h k :
  0 < n < 2 ^ 22 -> current_sample_index h = at_quarter k -> 0 <= k < 4 * n ->
  advance (if time_slowed then sound_speed_factor else one) n h =
  if decide (0 <= loops_remaining h /\ 4 * n <= k + quarters time_slowed)
  then set_position h (at_quarter (k + quarters time_slowed - 4 * n))
         (loops_remaining h - 1)
  else set_position h (at_quarter (k + quarters time_slowed)) (loops_remaining h).
Proof.
  intros Hn Hidx Hk. pose proof (quarters_range time_slowed) as Hq.
  unfold advance. rewrite Hidx, fmul_one_code_speed. unfold at_quarter, fadd.
  replace (k * 2 ^ 147 + quarters time_slowed * 2 ^ 147)
    with ((k + quarters time_slowed) * 2 ^ 147) by lia.
  rewrite round_exact_1;
    [|apply at_quarter_representable; lia|unfold overflow_threshold; lia].
  rewrite (of_int_exact n) by lia.
  assert (Hunit : n * unit = 4 * n * 2 ^ 147) by (unfold unit; lia).
  rewrite Hunit. unfold fge, flt, fmodf.
  destruct (Z.eqb_spec (4 * n * 2 ^ 147) 0) as [|_]; [lia|].
  destruct (Z.ltb_spec ((k + quarters time_slowed) * 2 ^ 147) (4 * n * 2 ^ 147))
    as [Hlt|Hge]; cbn [negb].
  - rewrite andb_false_r. case_decide as Hd; [lia|reflexivity].
  - rewrite andb_true_r. case_bool_decide as Hl; case_decide as Hd; try lia.
    + rewrite Z.rem_mod_nonneg by lia.
      rewrite Z.mul_mod_distr_r by lia.
      replace ((k + quarters time_slowed) mod (4 * n))
        with (k + quarters time_slowed - 4 * n); [reflexivity|].
      apply Z.mod_unique with (q := 1); lia.
    + reflexivity.
Qed.

Lemma at_quarter_position_ok h k :
  current_sample_index h = at_quarter k -> 0 <= k <= 2 ^ 24 -> position_ok h.
Proof.
  intros Hidx Hk. exists (k * 2 ^ 147). split; [exact Hidx|].
  split; [lia|by apply at_quarter_representable].
Qed.

(** One step of a voice that has advanced [P] quarters in all, on a
    source of [n] frames with [L] loops to play after the first. *)
Lemma advance_on_track (time_slowed : bool) n L h P :
  0 < n < 2 ^ 22 -> 0 <= P < (L + 1) * (4 * n) ->
  current_sample_index h = at_quarter (P mod (4 * n)) ->
  loops_remaining h = L - P / (4 * n) ->
  let P' := P + quarters time_slowed in
  let h' := advance (if time_slowed then sound_speed_factor else one) n h in
  audio_src h' = audio_src h /\
  (P' < (L + 1) * (4 * n) ->
     current_sample_index h' = at_quarter (P' mod (4 * n)) /\
     loops_remaining h' = L - P' / (4 * n)) /\
  ((L + 1) * (4 * n) <= P' -> loops_remaining h' = -1).
Proof.
  intros Hn HP Hidx Hloops P' h'. pose proof (quarters_range time_slowed) as Hq.
  pose proof (Z.mod_pos_bound P (4 * n) ltac:(lia)) as Hmod.
  pose proof (Z.div_mod P (4 * n) ltac:(lia)) as Hdm.
  assert (Hdiv : 0 <= P / (4 * n) <= L).
  { split; [apply Z.div_pos; lia|].
    assert (P / (4 * n) < L + 1); [apply Z.div_lt_upper_bound; lia|lia]. }
  unfold h'. rewrite (advance_exact time_slowed n h (P mod (4 * n))) by assumption.
  case_decide as Hd.
  - (* the end of the source is passed *)
    cbn [set_position audio_src current_sample_index loops_remaining].
    assert (Hdiv' : P' / (4 * n) = P / (4 * n) + 1).
    { symmetry. apply Z.div_unique with (r := P mod (4 * n) + quarters time_slowed - 4 * n);
        [lia|unfold P'; lia]. }
    assert (Hmod' : P' mod (4 * n) = P mod (4 * n) + quarters time_slowed - 4 * n).
    { symmetry. apply Z.mod_unique with (q := P / (4 * n) + 1); [lia|unfold P'; lia]. }
    split; [reflexivity|]. split.
    + intros _. rewrite Hmod', Hdiv'. split; [reflexivity|lia].
    + intros Hend.
      assert (P / (4 * n) = L); [|lia].
      assert (L * (4 * n) <= P); [unfold P' in Hend; nia|].
      assert (L <= P / (4 * n)); [apply Z.div_le_lower_bound; lia|lia].
  - cbn [set_position audio_src current_sample_index loops_remaining].
    assert (Hin : P mod (4 * n) + quarters time_slowed < 4 * n) by lia.
    assert (Hdiv' : P' / (4 * n) = P / (4 * n)).
    { symmetry. apply Z.div_unique with (r := P mod (4 * n) + quarters time_slowed);
        [lia|unfold P'; lia]. }
    assert (Hmod' : P' mod (4 * n) = P mod (4 * n) + quarters time_slowed).
    { symmetry. apply Z.mod_unique with (q := P / (4 * n)); [lia|unfold P'; lia]. }
    split; [reflexivity|]. split.
    + intros _. rewrite Hmod', Hdiv'. split; [reflexivity|lia].
    + intros Hend. exfalso. unfold P' in Hend. nia.
Qed.

(** The loop of one call, for a voice that has advanced [P] quarters. *)
Lemma resample_on_track (time_slowed : bool) n L : forall todo dst stream h P,
  chunk_wf (audio_src h) -> alen (audio_src h) / 4 = n ->
  0 < n < 2 ^ 22 -> 0 <= P < (L + 1) * (4 * n) ->
  current_sample_index h = at_quarter (P mod (4 * n)) ->
  loops_remaining h = L - P / (4 * n) ->
  0 <= dst -> (dst + Z.of_nat todo) * 4 <= Z.of_nat (length stream) ->
  exists stream' h',
    resample todo (if time_slowed then sound_speed_factor else one) n dst stream h
      = value (stream', h') /\
    audio_src h' = audio_src h /\
    (P + Z.of_nat todo * quarters time_slowed < (L + 1) * (4 * n) ->
       current_sample_index h'
         = at_quarter ((P + Z.of_nat todo * quarters time_slowed) mod (4 * n)) /\
       loops_remaining h' = L - (P + Z.of_nat todo * quarters time_slowed) / (4 * n)) /\
    ((L + 1) * (4 * n) <= P + Z.of_nat todo * quarters time_slowed ->
       loops_remaining h' = -1).
Proof.
  induction todo as [|todo IH]; intros dst stream h P Hwf Hsrc Hn HP Hidx Hloops Hdst Hroom.
  - exists stream, h. split; [reflexivity|]. split; [reflexivity|].
    rewrite Z.mul_0_l, Z.add_0_r. split; [tauto|]. intros Hend. exfalso. lia.
  - pose proof (quarters_range time_slowed) as Hq.
    pose proof (Z.mod_pos_bound P (4 * n) ltac:(lia)) as Hmod.
    assert (Hpos : position_ok h).
    { eapply at_quarter_position_ok; [exact Hidx|]. lia. }
    assert (Hguard : flt (current_sample_index h) (of_int n) = true).
    { rewrite Hidx, (of_int_exact n) by lia. unfold at_quarter, flt.
      apply Z.ltb_lt. unfold unit. lia. }
    rewrite resample_S, Hguard.
    destruct (produce_frame_ok (if time_slowed then sound_speed_factor else one)
                dst stream h Hwf Hpos (code_speed_ok time_slowed))
      as (s1 & h1 & Hframe & Hpos1 & Hsrc1 & Hlen1 & _);
      [rewrite Hsrc; exact Hguard|exact Hdst|lia|].
    rewrite Hsrc in Hframe. rewrite Hframe. cbn [mbind outcome_bind].
    apply produce_frame_handler in Hframe.
    destruct (advance_on_track time_slowed n L h P Hn HP Hidx Hloops)
      as (_ & Hin & Hout).
    rewrite <- Hframe in Hin, Hout.
    replace (P + Z.of_nat (S todo) * quarters time_slowed)
      with (P + quarters time_slowed + Z.of_nat todo * quarters time_slowed) by lia.
    destruct (Z_lt_le_dec (P + quarters time_slowed) ((L + 1) * (4 * n))) as [Hlt|Hge].
    + destruct (Hin Hlt) as [Hidx1 Hloops1].
      destruct (IH (dst + 1) s1 h1 (P + quarters time_slowed))
        as (s2 & h2 & Hrun & Hsrc2 & Hin2 & Hout2);
        [rewrite Hsrc1; exact Hwf|rewrite Hsrc1; exact Hsrc|exact Hn|lia|
         exact Hidx1|exact Hloops1|lia|rewrite Hlen1; lia|].
      rewrite Hrun.
      exists s2, h2. split; [reflexivity|]. split; [congruence|].
      split; assumption.
    + (* the last loop has ended: the rest of the buffer is silence *)
      pose proof (Hout Hge) as Hloops1.
      destruct (resample_ok (if time_slowed then sound_speed_factor else one)
                  todo (dst + 1) s1 h1)
        as (s2 & h2 & Hrun & _ & Hsrc2 & _ & Hle & Hge');
        [rewrite Hsrc1; exact Hwf|exact Hpos1|apply code_speed_ok|lia|
         rewrite Hlen1; lia|].
      rewrite Hsrc1, Hsrc in Hrun. rewrite Hrun.
      exists s2, h2. split; [reflexivity|]. split; [congruence|].
      split; [intros Hlt; exfalso; nia|]. intros _. lia.
Qed.

(** One call of the callback. *)
Lemma callback_on_track (time_slowed : bool) n L stream h P :
  chunk_wf (audio_src h) -> alen (audio_src h) / 4 = n ->
  0 < n < 2 ^ 22 -> 0 <= P < (L + 1) * (4 * n) ->
  current_sample_index h = at_quarter (P mod (4 * n)) ->
  loops_remaining h = L - P / (4 * n) ->
  let P' := P + call_advance (time_slowed, stream) in
  exists r,
    slowed_time_effect time_slowed stream (Z.of_nat (length stream)) h = value r /\
    audio_src (out_handler r) = audio_src h /\
    (P' < (L + 1) * (4 * n) ->
       halt_requested r = false /\
       current_sample_index (out_handler r) = at_quarter (P' mod (4 * n)) /\
       loops_remaining (out_handler r) = L - P' / (4 * n)) /\
    ((L + 1) * (4 * n) <= P' ->
       halt_requested r = true /\ loops_remaining (out_handler r) = -1).
Proof.
  intros Hwf Hsrc Hn HP Hidx Hloops P'.
  assert (Hdiv : 0 <= P / (4 * n) <= L).
  { split; [apply Z.div_pos; lia|].
    assert (P / (4 * n) < L + 1); [apply Z.div_lt_upper_bound; lia|lia]. }
  unfold slowed_time_effect, slowed_time_effect_at, bytes_per_sample.
  destruct (decide (loops_remaining h >= 0)) as [_|]; [|lia].
  rewrite Hsrc.
  assert (Hframes : Z.of_nat (Z.to_nat (Z.of_nat (length stream) ÷ 4))
                    = Z.of_nat (length stream) / 4).
  { rewrite Z.quot_div_nonneg by lia.
    assert (0 <= Z.of_nat (length stream) / 4) by (apply Z.div_pos; lia). lia. }
  destruct (resample_on_track time_slowed n L
              (Z.to_nat (Z.of_nat (length stream) ÷ 4)) 0 stream h P)
    as (s' & h' & Hrun & Hsrc' & Hin & Hout); try assumption; [lia| |].
  { rewrite Hframes.
    pose proof (Z.mul_div_le (Z.of_nat (length stream)) 4 ltac:(lia)). lia. }
  rewrite Hrun. cbn [mbind outcome_bind mret outcome_ret].
  eexists. split; [reflexivity|].
  cbn [out_handler halt_requested]. split; [exact Hsrc'|].
  rewrite Hframes in Hin, Hout.
  unfold P', call_advance. cbn [fst snd]. split.
  - intros Hlt. destruct (Hin Hlt) as [Hi Hl]. split; [|split; assumption].
    apply bool_decide_eq_false_2. rewrite Hl.
    assert ((P + Z.of_nat (length stream) / 4 * quarters time_slowed) / (4 * n) < L + 1);
      [apply Z.div_lt_upper_bound; lia|lia].
  - intros Hge. rewrite (Hout Hge). split; [|reflexivity].
    apply bool_decide_eq_true_2. lia.
Qed.

Lemma call_advance_nonneg call : 0 <= call_advance call.
Proof.
  destruct call as [time_slowed stream]. unfold call_advance. cbn [fst snd].
  pose proof (quarters_range time_slowed).
  assert (0 <= Z.of_nat (length stream) / 4) by (apply Z.div_pos; lia). nia.
Qed.

Lemma total_advance_cons call calls :
  total_advance (call :: calls) = call_advance call + total_advance calls.
Proof. reflexivity. Qed.

Lemma total_advance_nonneg calls : 0 <= total_advance calls.
Proof.
  induction calls as [|call calls IH]; [reflexivity|].
  rewrite total_advance_cons. pose proof (call_advance_nonneg call). lia.
Qed.

(** A sequence of calls, for a voice that has advanced [P] quarters. *)
Lemma run_callbacks_on_track n L : forall calls h P,
  chunk_wf (audio_src h) -> alen (audio_src h) / 4 = n ->
  0 < n < 2 ^ 22 -> 0 <= P < (L + 1) * (4 * n) ->
  current_sample_index h = at_quarter (P mod (4 * n)) ->
  loops_remaining h = L - P / (4 * n) ->
  (P + total_advance calls < (L + 1) * (4 * n) ->
   exists h',
     run_callbacks calls h = value (h', false) /\
     current_sample_index h' = at_quarter ((P + total_advance calls) mod (4 * n)) /\
     loops_remaining h' = L - (P + total_advance calls) / (4 * n)) /\
  ((L + 1) * (4 * n) <= P + total_advance calls ->
   exists h', run_callbacks calls h = value (h', true) /\ loops_remaining h' = -1).
Proof.
  induction calls as [|[time_slowed stream] calls IH];
    intros h P Hwf Hsrc Hn HP Hidx Hloops.
  - change (total_advance []) with 0. rewrite Z.add_0_r. split.
    + intros _. exists h. split; [reflexivity|]. split; assumption.
    + intros Hend. exfalso. lia.
  - rewrite total_advance_cons. cbn [run_callbacks].
    pose proof (total_advance_nonneg calls) as Hrest.
    destruct (callback_on_track time_slowed n L stream h P Hwf Hsrc Hn HP Hidx Hloops)
      as (r & -> & Hsrc' & Hin & Hout).
    cbn [mbind outcome_bind].
    destruct (Z_lt_le_dec (P + call_advance (time_slowed, stream)) ((L + 1) * (4 * n)))
      as [Hlt|Hge].
    + destruct (Hin Hlt) as (Hhalt & Hidx' & Hloops'). rewrite Hhalt.
      pose proof (call_advance_nonneg (time_slowed, stream)) as Hadv.
      destruct (IH (out_handler r) (P + call_advance (time_slowed, stream)))
        as [IHin IHout];
        [rewrite Hsrc'; exact Hwf|rewrite Hsrc'; exact Hsrc|exact Hn|lia|
         exact Hidx'|exact Hloops'|].
      rewrite !Z.add_assoc. split; assumption.
    + destruct (Hout Hge) as (Hhalt & Hloops'). rewrite Hhalt. split.
      * intros Hlt. exfalso. lia.
      * intros _. exists (out_handler r). split; [reflexivity|exact Hloops'].
Qed.

(** X17.  On a source of fewer than 2^22 frames a voice is halted by its
    own loop count in the very call in which the position it has advanced
    in all reaches [loops + 1] source lengths, and not before: after
    exactly one traversal for [nloops = 0], after 10001 traversals for
    [nloops = -1].  Until then the position is the total advance modulo
    the source length and the loop count is down by the number of
    traversals completed. *)
Lemma voice_halts_after_its_loops (src : Mix_Chunk) (owns : bool) (nloops : Z)
    (calls : list (bool * list Z)) :
  chunk_wf src -> 0 < alen src / 4 < 2 ^ 22 -> nloops = -1 \/ 0 <= nloops ->
  let n := alen src / 4 in
  let L := if decide (nloops = -1) then 10000 else nloops in
  (total_advance calls < (L + 1) * (4 * n) ->
   exists h',
     run_callbacks calls (new_handler src nloops owns) = value (h', false) /\
     current_sample_index h' = at_quarter (total_advance calls mod (4 * n)) /\
     loops_remaining h' = L - total_advance calls / (4 * n)) /\
  ((L + 1) * (4 * n) <= total_advance calls ->
   exists h',
     run_callbacks calls (new_handler src nloops owns) = value (h', true) /\
     loops_remaining h' = -1).
Proof.
  intros Hwf Hn Hloops n L.
  assert (HL : 0 <= L) by (unfold L; case_decide; lia).
  destruct (run_callbacks_on_track n L calls (new_handler src nloops owns) 0)
    as [Hin Hout];
    [exact Hwf|reflexivity|exact Hn|nia| | |].
  - rewrite Z.mod_0_l by lia. reflexivity.
  - rewrite Z.div_0_l by lia. unfold new_handler, L. cbn [loops_remaining]. lia.
  - rewrite !Z.add_0_l in Hin, Hout. split; assumption.
Qed.

Lemma long_source_wf : chunk_wf long_source /\ alen long_source / 4 = 2 ^ 24 + 2.
Proof.
  unfold chunk_wf, long_source. cbn [alen abuf].
  rewrite length_replicate.
  split; [split; [|split]|].
  - symmetry. apply Z2Nat.id. discriminate.
  - reflexivity.
  - apply Forall_replicate. split; [discriminate|reflexivity].
  - reflexivity.
Qed.

(** C5, evaluated where the code departs from it.  A voice started with
    [nloops = 0] on a source of 2^24 + 2 frames is never halted by its
    own loop count, whatever the callbacks: its position stops at 2^24
    and the traversal is never completed. *)
Theorem long_voice_never_halts (src : Mix_Chunk) (owns : bool)
    (calls : list (bool * list Z)) :
  chunk_wf src -> alen src / 4 = 2 ^ 24 + 2 ->
  exists h',
    run_callbacks calls (new_handler src 0 owns) = value (h', false) /\
    loops_remaining h' = 0.
Proof.
  intros Hwf Hn.
  destruct (run_callbacks_long_source calls (new_handler src 0 owns) 0)
    as (h' & Hrun & Hloops);
    [exact Hwf|exact Hn|reflexivity|unfold unit; lia|apply representable_0|
     unfold new_handler; cbn [loops_remaining]; case_decide; lia|].
  exists h'. split; [exact Hrun|]. rewrite Hloops. reflexivity.
Qed.

(** Witness for [long_voice_never_halts]: two buffers of 16 frames. *)
Lemma long_voice_never_halts_witness :
  exists h',
    run_callbacks [(false, replicate 64 0); (true, replicate 64 0)]
      (new_handler long_source 0 false) = value (h', false) /\
    loops_remaining h' = 0.
Proof.
  apply (long_voice_never_halts long_source false).
  - apply long_source_wf.
  - apply long_source_wf.
Defined.

(** The voice of four frames played once: the first call ends the
    traversal and requests the halt. *)
Lemma four_frame_voice_halts_after_one_traversal :
  exists h',
    run_callbacks [(false, replicate 8 0); (false, replicate 8 0)]
      (new_handler four_frames 0 false) = value (h', true) /\
    loops_remaining h' = -1 /\
    run_callbacks [(false, replicate 8 0)] (new_handler four_frames 0 false)
      = value (set_position (new_handler four_frames 0 false) (of_int 2) 0, false).
Proof. eexists. split; [vm_compute; reflexivity|]. split; vm_compute; reflexivity. Qed.

(** [make_audio] turns [nloops = -1] into a budget of 10000 loops. *)
Lemma endless_voice_has_a_budget (src : Mix_Chunk) (owns : bool) :
  loops_remaining (new_handler src (-1) owns) = 10000 /\
  loops_remaining (new_handler src 0 owns) = 0.
Proof. split; reflexivity. Qed.

End TraversalFacts.

(** * Properties of the order on keys *)

Section OrderingFacts.
Import Resolver Ordering.

Lemma ascii_compare_refl (a : Ascii.ascii) : Ascii.compare a a = Eq.
Proof. unfold Ascii.compare. apply N.compare_refl. Qed.

Lemma string_compare_refl (s : string) : String.compare s s = Eq.
Proof. induction s as [|a s IH]; [done|]. simpl. by rewrite ascii_compare_refl. Qed.

Lemma ascii_compare_lt_trans (a b c : Ascii.ascii) :
  Ascii.compare a b = Lt -> Ascii.compare b c = Lt -> Ascii.compare a c = Lt.
Proof. unfold Ascii.compare. rewrite !N.compare_lt_iff. lia. Qed.

Lemma string_compare_lt_trans (a : string) : forall b c,
  String.compare a b = Lt -> String.compare b c = Lt -> String.compare a c = Lt.
Proof.
  induction a as [|x a IH]; intros [|y b] [|z c]; simpl; try done.
  destruct (Ascii.compare x y) eqn:Hxy; try done.
  - apply Ascii.compare_eq_iff in Hxy as ->.
    destruct (Ascii.compare y z); try done. apply IH.
  - destruct (Ascii.compare y z) eqn:Hyz; try done.
    + apply Ascii.compare_eq_iff in Hyz as <-. by rewrite Hxy.
    + by rewrite (ascii_compare_lt_trans x y z).
Qed.

Lemma string_lt_strict_total : strict_total string_lt.
Proof.
  unfold string_lt. split; [|split].
  - intros a. by rewrite string_compare_refl.
  - intros a b c Hab Hbc.
    destruct (String.compare a b) eqn:E1; try done.
    destruct (String.compare b c) eqn:E2; try done.
    by rewrite (string_compare_lt_trans a b c).
  - intros a b Hab Hba. apply String.compare_eq_iff.
    rewrite String.compare_antisym in Hba.
    destruct (String.compare a b); simpl in *; done.
Qed.

Lemma Z_ltb_strict_total : strict_total Z.ltb.
Proof.
  split; [|split].
  - intros a. apply Z.ltb_irrefl.
  - intros a b c. rewrite !Z.ltb_lt. lia.
  - intros a b. rewrite !Z.ltb_ge. lia.
Qed.

(** The order of pairs built by [tuple_lt] from two strict total orders
    is one. *)
Lemma tuple_lt_strict_total {A B : Type} (ltA : A -> A -> bool) (ltB : B -> B -> bool) :
  strict_total ltA -> strict_total ltB ->
  strict_total (fun p q : A * B => tuple_lt ltA p.1 q.1 (ltB p.2 q.2)).
Proof.
  intros (irA & trA & toA) (irB & trB & toB). unfold tuple_lt.
  split; [|split].
  - intros [a x]. simpl. by rewrite irA, irB.
  - intros [a x] [b y] [c z]. simpl. intros H1 H2.
    destruct (ltA a b) eqn:Eab; simpl in H1.
    + destruct (ltA b c) eqn:Ebc; simpl in H2.
      * by rewrite (trA a b c).
      * destruct (ltA c b) eqn:Ecb; [done|]. simpl in H2.
        rewrite (toA _ _ Ebc Ecb) in Eab. by rewrite Eab.
    + destruct (ltA b a) eqn:Eba; [done|]. simpl in H1.
      rewrite (toA _ _ Eab Eba).
      destruct (ltA b c) eqn:Ebc; [done|]. simpl in H2.
      destruct (ltA c b) eqn:Ecb; [done|]. simpl in *.
      by apply (trB x y z).
  - intros [a x] [b y]. simpl. intros H1 H2.
    destruct (ltA a b) eqn:Eab; [done|].
    destruct (ltA b a) eqn:Eba; [done|]. simpl in *.
    by rewrite (toA _ _ Eab Eba), (toB _ _ H1 H2).
Qed.

Lemma sfx_args_lt_tied (a b : sfx_args) : sfx_args_lt a b = tied_lt (tied a) (tied b).
Proof. reflexivity. Qed.

Lemma tied_lt_strict_total : strict_total tied_lt.
Proof.
  pose proof string_lt_strict_total as Hs.
  pose proof Z_ltb_strict_total as Hz.
  pose proof (tuple_lt_strict_total _ _ Hz Hz) as H4.
  pose proof (tuple_lt_strict_total _ _ Hs H4) as H3.
  pose proof (tuple_lt_strict_total _ _ Hs H3) as H2.
  exact (tuple_lt_strict_total _ _ Hs H2).
Qed.

Lemma value_or_minus_one_eq (o1 o2 : option bool) :
  value_or_minus_one o1 = value_or_minus_one o2 <-> default true o1 = default true o2.
Proof. destruct o1 as [[]|], o2 as [[]|]; simpl; split; done. Qed.

(** X1.  [sfx_args::operator<] is a strict weak ordering: it is
    irreflexive and transitive, and two keys are equivalent under it
    (neither is below the other) exactly when their ids, variants and
    seasons are equal and each of the two flags is equal once an unset
    flag is read as [true].  So it does not tell an unset flag from one
    set to [true], although [sfx_map] stores such keys in different
    buckets (EITHER and INDOORS, ANY and NIGHTTIME). *)
Theorem sfx_args_lt_strict_weak_order :
  (forall a, sfx_args_lt a a = false) /\
  (forall a b c, sfx_args_lt a b = true -> sfx_args_lt b c = true ->
     sfx_args_lt a c = true) /\
  (forall a b, equivalent a b = true <->
     id a = id b /\ variant a = variant b /\ season a = season b /\
     default true (indoors a) = default true (indoors b) /\
     default true (night a) = default true (night b)) /\
  (forall i v s,
     equivalent (mk_sfx_args i v s None None) (mk_sfx_args i v s (Some true) (Some true))
       = true /\
     in_or_out_from_int (bool_or None (-1)) = ok EITHER /\
     in_or_out_from_int (bool_or (Some true) (-1)) = ok INDOORS /\
     tod_from_int (bool_or None (-1)) = ok ANY /\
     tod_from_int (bool_or (Some true) (-1)) = ok NIGHTTIME).
Proof.
  destruct tied_lt_strict_total as (ir & tr & to).
  assert (Heq : forall a b, equivalent a b = true <-> tied a = tied b).
  { intros a b. unfold equivalent. rewrite !sfx_args_lt_tied. split.
    - intros [H1 H2]%andb_true_iff.
      apply negb_true_iff in H1, H2. by apply to.
    - intros ->. by rewrite ir. }
  split; [|split; [|split]].
  - intros a. rewrite sfx_args_lt_tied. apply ir.
  - intros a b c. rewrite !sfx_args_lt_tied. apply tr.
  - intros a b. rewrite Heq. unfold tied. split.
    + intros [= -> -> -> Hi Hn]. by rewrite <- !value_or_minus_one_eq.
    + intros (-> & -> & -> & Hi & Hn).
      apply value_or_minus_one_eq in Hi, Hn. by rewrite Hi, Hn.
  - intros i v s. split; [by apply Heq|]. repeat split.
Qed.

End OrderingFacts.

(** * More on the lookups *)

Section LookupFacts.
Import Resolver.

Lemma closest_it_hit `{Countable K} {V} (c : gmap K V) (k d : K) (v : V) :
  c !! k = Some v -> closest_it c k d = Some v.
Proof. unfold closest_it. by intros ->. Qed.

Lemma find_closest_sfx_exact c k1 d1 k2 d2 k3 d3 k4 d4 k5 d5 b :
  find_sfx c k1 k2 k3 k4 k5 = Some b ->
  find_closest_sfx c k1 d1 k2 d2 k3 d3 k4 d4 k5 d5 = Some b.
Proof.
  unfold find_sfx, find_closest_sfx, find_sfx_next, find_sfx_last,
    find_closest_sfx_next, find_closest_sfx_last.
  destruct (c !! k1) as [c1|] eqn:E1; [|done].
  rewrite (closest_it_hit _ _ _ _ E1).
  destruct (c1 !! k2) as [c2|] eqn:E2; [|done].
  rewrite (closest_it_hit _ _ _ _ E2).
  destruct (c2 !! k3) as [c3|] eqn:E3; [|done].
  rewrite (closest_it_hit _ _ _ _ E3).
  destruct (c3 !! k4) as [c4|] eqn:E4; [|done].
  rewrite (closest_it_hit _ _ _ _ E4).
  destruct (c4 !! k5) as [c5|] eqn:E5; [|done].
  by rewrite (closest_it_hit _ _ _ _ E5).
Qed.

(** X2.  An exact hit wins: whenever the exact lookup of a key finds a
    bucket, the best-match lookup with the fields of that key returns
    the same bucket.  In particular, after [sound_effects[key]] has
    received an effect, the best-match lookup of the key's fields
    returns a bucket whose last element is that effect. *)
Theorem exact_hit_is_best_match (m : sfx_map) (key : sfx_args) :
  (forall b, find_exact m key = ok (Some b) ->
     find m (id key) (variant key) (season key) (indoors key) (night key)
     = ok (Some b)) /\
  (forall e m', insert m key e = ok m' ->
     exists b, find m' (id key) (variant key) (season key) (indoors key) (night key)
               = ok (Some (b ++ [e]))).
Proof.
  assert (Hexact : forall m b, find_exact m key = ok (Some b) ->
     find m (id key) (variant key) (season key) (indoors key) (night key)
     = ok (Some b)).
  { intros m0 b. rewrite find_exact_unfold, find_unfold.
    destruct (season_from_string (season key)) as [s|]; [|done].
    intros [= Hb]. by rewrite (find_closest_sfx_exact _ _ _ _ _ _ _ _ _ _ _ _ Hb). }
  split; [apply Hexact|].
  intros e m' Hins.
  destruct (find_exact_insert_same _ _ _ _ Hins) as (b0 & _ & Hb).
  exists (default [] b0). by apply Hexact.
Qed.

Lemma season_from_string_cases (s : string) :
  (exists x, season_from_string s = ok x) <->
  s ∈ [EmptyString; "spring"; "summer"; "autumn"; "winter"]%string.
Proof.
  unfold season_from_string. rewrite !elem_of_cons, elem_of_nil.
  repeat case_decide;
    (split; [intros [x Hx]; try done; intuition eauto
            |intros Hx; try (by eauto); intuition congruence]).
Qed.

(** X3.  The only failure of the lookups and of the subscript is an
    unknown season: a season string other than the empty one, "spring",
    "summer", "autumn" and "winter" makes the exact lookup, the
    best-match lookup and [operator[]] throw [std::invalid_argument];
    with one of the five they all return, whatever the two flags
    are. *)
Theorem lookups_throw_on_unknown_season_only (m : sfx_map) (key : sfx_args)
    (upd : bucket -> bucket) :
  (season key ∉ [EmptyString; "spring"; "summer"; "autumn"; "winter"]%string ->
   find_exact m key = throw invalid_argument /\
   find m (id key) (variant key) (season key) (indoors key) (night key)
     = throw invalid_argument /\
   subscript_sfx_map m key upd = throw invalid_argument) /\
  (season key ∈ [EmptyString; "spring"; "summer"; "autumn"; "winter"]%string ->
   (exists r, find_exact m key = ok r) /\
   (exists r, find m (id key) (variant key) (season key) (indoors key) (night key)
              = ok r) /\
   (exists m', subscript_sfx_map m key upd = ok m')).
Proof.
  rewrite find_exact_unfold, find_unfold, subscript_sfx_map_unfold.
  rewrite <- season_from_string_cases. split.
  - intros Hno. destruct (season_from_string (season key)) as [x|[]] eqn:E; [|done].
    destruct Hno. eauto.
  - intros [x ->]. repeat split; eauto.
Qed.

End LookupFacts.

(** * Properties of the loaders *)

Section LoadingFacts.
Import F32 Audio Playback Soundpack.
Context {E : Type} `{Environment E} `{Host E}.

Lemma same_but_table_refl (g : globals E) : same_but_table g g.
Proof. repeat split. exists []. by rewrite app_nil_r. Qed.

Lemma same_but_table_trans (g1 g2 g3 : globals E) :
  same_but_table g1 g2 -> same_but_table g2 g3 -> same_but_table g1 g3.
Proof.
  intros (? & ? & ? & ? & a & Ha) (? & ? & ? & ? & b & Hb).
  repeat split; try congruence. exists (a ++ b). by rewrite Hb, Ha, app_assoc.
Qed.

Lemma path_of_app (table added : list sound_effect_resource) (e : Resolver.sound_effect) p :
  path_of table e = Some p -> path_of (table ++ added) e = Some p.
Proof.
  unfold path_of. case_match; [done|].
  destruct (table !! _) as [r|] eqn:Er; [|done].
  by rewrite (lookup_app_l_Some _ _ _ _ Er).
Qed.

Lemma add_sfx_path_spec (g : globals E) (p : string) :
  paths_interned g ->
  exists g' i,
    add_sfx_path g p = (g', i) /\
    paths_interned g' /\ same_but_table g g' /\
    unique_paths (loader g') !! p = Some i /\
    0 <= i < Z.of_nat (length (resources g')) /\
    path <$> (resources g' !! Z.to_nat i) = Some p /\
    (forall q j, unique_paths (loader g) !! q = Some j ->
       unique_paths (loader g') !! q = Some j).
Proof.
  intros Hinv. unfold add_sfx_path.
  destruct (unique_paths (loader g) !! p) as [i|] eqn:Ep.
  - exists g, i. destruct (Hinv _ _ Ep) as [Hi Hp].
    split; [done|]. split; [done|]. split; [apply same_but_table_refl|].
    split; [done|]. split; [|done].
    destruct (resources g !! Z.to_nat i) eqn:Er; [|done].
    apply lookup_lt_Some in Er. lia.
  - eexists _, _. split; [reflexivity|].
    assert (Hnew : (resources g ++ [mk_resource p None]) !! Z.to_nat (Z.of_nat (length (resources g)))
                   = Some (mk_resource p None)).
    { rewrite Nat2Z.id. by rewrite lookup_app_r, Nat.sub_diag. }
    split; [|split; [|split; [|split; [|split]]]].
    + intros q j. unfold resources. cbn.
      destruct (decide (p = q)) as [->|Hne].
      * rewrite lookup_insert_eq. intros [= <-]. split; [lia|].
        unfold resources in Hnew. by rewrite Hnew.
      * rewrite lookup_insert_ne by done. intros Hq.
        destruct (Hinv _ _ Hq) as [Hj Hp]. split; [done|].
        unfold resources in Hp.
        destruct (resource (sfx_resources (sfx g)) !! Z.to_nat j) eqn:Er; [|done].
        by rewrite (lookup_app_l_Some _ _ _ _ Er).
    + repeat split. by eexists.
    + cbn. by rewrite lookup_insert_eq.
    + unfold resources. cbn. rewrite length_app. simpl. lia.
    + unfold resources in *. cbn. by rewrite Hnew.
    + intros q j Hq. cbn. rewrite lookup_insert_ne; [done|]. congruence.
Qed.

(** X4.  [add_sfx_path] interns: while every interned path names a
    resource of the table with that path, the call keeps this so; the id
    it returns is inside the table and names a resource with the
    requested path; the table only grows, by at most one resource, and
    the effects are not touched; asking again for the same path returns
    the same id and changes nothing; and the ids of different paths
    differ. *)
Theorem add_sfx_path_interns (g : globals E) (p : string) :
  paths_interned g ->
  exists g' i,
    add_sfx_path g p = (g', i) /\
    paths_interned g' /\
    0 <= i < Z.of_nat (length (resources g')) /\
    path <$> (resources g' !! Z.to_nat i) = Some p /\
    (exists added, resources g' = resources g ++ added /\ (length added <= 1)%nat) /\
    effects_map g' = effects_map g /\
    add_sfx_path g' p = (g', i) /\
    (forall q g'' j, add_sfx_path g' q = (g'', j) -> q <> p -> j <> i).
Proof.
  intros Hinv.
  destruct (add_sfx_path_spec g p Hinv) as (g' & i & Hadd & Hinv' & Hsame & Hp & Hi & Hpath & _).
  exists g', i. split; [done|]. split; [done|]. split; [done|]. split; [done|].
  split; [|split; [apply Hsame|split]].
  - revert Hadd. unfold add_sfx_path.
    destruct (unique_paths (loader g) !! p).
    + intros [= <- _]. exists []. split; [by rewrite app_nil_r|simpl; lia].
    + intros [= <- _]. eexists [_]. split; [reflexivity|simpl; lia].
  - unfold add_sfx_path. by rewrite Hp.
  - intros q g'' j Hq Hne ->.
    destruct (add_sfx_path_spec g' q Hinv') as (g3 & j & Hadd3 & Hinv3 & _ & Hq3 & _ & _ & Hkeep).
    rewrite Hq in Hadd3. injection Hadd3 as <- <-.
    pose proof (Hkeep _ _ Hp) as Hp3.
    destruct (Hinv3 _ _ Hq3) as [_ H1]. destruct (Hinv3 _ _ Hp3) as [_ H2].
    congruence.
Qed.


Lemma made_of_app table added volume files es :
  made_of table volume files es -> made_of (table ++ added) volume files es.
Proof.
  unfold made_of. revert files. induction es as [|e es IH]; intros [|f files]; try done.
  rewrite !fmap_cons. intros [= Hv Hp Hrest].
  by rewrite Hv, (path_of_app _ _ _ _ Hp), (IH _ Hrest).
Qed.

Lemma emplace_back_files_spec (volume : Z) (files : list string) : forall g : globals E,
  paths_interned g ->
  exists g1 es,
    emplace_back_files g volume files = (g1, es) /\
    paths_interned g1 /\ same_but_table g g1 /\
    made_of (resources g1) volume files es /\
    Forall (fun e => 0 <= Resolver.resource_id e < Z.of_nat (length (resources g1))) es.
Proof.
  induction files as [|file files IH]; intros g Hinv.
  - exists g, []. split; [done|]. split; [done|].
    split; [apply same_but_table_refl|]. split; [done|constructor].
  - destruct (add_sfx_path_spec g file Hinv)
      as (g' & i & Hadd & Hinv' & Hsame & _ & Hi & Hpath & _).
    destruct (IH g' Hinv') as (g2 & es & Hes & Hinv2 & Hsame2 & Hmade & Hall).
    exists g2, (Resolver.mk_sound_effect volume i :: es).
    cbn [emplace_back_files]. unfold new_sound_effect. rewrite Hadd, Hes.
    split; [done|]. split; [done|].
    split; [by eapply same_but_table_trans|].
    destruct Hsame2 as (_ & _ & _ & _ & added & Hadded).
    split; [|constructor; [|done]].
    + unfold made_of in *. rewrite !fmap_cons, Hmade. f_equal. f_equal.
      rewrite Hadded. apply path_of_app. unfold path_of. simpl.
      destruct (Z.ltb_spec i 0); [lia|done].
    + simpl. rewrite Hadded, length_app. lia.
Qed.

Lemma find_exact_subscript_same m key upd m' :
  Resolver.subscript_sfx_map m key upd = ok m' ->
  exists b0, Resolver.find_exact m key = ok b0 /\
             Resolver.find_exact m' key = ok (Some (upd (default [] b0))).
Proof.
  rewrite subscript_sfx_map_unfold, !find_exact_unfold.
  destruct (Resolver.season_from_string (Resolver.season key)) as [s|]; [|done].
  intros [= <-]. eexists. split; [done|]. simpl. by rewrite find_sfx_emplace_eq.
Qed.

Lemma find_exact_subscript_other m key upd m' key' :
  Resolver.subscript_sfx_map m key upd = ok m' -> key <> key' ->
  Resolver.find_exact m' key' = Resolver.find_exact m key'.
Proof.
  rewrite subscript_sfx_map_unfold, !find_exact_unfold.
  destruct (Resolver.season_from_string (Resolver.season key)) as [s|] eqn:Es; [|done].
  intros [= <-] Hne.
  destruct (Resolver.season_from_string (Resolver.season key')) as [s'|] eqn:Es'; [|done].
  simpl. rewrite find_sfx_emplace_ne; [done|].
  intros Heq. apply Hne. by eapply converted_key_inj.
Qed.

Lemma effects_resolvable_subscript m key es m' table :
  effects_resolvable m table ->
  Forall (fun e => 0 <= Resolver.resource_id e < Z.of_nat (length table)) es ->
  Resolver.subscript_sfx_map m key (fun effects => effects ++ es) = ok m' ->
  effects_resolvable m' table.
Proof.
  intros Hres Hes. rewrite subscript_sfx_map_unfold.
  destruct (Resolver.season_from_string (Resolver.season key)) as [s|]; [|done].
  intros [= <-] k1 k2 k3 k4 k5 b e. simpl.
  destruct (decide ((Resolver.id key, Resolver.variant key, s,
                     Resolver.in_or_out_of (Resolver.indoors key),
                     Resolver.tod_of (Resolver.night key)) = (k1, k2, k3, k4, k5)))
    as [[= <- <- <- <- <-]|Hne].
  - rewrite find_sfx_emplace_eq. intros [= <-] [Hin|Hin]%elem_of_app.
    + destruct (Resolver.find_sfx _ _ _ _ _ _) as [b0|] eqn:Eb; simpl in Hin.
      * by eapply Hres.
      * by apply elem_of_nil in Hin.
    + by eapply (proj1 (Forall_forall _ _) Hes).
  - rewrite find_sfx_emplace_ne by done. apply Hres.
Qed.

Lemma effects_resolvable_app m table added :
  effects_resolvable m table -> effects_resolvable m (table ++ added).
Proof.
  intros Hres k1 k2 k3 k4 k5 b e Hb He.
  pose proof (Hres _ _ _ _ _ _ _ Hb He). rewrite length_app. lia.
Qed.

(** What one pass of the loop over the variants does. *)
Lemma load_variant_spec (g : globals E) key volume files g' :
  paths_interned g -> effects_resolvable (effects_map g) (resources g) ->
  load_variant g key volume files = ok g' ->
  paths_interned g' /\ effects_resolvable (effects_map g') (resources g') /\
  sound_init_success (sfx g') = sound_init_success (sfx g) /\
  (exists added, resources g' = resources g ++ added) /\
  (exists b0 es,
     Resolver.find_exact (effects_map g) key = ok b0 /\
     Resolver.find_exact (effects_map g') key = ok (Some (default [] b0 ++ es)) /\
     made_of (resources g') volume files es) /\
  (forall key', key <> key' ->
     Resolver.find_exact (effects_map g') key' = Resolver.find_exact (effects_map g) key').
Proof.
  intros Hinv Hres. unfold load_variant.
  destruct (emplace_back_files_spec volume files g Hinv)
    as (g1 & es & -> & Hinv1 & (Hmap & Hinit & _ & _ & added & Hadded) & Hmade & Hall).
  destruct (Resolver.subscript_sfx_map (effects_map g1) key _) as [m|] eqn:Hsub; [|done].
  intros [= <-].
  assert (Htab : resources (with_sfx g1 (set_sound_effects (sfx g1) m)) = resources g1)
    by done.
  assert (Hmap' : effects_map (with_sfx g1 (set_sound_effects (sfx g1) m)) = m) by done.
  rewrite Htab, Hmap'.
  split; [exact Hinv1|]. split.
  { eapply effects_resolvable_subscript; [|exact Hall|exact Hsub].
    rewrite Hmap, Hadded. by apply effects_resolvable_app. }
  split; [exact Hinit|]. split; [by eexists|]. split.
  - destruct (find_exact_subscript_same _ _ _ _ Hsub) as (b0 & Hb0 & Hb).
    exists b0, es. by rewrite <- Hmap.
  - intros key' Hne. rewrite <- Hmap. by eapply find_exact_subscript_other.
Qed.

Lemma load_variants_spec volume files variants : forall (g : globals E) key g',
  paths_interned g -> effects_resolvable (effects_map g) (resources g) ->
  load_variants g key volume files variants = ok g' ->
  paths_interned g' /\ effects_resolvable (effects_map g') (resources g') /\
  sound_init_success (sfx g') = sound_init_success (sfx g) /\
  (exists added, resources g' = resources g ++ added) /\
  (forall key0 b, Resolver.find_exact (effects_map g) key0 = ok (Some b) ->
     exists extra, Resolver.find_exact (effects_map g') key0 = ok (Some (b ++ extra))) /\
  (forall key0, ends_with_files g key0 volume files ->
     ends_with_files g' key0 volume files) /\
  (forall variant, variant ∈ variants ->
     ends_with_files g' (with_variant key variant) volume files).
Proof.
  induction variants as [|v variants IH]; intros g key g' Hinv Hres.
  - intros [= <-]. split; [done|]. split; [done|]. split; [done|].
    split; [exists []; by rewrite app_nil_r|].
    split; [intros key0 b Hb; exists []; by rewrite app_nil_r|].
    split; [done|]. intros variant Hin. by apply elem_of_nil in Hin.
  - cbn [load_variants]. fold (with_variant key v).
    destruct (load_variant g (with_variant key v) volume files) as [g1|] eqn:Hload; [|done].
    cbn [mbind res_bind]. intros Hrest.
    destruct (load_variant_spec _ _ _ _ _ Hinv Hres Hload)
      as (Hinv1 & Hres1 & Hinit1 & (added1 & Hadded1) & (b0 & es & Hb0 & Hb1 & Hmade) & Hother).
    destruct (IH g1 (with_variant key v) g' Hinv1 Hres1 Hrest)
      as (Hinv' & Hres' & Hinit' & (added' & Hadded') & Hgrow & Hends & Hvars).
    assert (Hgrow1 : forall key0 b,
      Resolver.find_exact (effects_map g) key0 = ok (Some b) ->
      exists extra, Resolver.find_exact (effects_map g1) key0 = ok (Some (b ++ extra))).
    { intros key0 b Hb. destruct (decide (with_variant key v = key0)) as [<-|Hne].
      - rewrite Hb in Hb0. injection Hb0 as <-. by exists es.
      - exists []. rewrite app_nil_r. by rewrite Hother. }
    assert (Hends1 : forall key0, ends_with_files g key0 volume files ->
      ends_with_files g1 key0 volume files).
    { intros key0 (old & new & Hfind & Hnew).
      destruct (decide (with_variant key v = key0)) as [<-|Hne].
      - rewrite Hfind in Hb0. injection Hb0 as <-. by exists (old ++ new), es.
      - exists old, new. rewrite Hother by done. split; [done|].
        rewrite Hadded1. by apply made_of_app. }
    split; [done|]. split; [done|]. split; [congruence|].
    split; [exists (added1 ++ added'); by rewrite Hadded', Hadded1, app_assoc|].
    split; [|split].
    + intros key0 b Hb. destruct (Hgrow1 _ _ Hb) as (x1 & Hx1).
      destruct (Hgrow _ _ Hx1) as (x2 & Hx2). exists (x1 ++ x2). by rewrite app_assoc.
    + intros key0 Hk. by apply Hends, Hends1.
    + intros variant [->|Hin]%elem_of_cons.
      * apply Hends. by exists (default [] b0), es.
      * apply Hvars in Hin. by destruct key.
Qed.

(** X5.  Loading and looking up.  After [sfx::load_sound_effects] has
    returned for an object, the exact lookup of the object's key with
    any of its variants finds a bucket that ends with one effect per
    entry of "files", in the order of the array: each carries the
    volume of the object (100 when it gives none) and a resource id
    whose resource in the table has the path of the file.  The variants
    are the "variant" array, or the one "variant" string, or "default";
    the season is the empty one when the object gives none. *)
Theorem load_sound_effects_round_trip (g : globals E) (jsobj : sound_effect_object)
    (g' : globals E) :
  sound_init_success (sfx g) = true ->
  paths_interned g -> effects_resolvable (effects_map g) (resources g) ->
  load_sound_effects g jsobj = ok g' ->
  forall variant, variant ∈ variants_of (js_variant jsobj) ->
    exists old new,
      Resolver.find_exact (effects_map g')
        (Resolver.mk_sfx_args (js_id jsobj) variant (default EmptyString (js_season jsobj))
           (js_is_indoors jsobj) (js_is_night jsobj))
      = ok (Some (old ++ new)) /\
      (fun e => (Resolver.volume e, path_of (resources g') e)) <$> new
      = (fun f => (default 100 (js_volume jsobj), Some f)) <$> js_files jsobj.
Proof.
  intros Hinit Hinv Hres. unfold load_sound_effects. rewrite Hinit. cbn [negb].
  intros Hload variant Hin.
  destruct (load_variants_spec _ _ _ _ _ _ Hinv Hres Hload) as (_ & _ & _ & _ & _ & _ & Hvars).
  exact (Hvars variant Hin).
Qed.

(** X6.  Loading keeps what is there.  [sfx::load_sound_effects] keeps
    the two invariants of the tables (every interned path names a
    resource with that path, every stored effect names a resource of the
    table); the resource table only grows at its end; and every bucket
    that an exact lookup found before is found afterwards with the same
    effects in the same order at its front. *)
Theorem load_sound_effects_only_appends (g : globals E) (jsobj : sound_effect_object)
    (g' : globals E) :
  paths_interned g -> effects_resolvable (effects_map g) (resources g) ->
  load_sound_effects g jsobj = ok g' ->
  paths_interned g' /\ effects_resolvable (effects_map g') (resources g') /\
  (exists added, resources g' = resources g ++ added) /\
  (forall key b, Resolver.find_exact (effects_map g) key = ok (Some b) ->
     exists extra, Resolver.find_exact (effects_map g') key = ok (Some (b ++ extra))).
Proof.
  intros Hinv Hres. unfold load_sound_effects.
  destruct (sound_init_success (sfx g)); cbn [negb].
  - intros Hload.
    destruct (load_variants_spec _ _ _ _ _ _ Hinv Hres Hload)
      as (? & ? & _ & ? & ? & _ & _).
    done.
  - intros [= <-]. split; [done|]. split; [done|].
    split; [exists []; by rewrite app_nil_r|].
    intros key b Hb. exists []. by rewrite app_nil_r.
Qed.

Lemma load_variants_throws (g : globals E) key volume files v variants :
  Resolver.season_from_string (Resolver.season key) = throw invalid_argument ->
  load_variants g key volume files (v :: variants) = throw invalid_argument.
Proof.
  intros Hs. cbn [load_variants]. unfold load_variant.
  destruct (emplace_back_files g volume files) as [g1 es].
  rewrite subscript_sfx_map_unfold. simpl. by rewrite Hs.
Qed.

Lemma load_variants_returns volume files variants : forall (g : globals E) key s,
  Resolver.season_from_string (Resolver.season key) = ok s ->
  exists g', load_variants g key volume files variants = ok g'.
Proof.
  induction variants as [|v variants IH]; intros g key s Hs; [by eexists|].
  cbn [load_variants]. unfold load_variant.
  destruct (emplace_back_files g volume files) as [g1 es].
  rewrite subscript_sfx_map_unfold. simpl. rewrite Hs. simpl.
  by apply (IH _ _ s).
Qed.

(** X7.  When [sfx::load_sound_effects] does nothing, and when it
    fails.  It returns without a change while the mixer is not
    initialised, and when the "variant" array is empty (whatever the
    season); otherwise it throws [std::invalid_argument] for a season
    other than the empty one, "spring", "summer", "autumn" and "winter",
    and returns for one of the five. *)
Theorem load_sound_effects_edge_cases (g : globals E) (jsobj : sound_effect_object) :
  (sound_init_success (sfx g) = false -> load_sound_effects g jsobj = ok g) /\
  (js_variant jsobj = variant_array [] -> load_sound_effects g jsobj = ok g) /\
  (sound_init_success (sfx g) = true -> variants_of (js_variant jsobj) <> [] ->
   default EmptyString (js_season jsobj)
     ∉ [EmptyString; "spring"; "summer"; "autumn"; "winter"]%string ->
   load_sound_effects g jsobj = throw invalid_argument) /\
  (default EmptyString (js_season jsobj)
     ∈ [EmptyString; "spring"; "summer"; "autumn"; "winter"]%string ->
   exists g', load_sound_effects g jsobj = ok g').
Proof.
  unfold load_sound_effects. split; [|split; [|split]].
  - by intros ->.
  - intros ->. by destruct (sound_init_success (sfx g)).
  - intros -> Hne Hs. cbn [negb].
    destruct (variants_of (js_variant jsobj)) as [|v variants]; [done|].
    apply load_variants_throws. simpl.
    destruct (Resolver.season_from_string _) as [x|[]] eqn:Ex; [|done].
    destruct Hs. apply season_from_string_cases. eauto.
  - intros [x Hx]%season_from_string_cases.
    destruct (sound_init_success (sfx g)); cbn [negb]; [|by eexists].
    by apply (load_variants_returns _ _ _ _ _ x).
Qed.


Lemma only_loads_refl (w : world E) : only_loads w w.
Proof. done. Qed.

Lemma is_loaded_only_loads (w w' : world E) i :
  only_loads w w' -> is_loaded (resource (sfx_resources w)) i ->
  is_loaded (resource (sfx_resources w')) i.
Proof.
  intros (_ & _ & Hkeep) Hi. pose proof (Hkeep i Hi) as Hsame.
  destruct Hi as (Hi & r & c & Hr & Hc). split; [done|]. exists r, c.
  by rewrite Hsame.
Qed.

Lemma only_loads_trans (w1 w2 w3 : world E) :
  only_loads w1 w2 -> only_loads w2 w3 -> only_loads w1 w3.
Proof.
  intros H12 H23. pose proof H12 as (He & Hp & Hk).
  pose proof H23 as (He' & Hp' & Hk').
  split; [congruence|]. split; [congruence|].
  intros i Hi. rewrite <- (Hk i Hi). apply Hk'. by eapply is_loaded_only_loads.
Qed.

Lemma only_loads_length (w w' : world E) :
  only_loads w w' ->
  length (resource (sfx_resources w')) = length (resource (sfx_resources w)).
Proof. intros (_ & Hp & _). by rewrite <- (length_fmap path), Hp, length_fmap. Qed.

Lemma get_sfx_resource_only_loads (w : world E) (i : Z) :
  0 <= i < Z.of_nat (length (resource (sfx_resources w))) ->
  exists w' c,
    get_sfx_resource w i = returned (w', c) /\ only_loads w w' /\
    is_loaded (resource (sfx_resources w')) i.
Proof.
  intros Hi. unfold get_sfx_resource.
  destruct (Z.ltb_spec i 0) as [|_]; [lia|].
  destruct (lookup_lt_is_Some_2 (resource (sfx_resources w)) (Z.to_nat i)) as [r Hr]; [lia|].
  rewrite Hr. destruct r as [p [c|]].
  - exists w, c. split; [done|]. split; [done|]. split; [lia|]. by exists (mk_resource p (Some c)), c.
  - eexists _, _. split; [reflexivity|].
    unfold only_loads, set_resource. cbn [sfx_resources resource sound_effects].
    split; [split; [done|split]|].
    + rewrite list_fmap_insert. simpl. apply list_insert_id.
      by rewrite list_lookup_fmap, Hr.
    + intros j (Hj & r' & c' & Hr' & Hc').
      apply list_lookup_insert_ne. intros Heq.
      assert (j = i) as -> by lia. rewrite Hr in Hr'. by injection Hr' as <-.
    + split; [lia|]. eexists _, _.
      split; [apply list_lookup_insert_eq; lia|reflexivity].
Qed.

Lemma preload_bucket_loads (b : list Resolver.sound_effect) : forall w : world E,
  Forall (fun e => 0 <= Resolver.resource_id e
                   < Z.of_nat (length (resource (sfx_resources w)))) b ->
  exists w',
    preload_bucket w b = returned w' /\ only_loads w w' /\
    forall e, e ∈ b -> is_loaded (resource (sfx_resources w')) (Resolver.resource_id e).
Proof.
  induction b as [|e b IH]; intros w Hall.
  - exists w. split; [done|]. split; [done|]. intros e He. by apply elem_of_nil in He.
  - apply Forall_cons in Hall as [He Hall]. cbn [preload_bucket].
    destruct (get_sfx_resource_only_loads w _ He) as (w1 & c & -> & H1 & Hl).
    cbn [mbind result_bind].
    destruct (IH w1) as (w' & Hw' & H2 & Hb).
    { by rewrite (only_loads_length _ _ H1). }
    exists w'. split; [done|]. split; [by eapply only_loads_trans|].
    intros e' [->|Hin]%elem_of_cons; [|by apply Hb].
    by eapply is_loaded_only_loads.
Qed.

Lemma effects_resolvable_only_loads (w w' : world E) :
  only_loads w w' ->
  effects_resolvable (sound_effects (sfx_resources w)) (resource (sfx_resources w)) ->
  effects_resolvable (sound_effects (sfx_resources w')) (resource (sfx_resources w')).
Proof.
  intros Hl Hres k1 k2 k3 k4 k5 b e. rewrite (only_loads_length _ _ Hl).
  destruct Hl as (-> & _). apply Hres.
Qed.

Lemma find_exact_known (m : Resolver.sfx_map) (key : Resolver.sfx_args) :
  Resolver.season key ∈ known_seasons ->
  exists s, Resolver.season_from_string (Resolver.season key) = ok s /\
    Resolver.find_exact m key
    = ok (Resolver.find_sfx (Resolver.effects m) (Resolver.id key) (Resolver.variant key) s
            (Resolver.in_or_out_of (Resolver.indoors key))
            (Resolver.tod_of (Resolver.night key))).
Proof.
  intros [s Hs]%season_from_string_cases. exists s. split; [done|].
  by rewrite find_exact_unfold, Hs.
Qed.

Lemma preload_key_loads (w : world E) (key : Resolver.sfx_args) :
  effects_resolvable (sound_effects (sfx_resources w)) (resource (sfx_resources w)) ->
  Resolver.season key ∈ known_seasons ->
  exists w',
    preload_all w [key] = returned w' /\ only_loads w w' /\
    forall b e, Resolver.find_exact (sound_effects (sfx_resources w)) key = ok (Some b) ->
      e ∈ b -> is_loaded (resource (sfx_resources w')) (Resolver.resource_id e).
Proof.
  intros Hres Hkey. cbn [preload_all].
  destruct (find_exact_known (sound_effects (sfx_resources w)) key Hkey) as (s & Hs & ->).
  cbn [of_res mbind result_bind].
  destruct (Resolver.find_sfx _ _ _ _ _ _) as [b|] eqn:Hb.
  - destruct (preload_bucket_loads b w) as (w' & -> & Hl & Hall).
    { apply Forall_forall. intros e He. by eapply Hres. }
    exists w'. split; [done|]. split; [done|]. intros b' e [= <-]. apply Hall.
  - exists w. split; [done|]. split; [done|]. by intros b e [=].
Qed.

Lemma preload_all_cons (w : world E) key keys :
  preload_all w (key :: keys) = (w' ← preload_all w [key]; preload_all w' keys).
Proof.
  cbn [preload_all].
  destruct (of_res _) as [[b|]| |]; cbn [mbind result_bind]; try done.
  by destruct (preload_bucket w b).
Qed.

(** X8.  The preload loop of [load_soundset].  While every stored effect
    names a resource of the table: if every key to preload has a known
    season, the loop runs to its end without leaving the table; it
    changes neither the effects nor the paths nor a chunk that was
    loaded, and afterwards the chunk of every effect in the bucket of
    every preloaded key is loaded.  If some key has an unknown season,
    the exact lookup throws [std::invalid_argument] out of
    [load_soundset]: the loop is not inside the [try] block. *)
Theorem preload_loads_every_effect (w : world E) (keys : list Resolver.sfx_args) :
  effects_resolvable (sound_effects (sfx_resources w)) (resource (sfx_resources w)) ->
  (Forall (fun key => Resolver.season key ∈ known_seasons) keys ->
   exists w',
     preload_all w keys = returned w' /\ only_loads w w' /\
     forall key b e, key ∈ keys ->
       Resolver.find_exact (sound_effects (sfx_resources w')) key = ok (Some b) ->
       e ∈ b -> is_loaded (resource (sfx_resources w')) (Resolver.resource_id e)) /\
  (Exists (fun key => Resolver.season key ∉ known_seasons) keys ->
   preload_all w keys = raised invalid_argument).
Proof.
  revert w. induction keys as [|key keys IH]; intros w Hres.
  - split.
    + intros _. exists w. split; [done|]. split; [done|].
      intros key b e Hin. by apply elem_of_nil in Hin.
    + intros Hex. by apply Exists_nil in Hex.
  - rewrite preload_all_cons. split.
    + intros [Hkey Hkeys]%Forall_cons.
      destruct (preload_key_loads w key Hres Hkey) as (w1 & -> & Hl1 & Hb1).
      cbn [mbind result_bind].
      destruct (IH w1 (effects_resolvable_only_loads _ _ Hl1 Hres)) as [IHok _].
      destruct (IHok Hkeys) as (w' & Hw' & Hl' & Hb').
      exists w'. split; [done|]. split; [by eapply only_loads_trans|].
      intros key0 b e [->|Hin]%elem_of_cons Hfind He; [|by eapply Hb'].
      eapply is_loaded_only_loads; [exact Hl'|].
      eapply Hb1; [|exact He].
      by rewrite <- (proj1 Hl1), <- (proj1 Hl').
    + intros Hex.
      destruct (decide (Resolver.season key ∈ known_seasons)) as [Hkey|Hkey].
      * destruct (preload_key_loads w key Hres Hkey) as (w1 & -> & Hl1 & _).
        cbn [mbind result_bind].
        apply (IH w1 (effects_resolvable_only_loads _ _ Hl1 Hres)).
        apply Exists_cons in Hex as [Hbad|Hex]; done.
      * cbn [preload_all]. rewrite find_exact_unfold.
        destruct (Resolver.season_from_string (Resolver.season key)) as [s|[]] eqn:Hs; [|done].
        destruct Hkey. apply season_from_string_cases. eauto.
Qed.

End LoadingFacts.

Section LoadingExamples.
Import F32 Audio Playback Soundpack.

Lemma fresh_globals_invariants :
  paths_interned fresh_globals /\
  effects_resolvable (effects_map fresh_globals) (resources fresh_globals).
Proof.
  split.
  - intros p i Hp. cbn in Hp. by rewrite lookup_empty in Hp.
  - intros k1 k2 k3 k4 k5 b e Hb. cbn in Hb. unfold Resolver.find_sfx in Hb.
    by rewrite find_sfx_next_empty in Hb.
Qed.

Lemma door_object_loads : load_sound_effects fresh_globals door_object = ok door_loaded.
Proof. vm_compute. reflexivity. Qed.

Lemma door_loaded_invariants :
  paths_interned door_loaded /\
  effects_resolvable (effects_map door_loaded) (resources door_loaded).
Proof.
  pose proof door_object_loads as Hload. unfold load_sound_effects in Hload.
  cbn [negb sfx fresh_globals sound_init_success] in Hload.
  destruct (load_variants_spec _ _ _ _ _ _ (proj1 fresh_globals_invariants)
              (proj2 fresh_globals_invariants) Hload) as (? & ? & _).
  done.
Qed.

Lemma add_sfx_path_interns_witness :
  paths_interned fresh_globals /\
  exists g' i,
    add_sfx_path fresh_globals "creak.wav" = (g', i) /\
    paths_interned g' /\
    0 <= i < Z.of_nat (length (resources g')) /\
    path <$> (resources g' !! Z.to_nat i) = Some "creak.wav"%string /\
    (exists added, resources g' = resources fresh_globals ++ added /\
                   (length added <= 1)%nat) /\
    effects_map g' = effects_map fresh_globals /\
    add_sfx_path g' "creak.wav" = (g', i) /\
    (forall q g'' j, add_sfx_path g' q = (g'', j) -> q <> "creak.wav"%string -> j <> i).
Proof.
  split; [apply fresh_globals_invariants|].
  apply (add_sfx_path_interns fresh_globals "creak.wav"), fresh_globals_invariants.
Defined.

Lemma load_sound_effects_round_trip_witness :
  sound_init_success (sfx fresh_globals) = true /\
  load_sound_effects fresh_globals door_object = ok door_loaded /\
  forall variant, variant ∈ variants_of (js_variant door_object) ->
    exists old new,
      Resolver.find_exact (effects_map door_loaded)
        (Resolver.mk_sfx_args (js_id door_object) variant
           (default EmptyString (js_season door_object))
           (js_is_indoors door_object) (js_is_night door_object))
      = ok (Some (old ++ new)) /\
      (fun e => (Resolver.volume e, path_of (resources door_loaded) e)) <$> new
      = (fun f => (default 100 (js_volume door_object), Some f)) <$> js_files door_object.
Proof.
  split; [reflexivity|]. split; [exact door_object_loads|].
  exact (load_sound_effects_round_trip fresh_globals door_object door_loaded eq_refl
           (proj1 fresh_globals_invariants) (proj2 fresh_globals_invariants)
           door_object_loads).
Defined.

Lemma load_sound_effects_only_appends_witness :
  load_sound_effects fresh_globals door_object = ok door_loaded /\
  paths_interned door_loaded /\
  effects_resolvable (effects_map door_loaded) (resources door_loaded) /\
  (exists added, resources door_loaded = resources fresh_globals ++ added) /\
  (forall key b, Resolver.find_exact (effects_map fresh_globals) key = ok (Some b) ->
     exists extra, Resolver.find_exact (effects_map door_loaded) key = ok (Some (b ++ extra))).
Proof.
  split; [exact door_object_loads|].
  exact (load_sound_effects_only_appends fresh_globals door_object door_loaded
           (proj1 fresh_globals_invariants) (proj2 fresh_globals_invariants)
           door_object_loads).
Defined.

(** The door effects, loaded and looked up: both variants hold the three
    effects, and the file named twice has one resource. *)
Lemma door_loaded_buckets :
  Resolver.find_exact (effects_map door_loaded)
    (Resolver.mk_sfx_args "door" "close" "winter" (Some true) None)
  = ok (Some [ Resolver.mk_sound_effect 70 0; Resolver.mk_sound_effect 70 1;
               Resolver.mk_sound_effect 70 0 ]) /\
  path <$> resources door_loaded = ["creak.wav"; "slam.wav"]%string.
Proof. split; by vm_compute. Qed.

Lemma preload_loads_every_effect_witness :
  effects_resolvable (sound_effects (sfx_resources (sfx door_loaded)))
    (resource (sfx_resources (sfx door_loaded))) /\
  (Forall (fun key => Resolver.season key ∈ known_seasons)
     [Resolver.mk_sfx_args "door" "close" "winter" (Some true) None] ->
   exists w',
     preload_all (sfx door_loaded) [Resolver.mk_sfx_args "door" "close" "winter" (Some true) None]
       = returned w' /\ only_loads (sfx door_loaded) w' /\
     forall key b e, key ∈ [Resolver.mk_sfx_args "door" "close" "winter" (Some true) None] ->
       Resolver.find_exact (sound_effects (sfx_resources w')) key = ok (Some b) ->
       e ∈ b -> is_loaded (resource (sfx_resources w')) (Resolver.resource_id e)) /\
  (Exists (fun key => Resolver.season key ∉ known_seasons)
     [Resolver.mk_sfx_args "door" "close" "winter" (Some true) None] ->
   preload_all (sfx door_loaded) [Resolver.mk_sfx_args "door" "close" "winter" (Some true) None]
     = raised invalid_argument).
Proof.
  split; [apply door_loaded_invariants|].
  apply (preload_loads_every_effect (sfx door_loaded)
           [Resolver.mk_sfx_args "door" "close" "winter" (Some true) None]).
  apply door_loaded_invariants.
Defined.

End LoadingExamples.

(** * Properties of the play requests *)

Section RequestFacts.
Import F32 Audio Playback Soundpack.
Context {E : Type} `{Environment E} `{Host E}.

Lemma find_random_effect_raises (w : world E) id variant season is_indoors is_night :
  season ∉ known_seasons ->
  find_random_effect w id variant season is_indoors is_night = raised invalid_argument.
Proof.
  intros Hs. unfold find_random_effect. rewrite find_unfold.
  destruct (Resolver.season_from_string season) as [s|[]] eqn:Es; [|done].
  destruct Hs. apply season_from_string_cases. eauto.
Qed.

Lemma find_random_effect_none (w : world E) id variant season is_indoors is_night :
  Resolver.find (sound_effects (sfx_resources w)) id variant season is_indoors is_night
    = ok None ->
  find_random_effect w id variant season is_indoors is_night = returned (w, None).
Proof. intros Hf. unfold find_random_effect. by rewrite Hf. Qed.

Lemma find_random_effect_none_inv (w w1 : world E) id variant season is_indoors is_night :
  find_random_effect w id variant season is_indoors is_night = returned (w1, None) ->
  w1 = w.
Proof.
  unfold find_random_effect.
  destruct (of_res _) as [[b|]| |]; cbn [mbind result_bind]; try done.
  - by destruct (random_entry_ref (env w) b).
  - by intros [= ->].
Qed.

(** X9.  The requests are silent when they should be: in test mode,
    before the mixer is initialised, with sound disabled, or for a
    volume that is not positive, the two [sfx::play_variant_sound]
    overloads and [sfx::play_ambient_variant_sound] return with every
    global as it was: nothing is looked up, loaded or played. *)
Theorem requests_are_silent_when_sound_is_off (w : world E) (id variant season : string)
    (is_indoors is_night : option bool) (volume : Z) (angle : Z)
    (pitch_min pitch_max : pitch_arg) (channel fade_in_duration : Z)
    (pitch : pitch_arg) (loops : Z) :
  test_mode w = true \/ sound_init_success w = false \/ sound_enabled w = false
    \/ volume <= 0 ->
  play_variant_sound w id variant season is_indoors is_night volume = returned w /\
  play_variant_sound_pitched w id variant season is_indoors is_night volume angle
    pitch_min pitch_max = returned w /\
  play_ambient_variant_sound w id variant season is_indoors is_night volume channel
    fade_in_duration pitch loops = returned w.
Proof.
  intros Hoff.
  unfold play_variant_sound, play_variant_sound_pitched, play_ambient_variant_sound,
    check_sound.
  destruct (test_mode w); [done|].
  destruct Hoff as [?|[->|[->|Hv]]]; [done|done|by rewrite andb_false_r|].
  rewrite (bool_decide_eq_false_2 (volume > 0)) by lia.
  by rewrite !andb_false_r.
Qed.

(** X10.  Only the plain request falls back.  When sound is on and the
    best-match lookup of the request finds nothing, the six-argument
    [sfx::play_variant_sound] does exactly what it does for the variant
    "default" of the same id with no season and no flags, while the
    overload with angle and pitch, and the ambient request, return
    with every global as it was. *)
Theorem only_the_plain_request_falls_back (w : world E) (id variant season : string)
    (is_indoors is_night : option bool) (volume : Z) (angle : Z)
    (pitch_min pitch_max : pitch_arg) (channel fade_in_duration : Z)
    (pitch : pitch_arg) (loops : Z) :
  test_mode w = false -> check_sound w volume = true ->
  Resolver.find (sound_effects (sfx_resources w)) id variant season is_indoors is_night
    = ok None ->
  play_variant_sound w id variant season is_indoors is_night volume
    = play_variant_sound w id "default" EmptyString None None volume /\
  play_variant_sound_pitched w id variant season is_indoors is_night volume angle
    pitch_min pitch_max = returned w /\
  play_ambient_variant_sound w id variant season is_indoors is_night volume channel
    fade_in_duration pitch loops = returned w.
Proof.
  intros Htest Hsound Hnone.
  unfold play_variant_sound, play_variant_sound_pitched, play_ambient_variant_sound.
  rewrite Htest, Hsound. cbn [negb].
  rewrite (find_random_effect_none _ _ _ _ _ _ Hnone). cbn [mbind result_bind].
  split; [|split; [done|by destruct (is_channel_playing (env w) channel)]].
  destruct (find_random_effect w id "default" EmptyString None None)
    as [[w1 [eff|]]| |] eqn:Hdefault; cbn [mbind result_bind]; try done.
  apply find_random_effect_none_inv in Hdefault as Hw. subst w1.
  by rewrite Hdefault.
Qed.

(** X11.  An unknown season is an error of the request.  With sound on,
    a season string other than the empty one, "spring", "summer",
    "autumn" and "winter" makes [sfx::has_variant_sound], both
    [sfx::play_variant_sound] overloads and (on a channel that is not
    playing) [sfx::play_ambient_variant_sound] leave by
    [std::invalid_argument]: nothing in the file catches what
    [season_from_string] throws. *)
Theorem requests_raise_on_unknown_season (w : world E) (id variant season : string)
    (is_indoors is_night : option bool) (volume : Z) (angle : Z)
    (pitch_min pitch_max : pitch_arg) (channel fade_in_duration : Z)
    (pitch : pitch_arg) (loops : Z) :
  season ∉ known_seasons ->
  has_variant_sound w id variant season is_indoors is_night = raised invalid_argument /\
  (test_mode w = false -> check_sound w volume = true ->
   play_variant_sound w id variant season is_indoors is_night volume
     = raised invalid_argument /\
   play_variant_sound_pitched w id variant season is_indoors is_night volume angle
     pitch_min pitch_max = raised invalid_argument /\
   (is_channel_playing (env w) channel = false ->
    play_ambient_variant_sound w id variant season is_indoors is_night volume channel
      fade_in_duration pitch loops = raised invalid_argument)).
Proof.
  intros Hs.
  pose proof (find_random_effect_raises w id variant season is_indoors is_night Hs) as Hr.
  unfold has_variant_sound, play_variant_sound, play_variant_sound_pitched,
    play_ambient_variant_sound.
  rewrite Hr. split; [done|]. intros -> ->. cbn [negb mbind result_bind].
  split; [done|]. split; [done|]. by intros ->.
Qed.


Lemma delete_handler_head (h : sound_effect_handler) hs : delete_handler (h :: hs) h = hs.
Proof. simpl. by rewrite decide_True. Qed.

Lemma Mix_VolumeChunk_samples (c : Mix_Chunk) (v : Z) :
  allocated (Mix_VolumeChunk c v) = allocated c /\
  abuf (Mix_VolumeChunk c v) = abuf c /\ alen (Mix_VolumeChunk c v) = alen c /\
  Audio.volume (Mix_VolumeChunk c v) = if v <? 0 then Audio.volume c else Z.min v 128.
Proof. unfold Mix_VolumeChunk. by destruct (v <? 0). Qed.

Lemma store_samples (w : world E) (ptr : chunk_ptr) (c0 c : Mix_Chunk) :
  deref w ptr = returned c0 ->
  allocated c = allocated c0 -> abuf c = abuf c0 -> alen c = alen c0 ->
  samples_of <$> resource (sfx_resources (store w ptr c).1)
  = samples_of <$> resource (sfx_resources w) /\
  sound_effects (sfx_resources (store w ptr c).1) = sound_effects (sfx_resources w) /\
  handlers (store w ptr c).1 = handlers w /\ env (store w ptr c).1 = env w.
Proof.
  intros Hderef Ha Hb Hl. destruct ptr as [i|c']; [|done].
  unfold store, set_resource. cbn [fst sfx_resources resource sound_effects handlers env].
  split; [|done]. apply list_eq. intros j.
  rewrite !list_lookup_fmap.
  destruct (decide (j = Z.to_nat i)) as [->|Hne].
  - rewrite list_lookup_alter_eq. unfold deref in Hderef.
    destruct (i <? 0); [done|].
    destruct (resource (sfx_resources w) !! Z.to_nat i) as [[p [c1|]]|]; try done.
    injection Hderef as ->. simpl. unfold samples_of. simpl. by rewrite Ha, Hb, Hl.
  - by rewrite list_lookup_alter_ne.
Qed.



Lemma to_int32_int k : - 2 ^ 31 <= k < 2 ^ 31 -> to_int32 (fin (k * unit)) = Some k.
Proof.
  intros Hk. unfold to_int32, to_int_range, truncate.
  rewrite Z.quot_mul by (pose proof unit_pos; lia).
  destruct (Z.leb_spec (- 2 ^ 31) k), (Z.leb_spec k (2 ^ 31 - 1)); simpl; done || lia.
Qed.

Lemma get_sfx_resource_chunk (w w' : world E) (i : Z) (c : Mix_Chunk) :
  get_sfx_resource w i = returned (w', c) ->
  env w' = env w /\ 0 <= i /\
  exists p, resource (sfx_resources w') !! Z.to_nat i = Some (mk_resource p (Some c)).
Proof.
  unfold get_sfx_resource. destruct (Z.ltb_spec i 0) as [|Hi]; [done|].
  destruct (resource (sfx_resources w) !! Z.to_nat i) as [[p [c1|]]|] eqn:Hr; [| |done].
  - intros [= <- <-]. split; [done|]. split; [done|]. by exists p.
  - intros [= <- <-]. split; [done|]. split; [done|]. exists p.
    unfold set_resource. cbn [sfx_resources resource].
    apply list_lookup_insert_eq. by eapply lookup_lt_Some.
Qed.

(** The tables after [make_audio] on the chunk of a resource. *)
Lemma make_audio_on_resource (w : world E) audioChannel (i : Z) nloops volume owns_audio
    effect angle (ms : Z) p c0 :
  0 <= i -> resource (sfx_resources w) !! Z.to_nat i = Some (mk_resource p (Some c0)) ->
  0 <= ms <= 2 ^ 24 ->
  exists w' failed,
    make_audio w audioChannel (resource_chunk i) nloops volume owns_audio effect angle
      (Some (of_int ms)) = returned (w', failed) /\
    resource (sfx_resources w') !! Z.to_nat i
    = Some (mk_resource p
        (Some (Mix_VolumeChunk c0
           ((Resolver.volume effect * get_option_int (env w) "SOUND_EFFECT_VOLUME" * volume)
            ÷ (100 * 100))))).
Proof.
  intros Hi Hr Hms. unfold make_audio, deref.
  destruct (Z.ltb_spec i 0) as [|_]; [lia|]. rewrite Hr. cbn [mbind result_bind].
  rewrite of_int_exact by lia. rewrite to_int32_int by lia.
  cbn [converted of_outcome mbind result_bind store].
  set (c := Mix_VolumeChunk c0 _).
  set (w1 := set_handlers _ _).
  assert (Hw1 : resource (sfx_resources w1) !! Z.to_nat i = Some (mk_resource p (Some c))).
  { unfold w1, set_handlers, set_resource. cbn [sfx_resources resource].
    by rewrite list_lookup_alter_eq, Hr. }
  clearbody w1.
  destruct (Mix_FadeInChannel (env w1) audioChannel c (-1) ms) as [e channel].
  cbn [mbind result_bind].
  destruct (bool_decide (channel = -1)).
  - destruct angle; eexists _, _; (split; [reflexivity|exact Hw1]).
  - cbn [env set_env].
    destruct (Mix_RegisterEffect e channel (new_handler c nloops owns_audio)) as [e1 out].
    destruct (decide (out = 0)); destruct angle;
      eexists _, _; (split; [reflexivity|exact Hw1]).
Qed.


End RequestFacts.

Section RequestExamples.
Import F32 Audio Playback Soundpack.

Lemma requests_are_silent_when_sound_is_off_witness :
  (test_mode (test_world []) = true \/ sound_init_success (test_world []) = false
   \/ sound_enabled (test_world []) = false \/ 0 <= 0) /\
  play_variant_sound (test_world []) "wind" "default" EmptyString None None 0
    = returned (test_world []) /\
  play_variant_sound_pitched (test_world []) "wind" "default" EmptyString None None 0 90
    (mk_pitch true one) (mk_pitch true one) = returned (test_world []) /\
  play_ambient_variant_sound (test_world []) "wind" "default" EmptyString None None 0 3
    1000 (mk_pitch false zero) (-1) = returned (test_world []).
Proof.
  split; [right; right; right; lia|].
  apply (requests_are_silent_when_sound_is_off (test_world [])).
  right; right; right; lia.
Defined.

Lemma only_the_plain_request_falls_back_witness :
  test_mode gale_world = false /\ check_sound gale_world 50 = true /\
  Resolver.find (sound_effects (sfx_resources gale_world)) "wind" "gale" "winter"
    (Some true) None = ok None /\
  play_variant_sound gale_world "wind" "gale" "winter" (Some true) None 50
    = play_variant_sound gale_world "wind" "default" EmptyString None None 50 /\
  play_variant_sound_pitched gale_world "wind" "gale" "winter" (Some true) None 50 90
    (mk_pitch true one) (mk_pitch true one) = returned gale_world /\
  play_ambient_variant_sound gale_world "wind" "gale" "winter" (Some true) None 50 3
    1000 (mk_pitch false zero) (-1) = returned gale_world.
Proof.
  split; [reflexivity|]. split; [reflexivity|]. split; [by vm_compute|].
  apply (only_the_plain_request_falls_back gale_world); by vm_compute.
Defined.

Lemma requests_raise_on_unknown_season_witness :
("monsoon"%string ∉ known_seasons) /\
  has_variant_sound (test_world []) "wind" "default" "monsoon" None None
    = raised invalid_argument /\
  (test_mode (test_world []) = false -> check_sound (test_world []) 50 = true ->
   play_variant_sound (test_world []) "wind" "default" "monsoon" None None 50
     = raised invalid_argument /\
   play_variant_sound_pitched (test_world []) "wind" "default" "monsoon" None None 50 90
     (mk_pitch true one) (mk_pitch true one) = raised invalid_argument /\
   (is_channel_playing (env (test_world [])) 3 = false ->
    play_ambient_variant_sound (test_world []) "wind" "default" "monsoon" None None 50 3
      1000 (mk_pitch false zero) (-1) = raised invalid_argument)).
Proof.
  assert (Hs : "monsoon"%string ∉ known_seasons).
  { unfold known_seasons. rewrite !elem_of_cons, elem_of_nil. intuition congruence. }
  split; [exact Hs|].
  apply (requests_raise_on_unknown_season (test_world []) "wind" "default" "monsoon"
           None None 50 90 (mk_pitch true one) (mk_pitch true one) 3 1000
           (mk_pitch false zero) (-1) Hs).
Defined.



(** The plain request for a variant that is recorded for another
    season only asks the mixer for the default variant, whose chunk it
    has loaded and set to the requested volume. *)
Lemma plain_request_plays_the_default :
  exists w',
    play_variant_sound gale_world "wind" "gale" "winter" (Some true) None 50
      = returned w' /\
    log (env w') = [played (-1) (-1)] /\
    (chunk <$> resource (sfx_resources w') !! 0%nat)
      = Some (Some (mk_chunk 0 (abuf beep) 8 40)).
Proof. eexists. split; [by vm_compute|]. by vm_compute. Qed.

End RequestExamples.

(** * Properties of the music *)

Section MusicFacts.
Import F32 Audio Playback Soundpack.
Context {E : Type} `{Environment E} `{Host E}.

(** [play_music_file] touches the mixer and [current_music] only. *)
Lemma play_music_file_music (g : globals E) (filename : string) (v : Z) :
  exists mus, music (play_music_file g filename v) = set_current_music (music g) mus /\
    test_mode (sfx (play_music_file g filename v)) = test_mode (sfx g).
Proof.
  unfold play_music_file.
  destruct (test_mode (sfx g)) eqn:Ht.
  { exists (current_music (music g)). by destruct (music g). }
  destruct (negb (check_sound (sfx g) v)).
  { exists (current_music (music g)). by destruct (music g). }
  cbn [music with_music current_music set_current_music].
  destruct (Mix_LoadMUS _ _) as [mus|]; [|by exists None].
  destruct (Mix_PlayMusic _ mus 0) as [e rc].
  exists (Some mus). by destruct (decide (rc <> 0)).
Qed.

Lemma playing_set_current_music (m : music_globals) mus :
  playing m -> playing (set_current_music m mus).
Proof. intros (list & Hl). by exists list. Qed.

Lemma permutation_of_positions (indexes : list nat) (n at_ i : nat) :
  indexes ≡ₚ seq 0 n -> indexes !! i = Some at_ -> (at_ < n)%nat.
Proof.
  intros Hperm Hat. apply list_elem_of_lookup_2 in Hat.
  rewrite Hperm in Hat. apply elem_of_seq in Hat. lia.
Qed.

Lemma stop_music_stopped (g : globals E) :
  test_mode (sfx g) = false ->
  stopped (music (stop_music g)) /\
  playlists (music (stop_music g)) = playlists (music g) /\
  current_music_track_volume (music (stop_music g)) = current_music_track_volume (music g) /\
  test_mode (sfx (stop_music g)) = false.
Proof. intros Ht. unfold stop_music. rewrite Ht. by repeat split. Qed.

(** What [play_music] does for a playlist other than the current one. *)
Lemma play_music_other (g : globals E) (playlist : string) :
  test_mode (sfx g) = false -> playlist <> current_playlist (music g) ->
  exists g',
    play_music g playlist = finished g' /\
    playlists (music g') = playlists (music g) /\
    match playlists (music g) !! playlist with
    | Some list =>
        if decide (entries list = []) then stopped (music g')
        else
          playing (music g') /\ current_playlist (music g') = playlist /\
          absolute_playlist_at (music g') = 0%nat /\
          (volume <$> entries list !! current_playlist_at (music g'))
            = Some (current_music_track_volume (music g'))
    | None => stopped (music g')
    end.
Proof.
  intros Ht Hne. unfold play_music. rewrite decide_False by done.
  destruct (stop_music_stopped g Ht) as ((Hcur & Hidx & Habs) & Hpl & _ & Ht').
  rewrite Hpl.
  destruct (playlists (music g) !! playlist) as [list|] eqn:Hlist.
  2:{ eexists. split; [reflexivity|]. by split. }
  destruct (decide (entries list = [])) as [Hempty|Hfull].
  { eexists. split; [reflexivity|]. by split. }
  rewrite Hidx. cbn [app].
  set (n := length (entries list)).
  assert (Hn : (0 < n)%nat).
  { unfold n. destruct (entries list); [done|simpl; lia]. }
  assert (Hshuffled : exists e indexes,
    (if shuffle list then std_shuffle (env (sfx (stop_music g))) (seq 0 n)
     else (env (sfx (stop_music g)), seq 0 n)) = (e, indexes) /\
    indexes ≡ₚ seq 0 n).
  { destruct (shuffle list).
    - destruct (std_shuffle _ (seq 0 n)) as [e indexes] eqn:Hs.
      exists e, indexes. split; [done|].
      pose proof (std_shuffle_permutation (env (sfx (stop_music g))) (seq 0 n)) as Hp.
      by rewrite Hs in Hp.
    - by eexists _, _. }
  destruct Hshuffled as (e & indexes & -> & Hperm).
  cbn [music with_env with_sfx]. rewrite Habs.
  destruct (lookup_lt_is_Some_2 indexes 0) as [at_ Hat].
  { rewrite Hperm, length_seq. lia. }
  rewrite Hat.
  pose proof (permutation_of_positions _ _ _ _ Hperm Hat) as Hlt.
  destruct (lookup_lt_is_Some_2 (entries list) at_ Hlt) as [next Hnext].
  rewrite Hnext.
  set (g1 := with_music _ _).
  destruct (play_music_file_music g1 (file next) (volume next)) as (mus & Hm & _).
  eexists. split; [reflexivity|]. rewrite Hm.
  unfold g1. cbn [music with_music with_env with_sfx set_current_music playlists
                  current_playlist absolute_playlist_at current_playlist_at
                  current_music_track_volume].
  split; [done|]. split; [|split; [done|split; [done|by rewrite Hnext]]].
  exists list. cbn. by rewrite Hpl, Hlist.
Qed.

(** X14.  [play_music] leaves a valid position.  Outside test mode it
    always returns ([playlist_indexes.at] does not throw and [entries]
    is not read past its end), whatever the state before.  For the
    playlist that is current it changes nothing.  For another one it
    stops the music first; if the playlist is unknown or empty nothing
    is selected afterwards; otherwise the playlist is selected, the
    indexes are a permutation of the positions of its entries (shuffled
    or not), the position is the first index, the current entry is the
    one that index names, and [current_music_track_volume] is the
    volume of that entry. *)
Theorem play_music_leaves_a_valid_position (g : globals E) (playlist : string) :
  test_mode (sfx g) = false ->
  exists g',
    play_music g playlist = finished g' /\
    (playlist = current_playlist (music g) -> g' = g) /\
    (playlist <> current_playlist (music g) ->
     match playlists (music g) !! playlist with
     | Some list =>
         if decide (entries list = []) then stopped (music g')
         else
           playing (music g') /\ current_playlist (music g') = playlist /\
           absolute_playlist_at (music g') = 0%nat /\
           (volume <$> entries list !! current_playlist_at (music g'))
             = Some (current_music_track_volume (music g'))
     | None => stopped (music g')
     end).
Proof.
  intros Ht. destruct (decide (playlist = current_playlist (music g))) as [Heq|Hne].
  - exists g. unfold play_music. rewrite decide_True by done. by repeat split.
  - destruct (play_music_other g playlist Ht Hne) as (g' & Hg' & _ & Hstate).
    exists g'. split; [done|]. split; [done|]. by intros _.
Qed.

(** X15.  [musicFinished] steps through the playlist in a cycle.  While
    a playlist is being played (outside test mode), the callback always
    returns, and afterwards a playlist is being played or none is
    selected.  If the game still asks for the current playlist, the
    position in the indexes moves to its successor, or to 0 from the
    last one, the indexes and the playlist stay, and the current entry
    is the one the new position names; as the indexes are a permutation
    of the positions, every entry comes up once in each round.
    [current_music_track_volume] is not updated: it keeps the volume of
    the entry the playlist was started with. *)
Theorem musicFinished_steps_in_a_cycle (g : globals E) :
  test_mode (sfx g) = false -> playing (music g) ->
  exists g',
    musicFinished g = finished g' /\
    (playing (music g') \/ stopped (music g')) /\
    (get_music_id_string
       (Mix_FreeMusic (Mix_HaltMusic (env (sfx g))) (current_music (music g)))
     = current_playlist (music g) ->
     playing (music g') /\
     current_playlist (music g') = current_playlist (music g) /\
     playlist_indexes (music g') = playlist_indexes (music g) /\
     absolute_playlist_at (music g')
       = (S (absolute_playlist_at (music g)) mod length (playlist_indexes (music g)))%nat /\
     current_music_track_volume (music g') = current_music_track_volume (music g)).
Proof.
  intros Ht Hplaying. unfold musicFinished. rewrite Ht.
  set (e := Mix_FreeMusic _ _).
  set (g1 := with_music (with_env g e) (set_current_music (music g) None)).
  assert (Hm1 : music g1 = set_current_music (music g) None) by done.
  assert (He1 : env (sfx g1) = e) by done.
  assert (Ht1 : test_mode (sfx g1) = false) by done.
  rewrite He1.
  destruct (decide (current_playlist (music g1) <> get_music_id_string e)) as [Hne|Heq].
  - destruct (play_music_other g1 (get_music_id_string e) Ht1) as (g' & -> & _ & Hstate);
      [congruence|].
    exists g'. split; [done|]. split.
    + destruct (playlists (music g1) !! get_music_id_string e) as [list|]; [|by right].
      destruct (decide (entries list = [])); [by right|left; apply Hstate].
    + intros Hsame. destruct Hne. by rewrite Hm1.
  - destruct Hplaying as (list & Hlist & Hperm & Habs & Hat).
    assert (Hlen : length (playlist_indexes (music g)) = length (entries list)).
    { by rewrite Hperm, length_seq. }
    rewrite Hm1. cbn [playlists current_playlist set_current_music
                      absolute_playlist_at playlist_indexes].
    rewrite Hlist.
    destruct (decide (entries list = [])) as [Hempty|_].
    { rewrite Hempty in Habs. simpl in Habs. lia. }
    set (next_at := if decide (length (entries list) <= S (absolute_playlist_at (music g)))%nat
                    then 0%nat else S (absolute_playlist_at (music g))).
    assert (Hnext_at : (next_at < length (entries list))%nat /\
                       next_at = (S (absolute_playlist_at (music g))
                                  mod length (entries list))%nat).
    { unfold next_at. case_decide as Hwrap.
      - assert (S (absolute_playlist_at (music g)) = length (entries list)) as -> by lia.
        rewrite Nat.Div0.mod_same. lia.
      - rewrite Nat.mod_small by lia. lia. }
    destruct Hnext_at as [Hlt Hmod].
    destruct (lookup_lt_is_Some_2 (playlist_indexes (music g)) next_at) as [at_ Hat'];
      [lia|].
    rewrite Hat'.
    pose proof (permutation_of_positions _ _ _ _ Hperm Hat') as Hat_lt.
    destruct (lookup_lt_is_Some_2 (entries list) at_ Hat_lt) as [next Hnext].
    rewrite Hnext.
    set (g2 := with_music g1 _).
    destruct (play_music_file_music g2 (file next) (volume next)) as (mus & Hm & _).
    eexists. split; [reflexivity|]. rewrite Hm.
    assert (Hp : playing (set_current_music (music g2) mus)).
    { exists list. unfold g2. cbn. by rewrite Hlist. }
    split; [by left|]. intros _. split; [exact Hp|].
    unfold g2. cbn. by rewrite Hlen.
Qed.

End MusicFacts.

Section MusicExamples.
Import F32 Audio Playback Soundpack.

Lemma title_starts : play_music test_globals "title" = finished title_playing.
Proof. vm_compute. reflexivity. Qed.

Lemma title_playing_is_playing :
  test_mode (sfx title_playing) = false /\ playing (music title_playing).
Proof.
  split; [reflexivity|].
  destruct (play_music_other test_globals "title" eq_refl) as (g' & Hg' & _ & Hstate);
    [done|].
  rewrite title_starts in Hg'. injection Hg' as <-.
  change (playlists (music test_globals) !! "title"%string) with (Some title_playlist)
    in Hstate.
  apply Hstate.
Qed.

Lemma play_music_leaves_a_valid_position_witness :
  test_mode (sfx test_globals) = false /\
  exists g',
    play_music test_globals "title" = finished g' /\
    ("title"%string = current_playlist (music test_globals) -> g' = test_globals) /\
    ("title"%string <> current_playlist (music test_globals) ->
     match playlists (music test_globals) !! "title"%string with
     | Some list =>
         if decide (entries list = []) then stopped (music g')
         else
           playing (music g') /\ current_playlist (music g') = "title"%string /\
           absolute_playlist_at (music g') = 0%nat /\
           (volume <$> entries list !! current_playlist_at (music g'))
             = Some (current_music_track_volume (music g'))
     | None => stopped (music g')
     end).
Proof.
  split; [reflexivity|].
  exact (play_music_leaves_a_valid_position test_globals "title" eq_refl).
Defined.

Lemma musicFinished_steps_in_a_cycle_witness :
  test_mode (sfx title_playing) = false /\ playing (music title_playing) /\
  exists g',
    musicFinished title_playing = finished g' /\
    (playing (music g') \/ stopped (music g')) /\
    (get_music_id_string
       (Mix_FreeMusic (Mix_HaltMusic (env (sfx title_playing)))
          (current_music (music title_playing)))
     = current_playlist (music title_playing) ->
     playing (music g') /\
     current_playlist (music g') = current_playlist (music title_playing) /\
     playlist_indexes (music g') = playlist_indexes (music title_playing) /\
     absolute_playlist_at (music g')
       = (S (absolute_playlist_at (music title_playing))
          mod length (playlist_indexes (music title_playing)))%nat /\
     current_music_track_volume (music g')
       = current_music_track_volume (music title_playing)).
Proof.
  split; [apply title_playing_is_playing|]. split; [apply title_playing_is_playing|].
  apply (musicFinished_steps_in_a_cycle title_playing); apply title_playing_is_playing.
Defined.

(** The three tracks of the playlist, shuffled to the order c, b, a,
    come up in that order again and again; the track volume stays that
    of the first one. *)
Lemma title_round :
  playlist_indexes (music title_playing) = [2; 1; 0]%nat /\
  (fun n => after_tracks n title_playing) <$> [0; 1; 2; 3; 4]%nat
    = [Some 2; Some 1; Some 0; Some 2; Some 1]%nat /\
  current_music_track_volume (music title_playing) = 80.
Proof. repeat split; by vm_compute. Qed.

End MusicExamples.

(** * The callback at normal speed *)

Section CopyFacts.
Import F32 Audio.

(** [memcpy] of a sample into a buffer, read back. *)
Lemma sample_split v :
  - 2 ^ 15 <= v < 2 ^ 15 ->
  0 <= v mod 2 ^ 16 mod 256 < 256 /\ 0 <= v mod 2 ^ 16 / 256 < 256 /\
  to_signed16 (v mod 2 ^ 16 mod 256 + 256 * (v mod 2 ^ 16 / 256)) = v.
Proof.
  intros Hv.
  pose proof (Z.mod_pos_bound v (2 ^ 16) ltac:(lia)) as Hw.
  pose proof (Z.mod_pos_bound (v mod 2 ^ 16) 256 ltac:(lia)).
  assert (0 <= v mod 2 ^ 16 / 256 < 256).
  { split; [apply Z.div_pos; lia|apply Z.div_lt_upper_bound; lia]. }
  split; [lia|]. split; [lia|].
  rewrite (Z.add_comm _ (256 * _)), <- Z.div_mod by lia.
  unfold to_signed16.
  destruct (Z_lt_le_dec v 0).
  - assert (v mod 2 ^ 16 = v + 2 ^ 16).
    { symmetry. apply Z.mod_unique with (q := -1); lia. }
    destruct (Z.ltb_spec (v mod 2 ^ 16) (2 ^ 15)); lia.
  - rewrite Z.mod_small by lia.
    destruct (Z.ltb_spec v (2 ^ 15)); lia.
Qed.

(** The two [memcpy]s of a frame put the two samples into frame [dst]
    and touch no other frame. *)
Lemma write_frame_samples stream dst l r s1 s2 :
  0 <= dst -> - 2 ^ 15 <= l < 2 ^ 15 -> - 2 ^ 15 <= r < 2 ^ 15 ->
  write_sample stream (dst * 4 + 0) l = value s1 ->
  write_sample s1 (dst * 4 + 2) r = value s2 ->
  length s2 = length stream /\
  frame s2 dst = value (l, r) /\
  (forall j, 0 <= j -> j <> dst -> frame s2 j = frame stream j).
Proof.
  intros Hdst Hl Hr. unfold write_sample.
  destruct (write_byte stream (dst * 4 + 0) _) as [a1|] eqn:H1; [|done].
  cbn [mbind outcome_bind]. intros H2.
  destruct (write_byte s1 (dst * 4 + 2) _) as [a3|] eqn:H3; [|done].
  cbn [mbind outcome_bind]. intros H4.
  apply write_byte_value in H1 as [Ho1 ->].
  apply write_byte_value in H2 as [Ho2 ->].
  apply write_byte_value in H3 as [Ho3 ->].
  apply write_byte_value in H4 as [Ho4 ->].
  rewrite ?length_insert in *.
  destruct (sample_split l Hl) as (Hl0 & Hl1 & Hlv).
  destruct (sample_split r Hr) as (Hr0 & Hr1 & Hrv).
  split; [done|]. split.
  - unfold frame, read_sample.
    replace (4 * dst) with (dst * 4 + 0) by lia.
    replace (dst * 4 + 0 + 2) with (dst * 4 + 2) by lia.
    rewrite (read_byte_insert_ne _ (dst * 4 + 2 + 1) (dst * 4 + 0)) by lia.
    rewrite (read_byte_insert_ne _ (dst * 4 + 2) (dst * 4 + 0)) by lia.
    rewrite (read_byte_insert_ne _ (dst * 4 + 0 + 1) (dst * 4 + 0)) by lia.
    rewrite (read_byte_insert_eq _ (dst * 4 + 0)) by lia.
    cbn [mbind outcome_bind].
    rewrite (read_byte_insert_ne _ (dst * 4 + 2 + 1) (dst * 4 + 0 + 1)) by lia.
    rewrite (read_byte_insert_ne _ (dst * 4 + 2) (dst * 4 + 0 + 1)) by lia.
    rewrite (read_byte_insert_eq _ (dst * 4 + 0 + 1)) by (rewrite ?length_insert; lia).
    cbn [mbind outcome_bind mret outcome_ret].
    rewrite (read_byte_insert_ne _ (dst * 4 + 2 + 1) (dst * 4 + 2)) by lia.
    rewrite (read_byte_insert_eq _ (dst * 4 + 2)) by (rewrite ?length_insert; lia).
    cbn [mbind outcome_bind].
    rewrite (read_byte_insert_eq _ (dst * 4 + 2 + 1)) by (rewrite ?length_insert; lia).
    cbn [mbind outcome_bind mret outcome_ret].
    by rewrite Hlv, Hrv.
  - intros j Hj Hne. unfold frame, read_sample.
    by rewrite !read_byte_insert_ne by lia.
Qed.

(** At a whole position the interpolated sample is the source sample. *)
Lemma interpolate_ear_whole h q ear :
  chunk_wf (audio_src h) -> current_sample_index h = fin (q * unit) ->
  0 <= q < alen (audio_src h) / 4 -> alen (audio_src h) / 4 < 2 ^ 22 ->
  loops_remaining h <> -1 -> ear = 0 \/ ear = 2 ->
  exists v,
    interpolate_ear h q q ear = value v /\ - 2 ^ 15 <= v < 2 ^ 15 /\
    read_sample (abuf (audio_src h)) (ear + q * 4) = value v.
Proof.
  intros Hwf Hidx Hq Hn Hloops Hear. pose proof unit_pos as Hu.
  destruct (num_source_samples_bounds _ Hwf) as [_ Hlen].
  destruct Hwf as (_ & _ & Hbytes).
  unfold interpolate_ear, bytes_per_sample. rewrite Hidx.
  rewrite decide_True by done.
  destruct (read_sample_ok (abuf (audio_src h)) (ear + q * 4) Hbytes)
    as (lv & Hread & Hlv); [lia|lia|].
  rewrite Hread. cbn [mbind outcome_bind].
  exists lv. split; [|done].
  rewrite Z.sub_diag, (of_int_exact q), (of_int_exact 0), (of_int_exact lv) by lia.
  unfold fsub, fopp, fadd.
  replace (q * unit + - (q * unit)) with 0 by lia.
  rewrite (round_exact_1 0); [|apply representable_0|done].
  rewrite (fmul_exact (0 * unit) 0 0); [|lia|apply representable_0|done].
  rewrite Z.add_0_l, round_exact_1;
    [|by apply representable_int_unit; lia|unfold overflow_threshold, unit; lia].
  by rewrite to_int16_int.
Qed.


Lemma whole_quarters q : fin (q * unit) = at_quarter (4 * q).
Proof. unfold at_quarter, unit. f_equal. lia. Qed.

(** One frame at a whole position, at normal speed. *)
Lemma produce_frame_whole h q dst stream :
  chunk_wf (audio_src h) -> current_sample_index h = fin (q * unit) ->
  0 <= q < alen (audio_src h) / 4 -> alen (audio_src h) / 4 < 2 ^ 22 ->
  0 <= loops_remaining h -> 0 <= dst -> dst * 4 + 3 < Z.of_nat (length stream) ->
  exists stream',
    produce_frame one (alen (audio_src h) / 4) dst stream h
      = value (stream', advance one (alen (audio_src h) / 4) h) /\
    length stream' = length stream /\
    frame stream' dst = frame (abuf (audio_src h)) q /\
    (forall j, 0 <= j -> j <> dst -> frame stream' j = frame stream j).
Proof.
  intros Hwf Hidx Hq Hn Hloops Hdst Hroom. pose proof unit_pos as Hu.
  set (n := alen (audio_src h) / 4) in *.
  assert (Hi : 0 <= q * unit < n * unit) by nia.
  destruct (floor_index (q * unit) n) as [Hfloor _]; [lia|done|].
  destruct (ceil_index (q * unit) n) as [Hceil _]; [lia|done|].
  rewrite Z.div_mul in Hfloor by lia.
  replace (- (q * unit)) with (- q * unit) in Hceil by lia.
  rewrite Z.div_mul, Z.opp_involutive in Hceil by lia.
  unfold produce_frame. rewrite Hidx, Hfloor, Hceil.
  cbn [converted mbind outcome_bind].
  rewrite decide_False by lia.
  destruct (interpolate_ear_whole h q 0 Hwf Hidx) as (l & -> & Hl & Hreadl);
    [done|done|lia|by left|].
  destruct (interpolate_ear_whole h q 2 Hwf Hidx) as (r & Hr' & Hr & Hreadr);
    [done|done|lia|by right|].
  cbn [mbind outcome_bind]. unfold bytes_per_sample.
  destruct (write_sample_ok stream (dst * 4 + 0) l) as (s1 & Hw1 & Hl1); [lia|lia|].
  rewrite Hw1. cbn [mbind outcome_bind]. rewrite Hr'. cbn [mbind outcome_bind].
  destruct (write_sample_ok s1 (dst * 4 + 2) r) as (s2 & Hw2 & Hl2); [lia|lia|].
  rewrite Hw2. cbn [mbind outcome_bind mret outcome_ret].
  exists s2. split; [done|].
  destruct (write_frame_samples stream dst l r s1 s2 Hdst Hl Hr Hw1 Hw2)
    as (Hlen & Hframe & Hother).
  split; [done|]. split; [|done].
  rewrite Hframe. unfold frame.
  replace (4 * q) with (0 + q * 4) by lia. rewrite Hreadl.
  replace (0 + q * 4 + 2) with (2 + q * 4) by lia. rewrite Hreadr.
  done.
Qed.

(** The loop of one call at normal speed, from a whole position. *)
Lemma resample_copy n : forall todo dst stream h q,
  chunk_wf (audio_src h) -> alen (audio_src h) / 4 = n -> 0 < n < 2 ^ 22 ->
  current_sample_index h = fin (q * unit) -> 0 <= q < n ->
  0 <= loops_remaining h ->
  0 <= dst -> (dst + Z.of_nat todo) * 4 <= Z.of_nat (length stream) ->
  q + Z.of_nat todo < (loops_remaining h + 1) * n ->
  exists stream' h',
    resample todo one n dst stream h = value (stream', h') /\
    length stream' = length stream /\ audio_src h' = audio_src h /\
    current_sample_index h' = fin ((q + Z.of_nat todo) mod n * unit) /\
    loops_remaining h' = loops_remaining h - (q + Z.of_nat todo) / n /\
    (forall k, 0 <= k < Z.of_nat todo ->
       frame stream' (dst + k) = frame (abuf (audio_src h)) ((q + k) mod n)) /\
    (forall j, 0 <= j -> j < dst \/ dst + Z.of_nat todo <= j ->
       frame stream' j = frame stream j).
Proof.
  induction todo as [|todo IH];
    intros dst stream h q Hwf Hsrc Hn Hidx Hq Hloops Hdst Hroom Hbudget.
  - exists stream, h. split; [done|]. split; [done|]. split; [done|].
    rewrite Z.add_0_r, Z.mod_small, Z.div_small by lia.
    split; [done|]. split; [lia|]. split; [intros k Hk; lia|done].
  - assert (Hguard : flt (current_sample_index h) (of_int n) = true).
    { rewrite Hidx, (of_int_exact n) by lia. unfold flt. apply Z.ltb_lt.
      pose proof unit_pos. nia. }
    rewrite resample_S, Hguard.
    destruct (produce_frame_whole h q dst stream Hwf Hidx) as (s1 & Hframe & Hl1 & Hf1 & Ho1);
      [lia|lia|done|done|lia|].
    rewrite Hsrc in Hframe. rewrite Hframe. cbn [mbind outcome_bind].
    set (h1 := advance one n h).
    assert (Hadv : h1 = if decide (n <= q + 1)
                        then set_position h (fin (0 * unit)) (loops_remaining h - 1)
                        else set_position h (fin ((q + 1) * unit)) (loops_remaining h)).
    { unfold h1. rewrite (advance_exact false n h (4 * q)); [|done| |lia].
      2:{ rewrite Hidx. apply whole_quarters. }
      unfold quarters. rewrite !whole_quarters.
      destruct (Z_le_gt_dec n (q + 1)).
      - rewrite !decide_True by lia. f_equal. f_equal. lia.
      - rewrite !decide_False by lia. f_equal. f_equal. lia. }
    assert (Hcases : (q + 1 = n /\ (q + 1) mod n = 0 /\ (q + 1) / n = 1) \/
                     (q + 1 < n /\ (q + 1) mod n = q + 1 /\ (q + 1) / n = 0)).
    { destruct (decide (q + 1 = n)) as [Heq|Hne]; [left|right].
      - rewrite Heq, Z.mod_same, Z.div_same by lia. lia.
      - rewrite Z.mod_small, Z.div_small by lia. lia. }
    assert (Hstep : audio_src h1 = audio_src h /\
                    current_sample_index h1 = fin ((q + 1) mod n * unit) /\
                    loops_remaining h1 = loops_remaining h - (q + 1) / n).
    { rewrite Hadv. destruct Hcases as [(Hc & -> & ->)|(Hc & -> & ->)].
      - rewrite decide_True by lia. done.
      - rewrite decide_False by lia. split; [done|]. split; [done|]. simpl. lia. }
    destruct Hstep as (Hsrc1 & Hidx1 & Hloops1).
    assert (Hq1 : 0 <= (q + 1) mod n < n) by (apply Z.mod_pos_bound; lia).
    assert (Hsum : forall t, 0 <= t ->
      ((q + 1) mod n + t) mod n = (q + 1 + t) mod n /\
      (q + 1) / n + ((q + 1) mod n + t) / n = (q + 1 + t) / n).
    { intros t Ht. destruct Hcases as [(Hc & -> & ->)|(Hc & -> & ->)].
      - replace (q + 1 + t) with (t + 1 * n) by lia.
        rewrite Z.mod_add, Z.div_add, !Z.add_0_l by lia. split; [done|lia].
      - rewrite Z.add_0_l. split; [done|lia]. }
    destruct (IH (dst + 1) s1 h1 ((q + 1) mod n))
      as (s2 & h2 & Hrun & Hl2 & Hsrc2 & Hidx2 & Hloops2 & Hf2 & Ho2);
      [by rewrite Hsrc1|by rewrite Hsrc1|done|done|done| |lia|rewrite Hl1; lia| |].
    { rewrite Hloops1. destruct Hcases as [(Hc & _ & ->)|(Hc & _ & ->)]; nia. }
    { rewrite Hloops1. destruct Hcases as [(Hc & -> & ->)|(Hc & -> & ->)]; nia. }
    rewrite Hrun. exists s2, h2. split; [done|]. split; [congruence|].
    split; [congruence|].
    destruct (Hsum (Z.of_nat todo) ltac:(lia)) as [Hm Hd].
    replace (q + Z.of_nat (S todo)) with (q + 1 + Z.of_nat todo) by lia.
    split; [by rewrite Hidx2, Hm|]. split; [rewrite Hloops2, Hloops1; lia|].
    split.
    + intros k Hk. destruct (decide (k = 0)) as [->|Hk0].
      * rewrite !Z.add_0_r, Ho2 by lia. rewrite Hf1. by rewrite Z.mod_small by lia.
      * replace (dst + k) with (dst + 1 + (k - 1)) by lia.
        rewrite Hf2 by lia. rewrite Hsrc1.
        destruct (Hsum (k - 1) ltac:(lia)) as [-> _]. f_equal. f_equal. lia.
    + intros j Hj Hout. rewrite Ho2 by lia. apply Ho1; lia.
Qed.


End CopyFacts.

Section CopyExamples.
Import F32 Audio.

Lemma four_frames_wf : chunk_wf four_frames.
Proof.
  split; [reflexivity|]. split; [reflexivity|].
  apply (bool_decide_unpack _). vm_compute. reflexivity.
Qed.


(** Six frames of output from the four-frame source: the source, and
    its first two frames again. *)
Lemma six_frames_of_four :
  exists h',
    slowed_time_effect false (replicate 24 7) 24 (new_handler four_frames 1 false)
    = value (mk_callback_result (abuf four_frames ++ take 8 (abuf four_frames)) h' false) /\
    current_sample_index h' = of_int 2 /\ loops_remaining h' = 0.
Proof. eexists. split; [vm_compute; reflexivity|]. split; reflexivity. Qed.

Lemma voice_halts_after_its_loops_witness :
  chunk_wf four_frames /\ 0 < alen four_frames / 4 < 2 ^ 22 /\
  (total_advance [(false, replicate 8 0); (true, replicate 64 0)]
     < ((if decide (0 = -1) then 10000 else 0) + 1) * (4 * (alen four_frames / 4)) ->
   exists h',
     run_callbacks [(false, replicate 8 0); (true, replicate 64 0)]
       (new_handler four_frames 0 false) = value (h', false) /\
     current_sample_index h'
       = at_quarter (total_advance [(false, replicate 8 0); (true, replicate 64 0)]
                     mod (4 * (alen four_frames / 4))) /\
     loops_remaining h'
       = (if decide (0 = -1) then 10000 else 0)
         - total_advance [(false, replicate 8 0); (true, replicate 64 0)]
           / (4 * (alen four_frames / 4))) /\
  (((if decide (0 = -1) then 10000 else 0) + 1) * (4 * (alen four_frames / 4))
     <= total_advance [(false, replicate 8 0); (true, replicate 64 0)] ->
   exists h',
     run_callbacks [(false, replicate 8 0); (true, replicate 64 0)]
       (new_handler four_frames 0 false) = value (h', true) /\
     loops_remaining h' = -1).
Proof.
  split; [exact four_frames_wf|]. split; [split; reflexivity|].
  apply (voice_halts_after_its_loops four_frames false 0
           [(false, replicate 8 0); (true, replicate 64 0)]).
  - exact four_frames_wf.
  - split; reflexivity.
  - right. discriminate.
Defined.

End CopyExamples.

(** * Empty chunks, playlists and shutting down *)

Section EmptyChunkFacts.
Import F32 Audio Playback.

Lemma do_pitch_shift_no_frame (c : Mix_Chunk) (p : Z) :
  0 <= alen c < 4 ->
  do_pitch_shift c (fin p) = value (mk_chunk 1 [] 0 (Audio.volume c)).
Proof.
  intros Hc. unfold do_pitch_shift. rewrite Z.div_small by lia.
  rewrite (of_int_exact 0) by lia.
  rewrite (fmul_exact (0 * unit) p 0); [|lia|apply representable_0|done].
  change (fin 0) with (fin (0 * unit)).
  rewrite (to_uint32_int 0) by lia. reflexivity.
Qed.

(** X18.  Pitch-shifting a chunk without a whole frame.  For a chunk of
    fewer than four bytes (the null chunk that stands for a file that
    could not be loaded is one) and every finite pitch, [do_pitch_shift]
    is defined and returns an allocated chunk with no bytes and the
    volume of the source: the loop over the output frames is not
    entered, so the ratio 0 / 0 that [pitch_real] then is, is never
    used. *)
Theorem pitch_shift_of_an_empty_chunk (s : Mix_Chunk) (p : Z) :
  0 <= alen s < 4 ->
  do_pitch_shift s (fin p) = value (mk_chunk 1 [] 0 (Audio.volume s)) /\
  do_pitch_shift make_null_chunk (fin p) = value (mk_chunk 1 [] 0 0).
Proof.
  intros Hs. split; [by apply do_pitch_shift_no_frame|].
  by apply (do_pitch_shift_no_frame make_null_chunk).
Qed.

(** X19.  A voice on a chunk without a whole frame never ends by itself.
    For a source of fewer than four bytes, a voice with loops left and a
    finite position that is not negative: the callback, slowed or not,
    writes nothing to the buffer, leaves the voice as it is and does not
    ask for a halt, for any buffer and length. *)
Theorem voice_on_an_empty_chunk_never_halts (h : sound_effect_handler) (time_slowed : bool)
    (stream : list Z) (len : Z) :
  0 <= alen (audio_src h) < 4 -> position_ok h -> 0 <= loops_remaining h ->
  slowed_time_effect time_slowed stream len h
  = value (mk_callback_result stream h false).
Proof.
  intros Hs (i & Hidx & Hi & _) Hloops.
  unfold slowed_time_effect, slowed_time_effect_at, bytes_per_sample.
  rewrite decide_True by lia. rewrite Z.div_small by lia.
  assert (Hloop : forall todo,
    resample todo (if time_slowed then sound_speed_factor else one) 0 0 stream h
    = value (stream, h)).
  { intros [|todo]; [done|]. cbn [resample].
    rewrite Hidx, (of_int_exact 0) by lia. unfold flt.
    destruct (Z.ltb_spec i (0 * unit)); [lia|done]. }
  rewrite Hloop. cbn [mbind outcome_bind mret outcome_ret].
  by rewrite bool_decide_eq_false_2 by lia.
Qed.

Lemma pitch_shift_of_an_empty_chunk_witness :
  0 <= alen make_null_chunk < 4 /\
  do_pitch_shift make_null_chunk (fin (3 * 2 ^ 148))
    = value (mk_chunk 1 [] 0 (Audio.volume make_null_chunk)) /\
  do_pitch_shift make_null_chunk (fin (3 * 2 ^ 148)) = value (mk_chunk 1 [] 0 0).
Proof.
  split; [split; [reflexivity|reflexivity]|].
  apply (pitch_shift_of_an_empty_chunk make_null_chunk (3 * 2 ^ 148)).
  split; reflexivity.
Defined.

Lemma voice_on_an_empty_chunk_never_halts_witness :
  0 <= alen (audio_src (new_handler make_null_chunk 0 false)) < 4 /\
  slowed_time_effect true (replicate 16 7) 16 (new_handler make_null_chunk 0 false)
  = value (mk_callback_result (replicate 16 7) (new_handler make_null_chunk 0 false) false).
Proof.
  split; [split; reflexivity|].
  apply (voice_on_an_empty_chunk_never_halts (new_handler make_null_chunk 0 false) true
           (replicate 16 7) 16).
  - split; reflexivity.
  - exists 0. split; [reflexivity|]. split; [lia|apply representable_0].
  - discriminate.
Defined.

End EmptyChunkFacts.

Section PackFacts.
Import F32 Audio Playback Soundpack.
Context {E : Type} `{Environment E} `{Host E}.

Lemma load_playlist_step (g : globals E) (o : playlist_object) :
  sound_init_success (sfx g) = true ->
  sound_init_success (sfx (load_playlist g [o])) = true /\
  playlists (music (load_playlist g [o]))
  = <[pl_id o := mk_music_playlist (pl_files o) (default false (pl_shuffle o))]>
      (playlists (music g)).
Proof. intros Hinit. unfold load_playlist. rewrite Hinit. done. Qed.

Lemma load_playlist_cons (g : globals E) (o : playlist_object) objs :
  sound_init_success (sfx g) = true ->
  load_playlist g (o :: objs) = load_playlist (load_playlist g [o]) objs.
Proof.
  intros Hinit. destruct (load_playlist_step g o Hinit) as [Hinit' _].
  unfold load_playlist in *. rewrite Hinit in *. cbn [negb] in *.
  by rewrite Hinit'.
Qed.

Lemma last_filter_cons {A} (P : A -> Prop) `{forall x, Decision (P x)} (x : A) l :
  last (filter P (x :: l)) =
  match last (filter P l) with
  | Some y => Some y
  | None => if decide (P x) then Some x else None
  end.
Proof.
  rewrite filter_cons. case_decide; [|by destruct (last (filter P l))].
  destruct (filter P l) as [|y l']; [done|]. simpl.
  by destruct (last (y :: l')) eqn:Hl; [|by apply last_None in Hl].
Qed.

(** X20.  Loading playlists and looking one up.  While the mixer is not
    initialised [sfx::load_playlist] changes nothing.  Otherwise, after
    the call the playlist stored under an id is the one built from the
    last object of the array that has this id (its entries in the order
    of "files", [shuffle] false when the object gives none), and the
    one stored before when no object has the id: a later object
    replaces an earlier one with the same id. *)
Theorem load_playlist_later_wins (g : globals E) (objs : list playlist_object)
    (id : string) :
  (sound_init_success (sfx g) = false -> load_playlist g objs = g) /\
  (sound_init_success (sfx g) = true ->
   playlists (music (load_playlist g objs)) !! id =
   match last (filter (fun o => pl_id o = id) objs) with
   | Some o => Some (mk_music_playlist (pl_files o) (default false (pl_shuffle o)))
   | None => playlists (music g) !! id
   end).
Proof.
  split.
  - intros Hinit. unfold load_playlist. by rewrite Hinit.
  - revert g. induction objs as [|o objs IH]; intros g Hinit.
    + unfold load_playlist. by rewrite Hinit.
    + destruct (load_playlist_step g o Hinit) as [Hinit' Hstep].
      rewrite (load_playlist_cons g o objs Hinit), (IH _ Hinit'), Hstep.
      rewrite last_filter_cons.
      destruct (last (filter (fun o0 => pl_id o0 = id) objs)); [done|].
      case_decide as Hid.
      * by rewrite Hid, lookup_insert_eq.
      * by rewrite lookup_insert_ne.
Qed.


(** X22.  [shutdown_sound] forgets the effects.  Afterwards the resource
    table is empty, no playlist is stored, and every lookup with a known
    season, exact or best match, finds nothing.  The interned paths and
    the keys to preload are not touched. *)
Theorem shutdown_sound_forgets (g : globals E) :
  resources (shutdown_sound g) = [] /\
  playlists (music (shutdown_sound g)) = ∅ /\
  loader (shutdown_sound g) = loader g /\
  (forall key, Resolver.season key ∈ known_seasons ->
     Resolver.find_exact (effects_map (shutdown_sound g)) key = ok None) /\
  (forall id variant season is_indoors is_night, season ∈ known_seasons ->
     Resolver.find (effects_map (shutdown_sound g)) id variant season is_indoors is_night
     = ok None).
Proof.
  split; [done|]. split; [done|]. split; [done|]. split.
  - intros key [s Hs]%season_from_string_cases.
    rewrite find_exact_unfold, Hs. unfold Resolver.find_sfx. cbn.
    by rewrite find_sfx_next_empty.
  - intros id variant season is_indoors is_night [s Hs]%season_from_string_cases.
    rewrite find_unfold, Hs. done.
Qed.

End PackFacts.

Section PackExamples.
Import F32 Audio Playback Soundpack.


(** Two objects with the same id: the playlist of the second is the one
    that is stored. *)
Lemma second_playlist_replaces_the_first :
  playlists (music (load_playlist test_globals
    [ mk_playlist_object "title" None [mk_entry "old.ogg" 50];
      mk_playlist_object "title" (Some true) [mk_entry "new.ogg" 90] ])) !! "title"%string
  = Some (mk_music_playlist [mk_entry "new.ogg" 90] true).
Proof. by vm_compute. Qed.

End PackExamples.

(** * The pitch shifter stays inside its buffers *)

Section ShiftFacts.
Import F32 Audio.

(** Rounding loses less than one part in 2^23 downwards. *)
Lemma round_mag_error_below n d :
  0 < d -> 0 <= n -> 2 ^ 24 <= n / d ->
  n / d * (2 ^ 23 - 1) <= round_mag n d * 2 ^ 23.
Proof.
  intros Hd Hn Hbig.
  set (X := n / d) in *. set (e := grid_exp X).
  assert (He : 0 < e).
  { unfold e, grid_exp. assert (24 <= Z.log2 X); [|lia].
    apply Z.log2_le_pow2; lia. }
  pose proof (grid_exp_pos_bounds X He) as [Hlo _]. fold e in Hlo.
  pose proof (pow2_pos e ltac:(lia)) as Hp.
  assert (Hpow : 2 ^ (e + 23) = 2 ^ e * 2 ^ 23) by (rewrite Z.pow_add_r; lia).
  pose proof (Z.div_mod X (2 ^ e) ltac:(lia)) as Hdm.
  pose proof (Z.mod_pos_bound X (2 ^ e) ltac:(lia)) as Hmod.
  assert (Hq : X - 2 ^ e <= X / 2 ^ e * 2 ^ e) by lia.
  destruct (round_mag_cases n d Hd Hn) as [[-> _]|[-> _]]; fold X e; nia.
Qed.

(** A quotient of finite floats that are not negative. *)
Lemma fdiv_nonneg a b :
  0 <= a -> 0 < b -> round_mag (a * unit) b < overflow_threshold ->
  fdiv (fin a) (fin b) = fin (round_mag (a * unit) b).
Proof.
  intros Ha Hb Hsmall. pose proof unit_pos as Hu. unfold fdiv.
  destruct (Z.eqb_spec b 0) as [|_]; [lia|].
  rewrite Z.sgn_pos, Z.abs_eq, Z.mul_1_l by lia. unfold round.
  rewrite Z.abs_eq by nia.
  destruct (Z.leb_spec overflow_threshold (round_mag (a * unit) b)); [lia|].
  destruct (decide (a = 0)) as [->|Hne].
  - by rewrite Z.mul_0_l, round_mag_0.
  - rewrite Z.sgn_pos by nia. f_equal. lia.
Qed.


(** The number of output frames for a pitch between a half and two. *)
Lemma shift_header n p :
  1 <= n < 2 ^ 21 -> 2 ^ 148 <= p <= 2 * unit ->
  exists s_out,
    to_uint32 (fmul (of_int n) (fin p)) = Some s_out /\ n / 2 <= s_out <= 2 * n.
Proof.
  intros Hn Hp. pose proof unit_pos as Hu.
  rewrite (of_int_exact n) by lia. unfold fmul.
  destruct (round_between (n * unit * p) unit (n * 2 ^ 148) (2 * n * unit))
    as (f & -> & Hf & _).
  - lia.
  - apply representable_small; lia.
  - apply representable_int_unit. lia.
  - unfold unit in *. nia.
  - unfold overflow_threshold. lia.
  - unfold overflow_threshold, unit. lia.
  - unfold to_uint32, to_int_range, truncate.
    assert (Hq : n / 2 <= f ÷ unit <= 2 * n).
    { split.
      - rewrite Z.quot_div_nonneg by lia.
        replace (n / 2) with (n * 2 ^ 148 / unit).
        + apply Z.div_le_mono; lia.
        + unfold unit. change (2 ^ 149) with (2 * 2 ^ 148).
          apply Z.div_mul_cancel_r; lia.
      - apply (quot_unit_between f 0 (2 * n)). lia. }
    exists (f ÷ unit).
    assert (0 <= n / 2) by (apply Z.div_pos; lia).
    destruct (Z.leb_spec 0 (f ÷ unit)); [|lia].
    destruct (Z.leb_spec (f ÷ unit) (2 ^ 32 - 1)); [|lia].
    done.
Qed.

(** The realised ratio, for at least one output frame. *)
Lemma pitch_real_bounds n s_out :
  1 <= n < 2 ^ 21 -> 1 <= s_out <= 2 * n -> n / 2 <= s_out ->
  exists P,
    fdiv (of_int s_out) (of_int n) = fin P /\
    0 < P <= 2 * unit /\ s_out * 2 ^ 126 <= P /\ (2 <= n -> 2 ^ 147 <= P) /\
    (s_out - 1) * unit * unit <= (4 * n - 1) * 2 ^ 147 * P.
Proof.
  intros Hn Hs Hhalf. pose proof unit_pos as Hu.
  rewrite (of_int_exact s_out), (of_int_exact n) by lia.
  set (P := round_mag (s_out * unit * unit) (n * unit)).
  assert (Hup : s_out * 2 ^ 126 <= P <= 2 * unit).
  { apply round_mag_between.
    - lia.
    - lia.
    - apply representable_small; lia.
    - apply (representable_pow2_unit 1). lia.
    - unfold unit. nia. }
  assert (Hquarter : 2 <= n -> 2 ^ 147 <= P).
  { intros Hn2.
    assert (Hn4 : n <= 4 * s_out).
    { pose proof (Z.div_mod n 2 ltac:(lia)). pose proof (Z.mod_pos_bound n 2 ltac:(lia)).
      lia. }
    assert (2 ^ 147 <= P <= 2 * unit); [|lia].
    apply round_mag_between.
    - lia.
    - lia.
    - apply (representable_small 1 147); lia.
    - apply (representable_pow2_unit 1). lia.
    - unfold unit. nia. }
  exists P. split.
  { apply fdiv_nonneg; [lia|lia|]. fold P. unfold overflow_threshold, unit in *. lia. }
  split; [unfold unit in *; lia|]. split; [lia|]. split; [done|].
  (* the relative error of the quotient *)
  set (X := s_out * unit / n).
  assert (HX : s_out * unit * unit / (n * unit) = X).
  { unfold X. apply Z.div_mul_cancel_r; lia. }
  assert (Hbig : 2 ^ 24 <= X).
  { unfold X. apply Z.div_le_lower_bound; [lia|]. unfold unit. nia. }
  pose proof (round_mag_error_below (s_out * unit * unit) (n * unit)
                ltac:(lia) ltac:(nia)) as Herr.
  rewrite HX in Herr. specialize (Herr Hbig). fold P in Herr.
  assert (HnX : s_out * unit - n < n * X).
  { unfold X. pose proof (Z.div_mod (s_out * unit) n ltac:(lia)).
    pose proof (Z.mod_pos_bound (s_out * unit) n ltac:(lia)). lia. }
  (* multiply the goal by 2^23 * n and chain the bounds *)
  assert (Hkey : 2 ^ 25 * n * (s_out - 1) * unit
                 <= (4 * n - 1) * (2 ^ 23 - 1) * (s_out * unit - n)).
  { assert (Hc : (4 * n - 1) * (2 ^ 23 - 1) = 2 ^ 25 * n - 4 * n - 2 ^ 23 + 1) by lia.
    assert (Hb : s_out * (4 * n + 2 ^ 23 - 1) <= 2 ^ 25 * n - 10 * n) by nia.
    assert (Hd : (4 * n - 1) * (2 ^ 23 - 1) * n <= 10 * n * unit).
    { unfold unit. nia. }
    nia. }
  assert (Hchain : (4 * n - 1) * (2 ^ 23 - 1) * (s_out * unit - n)
                   <= (4 * n - 1) * (P * 2 ^ 23) * n).
  { assert ((2 ^ 23 - 1) * (s_out * unit - n) <= (P * 2 ^ 23) * n) by nia.
    nia. }
  assert (Hfinal : 2 ^ 23 * n * ((s_out - 1) * unit * unit)
                   <= 2 ^ 23 * n * ((4 * n - 1) * 2 ^ 147 * P)).
  { replace (2 ^ 23 * n * ((s_out - 1) * unit * unit))
      with (2 ^ 147 * (2 ^ 25 * n * (s_out - 1) * unit)) by (unfold unit; lia).
    replace (2 ^ 23 * n * ((4 * n - 1) * 2 ^ 147 * P))
      with (2 ^ 147 * ((4 * n - 1) * (P * 2 ^ 23) * n)) by lia.
    apply Z.mul_le_mono_nonneg_l; lia. }
  apply Z.mul_le_mono_pos_l in Hfinal; [done|lia].
Qed.


Lemma to_uint32_fin u :
  0 <= u < 2 ^ 32 * unit -> to_uint32 (fin u) = Some (u ÷ unit).
Proof.
  intros Hu. pose proof unit_pos as Hpos.
  unfold to_uint32, to_int_range, truncate.
  assert (0 <= u ÷ unit <= 2 ^ 32 - 1).
  { rewrite Z.quot_div_nonneg by lia. split; [apply Z.div_pos; lia|].
    assert (u / unit < 2 ^ 32); [apply Z.div_lt_upper_bound; lia|lia]. }
  destruct (Z.leb_spec 0 (u ÷ unit)); [|lia].
  destruct (Z.leb_spec (u ÷ unit) (2 ^ 32 - 1)); [done|lia].
Qed.

(** The averaging window of an output frame lies inside the source and
    holds at least one frame. *)
Lemma window_inside n P s_out k :
  1 <= n < 2 ^ 21 -> 0 < P <= 2 * unit -> s_out * 2 ^ 126 <= P ->
  (2 <= n -> 2 ^ 147 <= P) ->
  (s_out - 1) * unit * unit <= (4 * n - 1) * 2 ^ 147 * P ->
  0 <= k < s_out -> s_out <= 2 * n ->
  exists begin end_,
    window n (fin P) k = value (begin, end_) /\
    0 <= begin <= end_ /\ end_ < n /\ end_ - begin + 1 <= 512.
Proof.
  intros Hn HP Hlow Hquarter Hlast Hk Hs. pose proof unit_pos as Hu.
  unfold window. rewrite (of_int_exact k), (of_int_exact (k + 1)) by lia.
  set (B := round_mag (k * unit * unit) P).
  set (E := round_mag ((k + 1) * unit * unit) P).
  (* whole numbers below and above the two quotients *)
  set (q1 := k * unit / P).
  set (q2 := - (- ((k + 1) * unit) / P)).
  set (m := - (- (2 * k * unit) / P)).
  assert (Hq1 : q1 * P <= k * unit < q1 * P + P).
  { unfold q1. pose proof (Z.div_mod (k * unit) P ltac:(lia)).
    pose proof (Z.mod_pos_bound (k * unit) P ltac:(lia)). lia. }
  assert (Hq2 : (k + 1) * unit <= q2 * P < (k + 1) * unit + P).
  { unfold q2. pose proof (Z.div_mod (- ((k + 1) * unit)) P ltac:(lia)).
    pose proof (Z.mod_pos_bound (- ((k + 1) * unit)) P ltac:(lia)). lia. }
  assert (Hm : 2 * k * unit <= m * P < 2 * k * unit + P).
  { unfold m. pose proof (Z.div_mod (- (2 * k * unit)) P ltac:(lia)).
    pose proof (Z.mod_pos_bound (- (2 * k * unit)) P ltac:(lia)). lia. }
  assert (Hq1b : 0 <= q1 <= 2 ^ 23).
  { unfold q1. split.
    - apply Z.div_pos; unfold unit; lia.
    - apply Z.div_le_upper_bound; unfold unit in *; lia. }
  assert (Hq2b : 0 <= q2 <= 2 ^ 23).
  { unfold q2. split.
    - assert (- ((k + 1) * unit) / P <= 0); [|lia].
      apply Z.div_le_upper_bound; unfold unit in *; lia.
    - assert (- 2 ^ 23 <= - ((k + 1) * unit) / P); [|lia].
      apply Z.div_le_lower_bound; unfold unit in *; lia. }
  assert (Hmb : 0 <= m <= 2 ^ 24).
  { unfold m. split.
    - assert (- (2 * k * unit) / P <= 0); [|lia].
      apply Z.div_le_upper_bound; unfold unit in *; lia.
    - assert (- 2 ^ 24 <= - (2 * k * unit) / P); [|lia].
      apply Z.div_le_lower_bound; unfold unit in *; lia. }
  (* the rounded quotients between them *)
  assert (HB1 : q1 * unit <= B <= (4 * n - 1) * 2 ^ 147).
  { apply round_mag_between; [lia|unfold unit; lia| | |].
    - apply representable_int_unit. lia.
    - apply representable_small; lia.
    - unfold unit in *. lia. }
  assert (HB2 : 0 <= B <= m * 2 ^ 148).
  { apply round_mag_between; [lia|lia|apply representable_0| |].
    - apply representable_small; lia.
    - unfold unit in *. lia. }
  assert (HE1 : m * 2 ^ 148 <= E <= q2 * unit).
  { apply round_mag_between; [lia|lia| | |].
    - apply representable_small; lia.
    - apply representable_int_unit. lia.
    - unfold unit in *. lia. }
  assert (HBs : 0 <= B < 2 ^ 32 * unit) by (unfold unit in *; lia).
  assert (HEs : 0 <= E < 2 ^ 32 * unit) by (unfold unit in *; lia).
  rewrite (fdiv_nonneg (k * unit) P), (fdiv_nonneg ((k + 1) * unit) P);
    [|unfold unit; lia|lia|fold E; unfold overflow_threshold, unit in *; lia
     |unfold unit; lia|lia|fold B; unfold overflow_threshold, unit in *; lia].
  fold B E.
  rewrite (to_uint32_fin B HBs), (to_uint32_fin E HEs).
  cbn [converted mbind outcome_bind mret outcome_ret].
  set (begin := B ÷ unit). set (end0 := E ÷ unit).
  assert (Hbegin : q1 <= begin <= n - 1).
  { unfold begin. split.
    - rewrite <- (Z.quot_mul q1 unit) by lia. apply Z.quot_le_mono; lia.
    - replace (n - 1) with ((4 * n - 1) * 2 ^ 147 ÷ unit).
      + apply Z.quot_le_mono; lia.
      + rewrite Z.quot_div_nonneg by lia.
        symmetry. apply Z.div_unique with (r := 3 * 2 ^ 147); unfold unit; lia. }
  assert (Hend : begin <= end0 <= q2).
  { unfold begin, end0. split.
    - apply Z.quot_le_mono; lia.
    - rewrite <- (Z.quot_mul q2 unit) by lia. apply Z.quot_le_mono; lia. }
  eexists _, _. split; [reflexivity|].
  assert (Hcount : 512 < n -> q2 - q1 < 6).
  { intros Hbig. pose proof (Hquarter ltac:(lia)) as HPq.
    apply (Z.mul_lt_mono_pos_r P); [lia|].
    rewrite Z.mul_sub_distr_r. unfold unit in *. lia. }
  case_decide as Hwrap.
  - split; [lia|]. split; lia.
  - split; [lia|]. split; [lia|].
    destruct (Z_le_gt_dec n 512); [lia|]. pose proof (Hcount ltac:(lia)). lia.
Qed.


(** The frames of a window inside the source are there, and their
    samples are samples. *)
Lemma frames_from_inside buf : forall count j,
  Forall (fun b => 0 <= b < 256) buf ->
  0 <= j -> 4 * (j + Z.of_nat count) <= Z.of_nat (length buf) ->
  exists fs,
    frames_from buf j count = value fs /\
    - 2 ^ 15 * Z.of_nat count <= sum_Z fs.*1 <= (2 ^ 15 - 1) * Z.of_nat count /\
    - 2 ^ 15 * Z.of_nat count <= sum_Z fs.*2 <= (2 ^ 15 - 1) * Z.of_nat count.
Proof.
  induction count as [|count IH]; intros j Hbytes Hj Hroom.
  - exists []. split; [done|]. simpl. lia.
  - cbn [frames_from]. unfold frame.
    destruct (read_sample_ok buf (4 * j) Hbytes) as (l & -> & Hl); [lia|lia|].
    destruct (read_sample_ok buf (4 * j + 2) Hbytes) as (r & -> & Hr); [lia|lia|].
    cbn [mbind outcome_bind mret outcome_ret].
    destruct (IH (j + 1) Hbytes) as (fs & -> & Hsl & Hsr); [lia|lia|].
    cbn [mbind outcome_bind mret outcome_ret].
    eexists. split; [reflexivity|].
    cbn [fmap list_fmap fst snd sum_Z foldr]. fold (sum_Z fs.*1). fold (sum_Z fs.*2).
    lia.
Qed.

(** The mean of up to 512 samples is a sample. *)
Lemma mean_defined sum count :
  1 <= count <= 512 -> - 2 ^ 15 * count <= sum <= (2 ^ 15 - 1) * count ->
  exists v, to_int16 (fdiv (of_int sum) (of_int count)) = Some v.
Proof.
  intros Hc Hsum. pose proof unit_pos as Hu.
  rewrite (of_int_exact sum), (of_int_exact count) by lia.
  unfold fdiv. destruct (Z.eqb_spec (count * unit) 0) as [|_]; [lia|].
  rewrite Z.sgn_pos, Z.abs_eq, Z.mul_1_l by lia.
  destruct (round_between (sum * unit * unit) (count * unit)
              (- 2 ^ 15 * unit) ((2 ^ 15 - 1) * unit)) as (u & -> & Hub & _).
  - lia.
  - apply representable_int_unit. lia.
  - apply representable_int_unit. lia.
  - unfold unit. lia.
  - unfold overflow_threshold, unit. lia.
  - unfold overflow_threshold, unit. lia.
  - unfold to_int16, to_int_range, truncate.
    pose proof (quot_unit_between u (- 2 ^ 15) (2 ^ 15 - 1) Hub) as Hq.
    exists (u ÷ unit).
    destruct (Z.leb_spec (- 2 ^ 15) (u ÷ unit)); [|lia].
    destruct (Z.leb_spec (u ÷ unit) (2 ^ 15 - 1)); [done|lia].
Qed.

Lemma land_255_byte x : 0 <= Z.land x 255 < 256.
Proof.
  change 255 with (Z.ones 8). rewrite Z.land_ones by lia.
  apply Z.mod_pos_bound. lia.
Qed.

Lemma write_byte_byte out off b :
  0 <= off < Z.of_nat (length out) -> 0 <= b < 256 ->
  exists out',
    write_byte out off b = value out' /\ length out' = length out /\
    (Forall (fun b => 0 <= b < 256) out -> Forall (fun b => 0 <= b < 256) out').
Proof.
  intros Hoff Hb. unfold write_byte.
  destruct (Z.leb_spec 0 off); [|lia].
  destruct (Z.ltb_spec off (Z.of_nat (length out))); [|lia]. simpl.
  eexists. split; [reflexivity|]. split; [apply length_insert|].
  intros Hall. by apply Forall_insert.
Qed.

(** One pass of the [i] loop whose window is inside the source. *)
Lemma shift_frame_inside s pitch_real out i begin end_ :
  chunk_wf s ->
  window (alen s / 4) pitch_real i = value (begin, end_) ->
  0 <= begin <= end_ -> end_ < alen s / 4 -> end_ - begin + 1 <= 512 ->
  0 <= i -> 4 * i + 3 < Z.of_nat (length out) ->
  exists out',
    shift_frame s pitch_real out i = value out' /\ length out' = length out /\
    (Forall (fun b => 0 <= b < 256) out -> Forall (fun b => 0 <= b < 256) out').
Proof.
  intros Hwf Hwin Hbe Hend Hcount Hi Hroom.
  destruct (num_source_samples_bounds _ Hwf) as [_ Hlen].
  destruct Hwf as (_ & _ & Hbytes).
  unfold shift_frame. rewrite Hwin. cbn [mbind outcome_bind].
  rewrite sum_frames_frames_from by done.
  destruct (frames_from_inside (abuf s) (Z.to_nat (end_ - begin + 1)) begin Hbytes)
    as (fs & -> & Hsl & Hsr); [lia|lia|].
  cbn [mbind outcome_bind mret outcome_ret]. rewrite !Z.add_0_l.
  rewrite Z2Nat.id in Hsl, Hsr by lia.
  rewrite Z.mod_small by lia.
  destruct (mean_defined (sum_Z fs.*1) (end_ - begin + 1)) as (lt_out & ->); [lia|lia|].
  destruct (mean_defined (sum_Z fs.*2) (end_ - begin + 1)) as (rt_out & ->); [lia|lia|].
  cbn [converted mbind outcome_bind].
  destruct (write_byte_byte out (4 * i + 1) (Z.land (Z.shiftr lt_out 8) 255))
    as (o1 & -> & Hl1 & Hb1); [lia|apply land_255_byte|].
  cbn [mbind outcome_bind].
  destruct (write_byte_byte o1 (4 * i + 0) (Z.land lt_out 255))
    as (o2 & -> & Hl2 & Hb2); [lia|apply land_255_byte|].
  cbn [mbind outcome_bind].
  destruct (write_byte_byte o2 (4 * i + 3) (Z.land (Z.shiftr rt_out 8) 255))
    as (o3 & -> & Hl3 & Hb3); [lia|apply land_255_byte|].
  cbn [mbind outcome_bind].
  destruct (write_byte_byte o3 (4 * i + 2) (Z.land rt_out 255))
    as (o4 & -> & Hl4 & Hb4); [lia|apply land_255_byte|].
  exists o4. split; [done|]. split; [congruence|]. tauto.
Qed.

(** The [i] loop, all of whose windows are inside the source. *)
Lemma shift_frames_inside s pitch_real s_out : forall todo i out,
  chunk_wf s ->
  (forall k, 0 <= k < s_out ->
     exists begin end_,
       window (alen s / 4) pitch_real k = value (begin, end_) /\
       0 <= begin <= end_ /\ end_ < alen s / 4 /\ end_ - begin + 1 <= 512) ->
  0 <= i -> i + Z.of_nat todo <= s_out -> Z.of_nat (length out) = 4 * s_out ->
  Forall (fun b => 0 <= b < 256) out ->
  exists out',
    shift_frames s pitch_real todo i out = value out' /\ length out' = length out /\
    Forall (fun b => 0 <= b < 256) out'.
Proof.
  induction todo as [|todo IH]; intros i out Hwf Hwin Hi Hroom Hlen Hbytes.
  - by exists out.
  - cbn [shift_frames].
    destruct (Hwin i) as (begin & end_ & Hw & Hbe & Hend & Hcount); [lia|].
    destruct (shift_frame_inside s pitch_real out i begin end_ Hwf Hw Hbe Hend Hcount Hi)
      as (o1 & -> & Hl1 & Hb1); [lia|].
    cbn [mbind outcome_bind].
    destruct (IH (i + 1) o1 Hwf Hwin) as (o2 & -> & Hl2 & Hb2);
      [lia|lia|by rewrite Hl1|by apply Hb1|].
    exists o2. split; [done|]. split; [congruence|done].
Qed.

(** X23.  The pitch shifter stays inside its buffers.  For a well-formed
    source of fewer than 2^21 frames and a pitch between a half and two,
    [do_pitch_shift] is defined: every averaging window lies inside the
    source and holds at least one frame, every conversion to an integer
    is of a value that fits, and every write is inside the new buffer.
    The chunk it returns is well formed (its length is that of its
    buffer, which holds bytes), so the callback can play it, and it has
    between half as many frames as the source (rounded down) and twice
    as many. *)
Theorem pitch_shift_stays_inside (s : Mix_Chunk) (p : Z) :
  chunk_wf s -> alen s / 4 < 2 ^ 21 -> 2 ^ 148 <= p <= 2 * unit ->
  exists r,
    do_pitch_shift s (fin p) = value r /\ chunk_wf r /\
    alen s / 4 / 2 <= alen r / 4 <= 2 * (alen s / 4).
Proof.
  intros Hwf Hn Hp. pose proof unit_pos as Hu.
  destruct (num_source_samples_bounds _ Hwf) as [Hn0 _].
  destruct (decide (alen s / 4 = 0)) as [Hzero|Hpos].
  { assert (Hs : 0 <= alen s < 4).
    { destruct Hwf as (Hlen & _). split; [lia|].
      destruct (Z_lt_le_dec (alen s) 4); [done|].
      assert (1 <= alen s / 4); [apply Z.div_le_lower_bound; lia|lia]. }
    rewrite (do_pitch_shift_no_frame s p Hs). eexists. split; [reflexivity|].
    rewrite Hzero. split; [|done].
    split; [done|]. split; [done|constructor]. }
  set (n := alen s / 4) in *.
  assert (Hn1 : 1 <= n < 2 ^ 21) by lia.
  destruct (shift_header n p Hn1 Hp) as (s_out & Hout & Hso).
  unfold do_pitch_shift. fold n. rewrite Hout. cbn [converted mbind outcome_bind].
  assert (Hhalf : 0 <= n / 2) by (apply Z.div_pos; lia).
  rewrite (Z.mod_small (s_out * 4)) by lia.
  assert (Hwin : forall k, 0 <= k < s_out ->
     exists begin end_,
       window n (fdiv (of_int s_out) (of_int n)) k = value (begin, end_) /\
       0 <= begin <= end_ /\ end_ < n /\ end_ - begin + 1 <= 512).
  { intros k Hk.
    destruct (pitch_real_bounds n s_out Hn1) as (P & -> & HP & Hlow & Hq & Hlast);
      [lia|lia|].
    apply (window_inside n P s_out k); try done; lia. }
  destruct (shift_frames_inside s (fdiv (of_int s_out) (of_int n)) s_out
              (Z.to_nat s_out) 0 (replicate (Z.to_nat (s_out * 4)) 0) Hwf Hwin)
    as (out & -> & Hlen & Hbytes).
  - lia.
  - lia.
  - rewrite length_replicate. lia.
  - apply Forall_replicate. lia.
  - cbn [mbind outcome_bind mret outcome_ret].
    eexists. split; [reflexivity|]. cbn [alen abuf].
    rewrite length_replicate in Hlen.
    split.
    + unfold chunk_wf. cbn [alen abuf]. split; [lia|]. split; [lia|done].
    + rewrite Z.div_mul by lia. lia.
Qed.

End ShiftFacts.

Section ShiftExamples.
Import F32 Audio.

Lemma pitch_shift_stays_inside_witness :
  exists r,
    do_pitch_shift four_frames (fin (15 * 2 ^ 145)) = value r /\ chunk_wf r /\
    alen four_frames / 4 / 2 <= alen r / 4 <= 2 * (alen four_frames / 4).
Proof.
  apply (pitch_shift_stays_inside four_frames (15 * 2 ^ 145)).
  - exact four_frames_wf.
  - vm_compute. reflexivity.
  - vm_compute. split; discriminate.
Defined.

(** Four frames at 15/16 of the pitch become three. *)
Example fifteen_sixteenths :
  (r ← do_pitch_shift four_frames (fin (15 * 2 ^ 145)); mret (alen r)) = value 12.
Proof. vm_compute. reflexivity. Qed.

End ShiftExamples.
